(** * l7-loadbalancer: a shallow embedding of the dispatch core

    The development follows the headers of the repository:
      - [include/common/types.h]     FiveTuple, PacketMeta, RealServer, Session, Statistics
      - [include/common/config.h]    Config: trim, the loop of load, get, get_forward_mode
      - [include/lb/consistent_hash.h]  MurmurHash3, ConsistentHashRing
      - [include/lb/real_server.h]   RealServerManager
      - [include/lb/session.h]       SessionManager
      - [include/protocol/ethernet.h]  EthernetHeader
      - [include/protocol/ip.h]      IPv4Header, TcpHeader, IpChecksum, ProtocolParser
      - [include/core/ring_buffer.h] SPSCRingBuffer, MPMCRingBuffer, BatchRingBuffer

    Machine integers are values of [Z] with the wrap-around of their C++
    type written out.  Multi-byte loads through reinterpret_cast are
    little-endian, the byte order the sources assume (see the comment of
    ip_from_string in types.h).  Mutexes only serialise the operations; the
    embedding is the sequential behaviour of each operation on the state
    it guards. *)

From Stdlib Require Import ZArith List Lia Bool.
From stdpp Require Import gmap list.
Import ListNotations.

Local Open Scope Z_scope.

(** ** Machine words *)

Module Word.

Definition wrap8 (x : Z) : Z := x mod 2 ^ 8.
Definition wrap16 (x : Z) : Z := x mod 2 ^ 16.
Definition wrap32 (x : Z) : Z := x mod 2 ^ 32.
Definition wrap64 (x : Z) : Z := x mod 2 ^ 64.

(** Byte [i] of a buffer; the callers guard every read by the length. *)
Definition byte_at (buf : list Z) (i : Z) : Z := nth (Z.to_nat i) buf 0.

(** [*reinterpret_cast<const uint16_t*>(p)] on a little-endian host. *)
Definition load16 (b0 b1 : Z) : Z := Z.lor b0 (Z.shiftl b1 8).

(** [*reinterpret_cast<const uint32_t*>(p)] on a little-endian host. *)
Definition load32 (b0 b1 b2 b3 : Z) : Z :=
  Z.lor (Z.lor b0 (Z.shiftl b1 8)) (Z.lor (Z.shiftl b2 16) (Z.shiftl b3 24)).

(** The bytes of a 16-bit and of a 32-bit object, lowest address first. *)
Definition bytes16 (x : Z) : list Z := [Z.land x 255; Z.land (Z.shiftr x 8) 255].
Definition bytes32 (x : Z) : list Z :=
  [Z.land x 255; Z.land (Z.shiftr x 8) 255;
   Z.land (Z.shiftr x 16) 255; Z.land (Z.shiftr x 24) 255].

(** [ntohs] applied to a 16-bit object stored as bytes [b0 b1]. *)
Definition ntohs_bytes (b0 b1 : Z) : Z := Z.lor (Z.shiftl b0 8) b1.

(** [htons] of a 16-bit value on a little-endian host: the two bytes
    exchanged. *)
Definition htons (x : Z) : Z :=
  Z.lor (Z.shiftl (Z.land x 255) 8) (Z.land (Z.shiftr x 8) 255).

(** A 64-bit value read as [intptr_t]. *)
Definition signed64 (x : Z) : Z :=
  let y := wrap64 x in if y <? 2 ^ 63 then y else y - 2 ^ 64.

(** Writing the bytes [bs] into a buffer at offset [off] (a field
    assignment or a memcpy that stays inside the buffer). *)
Definition store (buf : list Z) (off : nat) (bs : list Z) : list Z :=
  firstn off buf ++ bs ++ skipn (off + length bs) buf.

End Word.

(** ** types.h: FiveTuple *)

(** The struct has five fields (4+4+2+2+1 bytes) and is 4-byte aligned, so
    sizeof(FiveTuple) = 16: three trailing padding bytes belong to the
    object.  Neither constructor writes them, and [operator==] does not read
    them; [pad] is their content. *)
Record FiveTuple := mkFiveTuple {
  src_ip : Z;
  dst_ip : Z;
  src_port : Z;
  dst_port : Z;
  protocol : Z;
  pad : Z * Z * Z
}.

(** [FiveTuple::operator==]: field-wise. *)
Definition tuple_eqb (a b : FiveTuple) : bool :=
  (src_ip a =? src_ip b) && (dst_ip a =? dst_ip b) &&
  (src_port a =? src_port b) && (dst_port a =? dst_port b) &&
  (protocol a =? protocol b).

(** [FiveTuple::reverse]: built by the five-argument constructor, which
    leaves the padding of the new object unset; [p] is what it holds. *)
Definition reverse (p : Z * Z * Z) (t : FiveTuple) : FiveTuple :=
  mkFiveTuple (dst_ip t) (src_ip t) (dst_port t) (src_port t) (protocol t) p.

(** The object representation read by [hash(&tuple, sizeof(tuple))]. *)
Definition tuple_bytes (t : FiveTuple) : list Z :=
  Word.bytes32 (src_ip t) ++ Word.bytes32 (dst_ip t) ++
  Word.bytes16 (src_port t) ++ Word.bytes16 (dst_port t) ++
  [Z.land (protocol t) 255] ++
  (let '(p0, p1, p2) := pad t in [Z.land p0 255; Z.land p1 255; Z.land p2 255]).

(** What identifies a tuple for [operator==] and for the session map. *)
Definition tuple_key (t : FiveTuple) : Z * Z * Z * Z * Z :=
  (src_ip t, dst_ip t, src_port t, dst_port t, protocol t).

(** ** consistent_hash.h: MurmurHash3 *)

Module MurmurHash3.

Definition c1 : Z := 0xcc9e2d51.
Definition c2 : Z := 0x1b873593.

Definition rotl32 (x r : Z) : Z :=
  Word.wrap32 (Z.lor (Z.shiftl x r) (Z.shiftr x (32 - r))).

Definition fmix32 (h : Z) : Z :=
  let h := Z.lxor h (Z.shiftr h 16) in
  let h := Word.wrap32 (h * 0x85ebca6b) in
  let h := Z.lxor h (Z.shiftr h 13) in
  let h := Word.wrap32 (h * 0xc2b2ae35) in
  Z.lxor h (Z.shiftr h 16).

(** [k1 *= c1; k1 = rotl32(k1, 15); k1 *= c2]. *)
Definition mix_k1 (k1 : Z) : Z :=
  Word.wrap32 (rotl32 (Word.wrap32 (k1 * c1)) 15 * c2).

(** One iteration of the body loop on the block [k1]. *)
Definition mix_block (h1 k1 : Z) : Z :=
  let h1 := Z.lxor h1 (mix_k1 k1) in
  let h1 := rotl32 h1 13 in
  Word.wrap32 (h1 * 5 + 0xe6546b64).

(** The body loop over the 4-byte blocks, then the [switch (len & 3)] on
    the tail, with its fall-through. *)
Fixpoint body_tail (data : list Z) (h1 : Z) : Z :=
  match data with
  | b0 :: b1 :: b2 :: b3 :: rest =>
      body_tail rest (mix_block h1 (Word.load32 b0 b1 b2 b3))
  | [t0; t1; t2] =>
      let k1 := Z.lxor 0 (Z.shiftl t2 16) in
      let k1 := Z.lxor k1 (Z.shiftl t1 8) in
      let k1 := Z.lxor k1 t0 in
      Z.lxor h1 (mix_k1 k1)
  | [t0; t1] =>
      let k1 := Z.lxor 0 (Z.shiftl t1 8) in
      let k1 := Z.lxor k1 t0 in
      Z.lxor h1 (mix_k1 k1)
  | [t0] =>
      let k1 := Z.lxor 0 t0 in
      Z.lxor h1 (mix_k1 k1)
  | [] => h1
  end.

(** [MurmurHash3::hash(key, len, seed)] on the [len] bytes [data]. *)
Definition hash (data : list Z) (seed : Z) : Z :=
  let h1 := body_tail data seed in
  let h1 := Word.wrap32 (Z.lxor h1 (Z.of_nat (length data))) in
  fmix32 h1.

(** [MurmurHash3::hash_tuple]: the whole object, seed 0. *)
Definition hash_tuple (t : FiveTuple) : Z := hash (tuple_bytes t) 0.

End MurmurHash3.

(** ** consistent_hash.h: ConsistentHashRing *)

Module ConsistentHashRing.

(** [std::map<uint32_t, uint32_t>] as the list of its entries in
    iteration order, that is by increasing key, one entry per key. *)
Definition std_map : Type := list (Z * Z).

Fixpoint sorted_keys (m : std_map) : bool :=
  match m with
  | [] => true
  | e :: rest => forallb (fun e' => fst e <? fst e') rest && sorted_keys rest
  end.

(** [m[k] = v]: overwrite the entry of [k] or insert it at its place. *)
Fixpoint map_assign (k v : Z) (m : std_map) : std_map :=
  match m with
  | [] => [(k, v)]
  | e :: rest =>
      if k <? fst e then (k, v) :: e :: rest
      else if k =? fst e then (k, v) :: rest
      else e :: map_assign k v rest
  end.

(** [m.lower_bound(h)]: the first entry whose key is not less than [h];
    [None] is [m.end()]. *)
Definition lower_bound (h : Z) (m : std_map) : option (Z * Z) :=
  List.find (fun e => h <=? fst e) m.

Record t := mk {
  virtual_nodes_ : Z;
  ring_ : std_map
}.

Definition create (virtual_nodes : Z) : t := mk virtual_nodes [].

(** [std::to_string] of a uint32_t: its decimal digits as characters; a
    32-bit value has at most ten of them. *)
Fixpoint digits (fuel : nat) (n : Z) (acc : list Z) : list Z :=
  match fuel with
  | O => acc
  | S fuel' =>
      let acc' := (48 + n mod 10) :: acc in
      if n / 10 =? 0 then acc' else digits fuel' (n / 10) acc'
  end.

Definition to_string (n : Z) : list Z := digits 10 n [].

(** The key string of replica [i] of a server: id, '#', i. *)
Definition node_key (server_id i : Z) : list Z :=
  to_string server_id ++ [35] ++ to_string i.

Definition replica_count (r : t) (weight : Z) : Z :=
  let replicas := Word.wrap32 (virtual_nodes_ r * weight) / 100 in
  if replicas <? 1 then 1 else replicas.

Definition add_node (server_id weight : Z) (r : t) : t :=
  let replicas := replica_count r weight in
  mk (virtual_nodes_ r)
     (fold_left
        (fun m i => map_assign (MurmurHash3.hash (node_key server_id (Z.of_nat i)) 0)
                               server_id m)
        (seq 0 (Z.to_nat replicas)) (ring_ r)).

(** The erase loop keeps exactly the entries of the other servers. *)
Definition remove_node (server_id : Z) (r : t) : t :=
  mk (virtual_nodes_ r)
     (List.filter (fun e => negb (snd e =? server_id)) (ring_ r)).

(** [get_server(tuple, server_id)]: [Some id] is a [true] return with
    [server_id] set to [id]; [None] is [false], [server_id] untouched. *)
Definition get_server (r : t) (tuple : FiveTuple) : option Z :=
  match ring_ r with
  | [] => None
  | first :: _ =>
      let hash := MurmurHash3.hash_tuple tuple in
      match lower_bound hash (ring_ r) with
      | Some it => Some (snd it)
      | None => Some (snd first)
      end
  end.

Definition node_count (r : t) : Z := Z.of_nat (length (ring_ r)).

Definition clear (r : t) : t := mk (virtual_nodes_ r) [].

(** The positions [add_node] writes for a server, in loop order, and the
    check that a ring holds neither the server nor any of these positions. *)
Definition replica_keys (server_id weight : Z) (r : t) : list Z :=
  map (fun i => MurmurHash3.hash (node_key server_id (Z.of_nat i)) 0)
      (seq 0 (Z.to_nat (replica_count r weight))).

Definition fresh_for (server_id weight : Z) (r : t) : bool :=
  let keys := replica_keys server_id weight r in
  forallb (fun e => negb (snd e =? server_id) &&
                    forallb (fun k => negb (fst e =? k)) keys)
          (ring_ r).

End ConsistentHashRing.

(** ** types.h: RealServer *)

Inductive ServerStatus := UP | DOWN | CHECKING.

Record RealServer := mkRealServer {
  rs_id : Z;
  rs_ip : Z;
  rs_port : Z;
  rs_mac : list Z;
  rs_weight : Z;
  rs_status : ServerStatus;
  rs_conn_count : Z;
  rs_total_conn : Z;
  rs_bytes_in : Z;
  rs_bytes_out : Z
}.

Definition is_available (rs : RealServer) : bool :=
  match rs_status rs with UP => true | _ => false end.

Definition with_status (s : ServerStatus) (rs : RealServer) : RealServer :=
  mkRealServer (rs_id rs) (rs_ip rs) (rs_port rs) (rs_mac rs) (rs_weight rs) s
    (rs_conn_count rs) (rs_total_conn rs) (rs_bytes_in rs) (rs_bytes_out rs).

(** ** real_server.h: RealServerManager *)

Module RealServerManager.

Record t := mk {
  servers_ : gmap Z RealServer;
  hash_ring_ : ConsistentHashRing.t
}.

(** The private constructor: an empty table and a ring of base 150. *)
Definition init : t := mk ∅ (ConsistentHashRing.create 150).

Definition add_server (rs : RealServer) (m : t) : t :=
  mk (<[rs_id rs := rs]> (servers_ m))
     (ConsistentHashRing.add_node (rs_id rs) (rs_weight rs) (hash_ring_ m)).

Definition remove_server (id : Z) (m : t) : t :=
  mk (delete id (servers_ m)) (ConsistentHashRing.remove_node id (hash_ring_ m)).

Definition set_status (id : Z) (status : ServerStatus) (m : t) : t :=
  match servers_ m !! id with
  | Some rs => mk (<[id := with_status status rs]> (servers_ m)) (hash_ring_ m)
  | None => m
  end.

(** [select_server]: the returned pointer is the table entry it points
    to; [None] is nullptr. *)
Definition select_server (m : t) (tuple : FiveTuple) : option RealServer :=
  match ConsistentHashRing.get_server (hash_ring_ m) tuple with
  | None => None
  | Some server_id =>
      match servers_ m !! server_id with
      | None => None
      | Some rs => if is_available rs then Some rs else None
      end
  end.

Definition get_server (m : t) (id : Z) : option RealServer := servers_ m !! id.

End RealServerManager.

(** ** types.h: Session and Statistics *)

Record Session := mkSession {
  client_tuple : FiveTuple;
  server_tuple : FiveTuple;
  real_server_id : Z;
  create_time : Z;
  last_active : Z;
  packets : Z;
  bytes : Z
}.

(** [Session::is_expired(timeout_sec)] when the steady clock reads [now]:
    both sides of the comparison are unsigned 64-bit. *)
Definition is_expired (now timeout_sec : Z) (s : Session) : bool :=
  Word.wrap64 (timeout_sec * 1000000000) <? Word.wrap64 (now - last_active s).

(** [Session::touch()] when the steady clock reads [now]. *)
Definition touch (now : Z) (s : Session) : Session :=
  mkSession (client_tuple s) (server_tuple s) (real_server_id s)
    (create_time s) now (packets s) (bytes s).

(** The session counters of [Statistics]; the packet counters of the
    struct are not written by the session manager. *)
Record Statistics := mkStatistics {
  active_sessions : Z;
  total_sessions : Z
}.

(** ** session.h: SessionManager *)

Module SessionManager.

(** [std::unordered_map<FiveTuple, Session, FiveTupleHash>]: keys are
    compared with [operator==], so a key is the five field values. *)
Record t := mk {
  sessions_ : gmap (Z * Z * Z * Z * Z) Session;
  timeout_sec_ : Z;
  stats_ : Statistics
}.

(** The private constructor: timeout 300, [stats_{}] zeroed. *)
Definition init : t := mk ∅ 300 (mkStatistics 0 0).

Definition set_timeout (seconds : Z) (m : t) : t :=
  mk (sessions_ m) seconds (stats_ m).

(** [lookup(tuple, session)]: [Some s] is [true] with [session = s]. *)
Definition lookup (now : Z) (tuple : FiveTuple) (m : t) : option Session * t :=
  match sessions_ m !! tuple_key tuple with
  | Some s =>
      let s' := touch now s in
      (Some s', mk (<[tuple_key tuple := s']> (sessions_ m)) (timeout_sec_ m) (stats_ m))
  | None => (None, m)
  end.

(** [create(client_tuple, server_id)] at clock reading [now].  The
    default-constructed [server_tuple] has all fields zero. *)
Definition create (now : Z) (tuple : FiveTuple) (server_id : Z) (m : t) : t :=
  let session :=
    mkSession tuple (mkFiveTuple 0 0 0 0 0 (0, 0, 0)) server_id now now 0 0 in
  mk (<[tuple_key tuple := session]> (sessions_ m)) (timeout_sec_ m)
     (mkStatistics (Word.wrap64 (active_sessions (stats_ m) + 1))
                   (Word.wrap64 (total_sessions (stats_ m) + 1))).

Definition update_stats (now : Z) (tuple : FiveTuple) (nbytes : Z) (m : t) : t :=
  match sessions_ m !! tuple_key tuple with
  | Some s =>
      let s1 := touch now s in
      let s2 := mkSession (client_tuple s1) (server_tuple s1) (real_server_id s1)
                  (create_time s1) (last_active s1)
                  (Word.wrap64 (packets s1 + 1)) (Word.wrap64 (bytes s1 + nbytes)) in
      mk (<[tuple_key tuple := s2]> (sessions_ m)) (timeout_sec_ m) (stats_ m)
  | None => m
  end.

Definition remove (tuple : FiveTuple) (m : t) : t :=
  match sessions_ m !! tuple_key tuple with
  | Some _ =>
      mk (delete (tuple_key tuple) (sessions_ m)) (timeout_sec_ m)
         (mkStatistics (Word.wrap64 (active_sessions (stats_ m) - 1))
                       (total_sessions (stats_ m)))
  | None => m
  end.

(** [cleanup()]: [is_expired] reads the clock anew at every entry, and
    [clock k] is the reading taken at the entry of key [k].  Returns the
    number of erased sessions. *)
Definition cleanup (clock : Z * Z * Z * Z * Z -> Z) (m : t) : Z * t :=
  let expired (e : (Z * Z * Z * Z * Z) * Session) : Prop :=
    is_expired (clock (fst e)) (timeout_sec_ m) (snd e) = true in
  let gone := filter expired (sessions_ m) in
  let kept := filter (fun e => ¬ expired e) (sessions_ m) in
  let removed := Z.of_nat (size gone) in
  (Word.wrap64 removed,
   mk kept (timeout_sec_ m)
      (mkStatistics (Word.wrap64 (active_sessions (stats_ m) - removed))
                    (total_sessions (stats_ m)))).

Definition active_count (m : t) : Z := Z.of_nat (size (sessions_ m)).

Definition get_stats (m : t) : Statistics := stats_ m.

(** A call of the public interface, with the clock readings it takes. *)
Inductive op :=
| OpCreate (now : Z) (tuple : FiveTuple) (server_id : Z)
| OpLookup (now : Z) (tuple : FiveTuple)
| OpUpdateStats (now : Z) (tuple : FiveTuple) (nbytes : Z)
| OpRemove (tuple : FiveTuple)
| OpCleanup (clock : Z * Z * Z * Z * Z -> Z).

Definition step (m : t) (o : op) : t :=
  match o with
  | OpCreate now tuple id => create now tuple id m
  | OpLookup now tuple => snd (lookup now tuple m)
  | OpUpdateStats now tuple n => update_stats now tuple n m
  | OpRemove tuple => remove tuple m
  | OpCleanup clock => snd (cleanup clock m)
  end.

Definition run (ops : list op) : t := fold_left step ops init.

(** How many of the calls are [create]. *)
Definition is_create (o : op) : bool :=
  match o with OpCreate _ _ _ => true | _ => false end.

Definition creates (ops : list op) : Z :=
  Z.of_nat (length (List.filter is_create ops)).

(** A call that neither creates nor removes the session of [tuple] and
    is not a sweep. *)
Definition leaves_flow (tuple : FiveTuple) (o : op) : bool :=
  match o with
  | OpCreate _ other _ => negb (tuple_eqb tuple other)
  | OpRemove other => negb (tuple_eqb tuple other)
  | OpCleanup _ => false
  | OpLookup _ _ | OpUpdateStats _ _ _ => true
  end.

End SessionManager.

(** ** ip.h: IpChecksum *)

Module IpChecksum.

(** The summing loop of [calculate]: 16-bit loads into a uint32_t
    accumulator, then the odd last byte if there is one. *)
Fixpoint sum_words (data : list Z) (sum : Z) : Z :=
  match data with
  | b0 :: b1 :: rest => sum_words rest (Word.wrap32 (sum + Word.load16 b0 b1))
  | [b0] => Word.wrap32 (sum + b0)
  | [] => sum
  end.

(** [while (sum >> 16) sum = (sum & 0xFFFF) + (sum >> 16)], run for at
    most [fuel] iterations. *)
Fixpoint fold_carry (fuel : nat) (sum : Z) : Z :=
  match fuel with
  | O => sum
  | S fuel' =>
      if Z.shiftr sum 16 =? 0 then sum
      else fold_carry fuel' (Z.land sum 0xFFFF + Z.shiftr sum 16)
  end.

(** Two iterations empty the upper half of any 32-bit accumulator (lemma
    [fold_carry_exits] below), so the loop is [fold_carry 2]. *)
Definition fold16 (sum : Z) : Z := fold_carry 2 sum.

Definition calculate (data : list Z) : Z :=
  let sum := sum_words data 0 in
  let sum := fold16 sum in
  Word.wrap16 (Z.lnot sum).

Definition incremental_update (old_sum old_val new_val : Z) : Z :=
  let sum := Word.wrap32 (Z.land (Z.lnot old_sum) 0xFFFF +
                          Z.land (Z.lnot old_val) 0xFFFF + new_val) in
  let sum := fold16 sum in
  Word.wrap16 (Z.lnot sum).

(** The aligned 16-bit field number [p] of a header, as [calculate] loads
    it, and the header with that field overwritten by the 16-bit [v]. *)
Definition get_field (h : list Z) (p : nat) : Z :=
  Word.load16 (nth (2 * p) h 0) (nth (2 * p + 1) h 0).

Definition set_field (h : list Z) (p : nat) (v : Z) : list Z :=
  firstn (2 * p) h ++ Word.bytes16 v ++ skipn (2 * p + 2) h.

(** [IPv4Header::get_header_len] of the header that starts the buffer
    [ip], and [update(ip)]: the checksum field (bytes 10 and 11) is zeroed,
    then set to [calculate] over the [get_header_len] bytes of the header. *)
Definition ip_get_header_len (ip : list Z) : Z := Z.land (nth 0 ip 0) 0x0F * 4.

Definition update (ip : list Z) : list Z :=
  let ip0 := set_field ip 5 0 in
  set_field ip0 5 (calculate (firstn (Z.to_nat (ip_get_header_len ip0)) ip0)).

(** What a buffer element is, and the sum of the 16-bit words of a
    buffer without the wrap-around of the accumulator. *)
Definition is_byte (b : Z) : Prop := 0 <= b < 256.

Fixpoint wsum (data : list Z) : Z :=
  match data with
  | b0 :: b1 :: rest => Word.load16 b0 b1 + wsum rest
  | [b0] => b0
  | [] => 0
  end.

End IpChecksum.

(** ** types.h: PacketMeta *)

Module PacketMeta.

Record t := mk {
  src_mac : list Z;
  dst_mac : list Z;
  ether_type : Z;
  src_ip : Z;
  dst_ip : Z;
  ip_protocol : Z;
  ip_ttl : Z;
  src_port : Z;
  dst_port : Z;
  l2_offset : Z;
  l3_offset : Z;
  l4_offset : Z;
  payload_offset : Z;
  total_len : Z;
  payload_len : Z
}.

(** [to_five_tuple()]: built by the five-argument constructor of
    [FiveTuple], whose padding [p] it does not set. *)
Definition to_five_tuple (p : Z * Z * Z) (m : t) : FiveTuple :=
  mkFiveTuple (src_ip m) (dst_ip m) (src_port m) (dst_port m) (ip_protocol m) p.

End PacketMeta.

(** ** ethernet.h and ip.h: header accessors and ProtocolParser *)

Module ProtocolParser.

Import PacketMeta.

Definition HEADER_SIZE : Z := 14.
Definition sizeof_IPv4Header : Z := 20.
Definition sizeof_TcpHeader : Z := 20.
Definition sizeof_UdpHeader : Z := 8.
Definition EtherType_IPv4 : Z := 0x0800.
Definition IPProtocol_TCP : Z := 6.
Definition IPProtocol_UDP : Z := 17.

Definition slice (pkt : list Z) (off n : nat) : list Z := firstn n (skipn off pkt).

(** [EthernetHeader::get_ether_type]: [ntohs] of bytes 12 and 13. *)
Definition get_ether_type (pkt : list Z) : Z :=
  Word.ntohs_bytes (Word.byte_at pkt 12) (Word.byte_at pkt 13).

Definition is_ipv4 (pkt : list Z) : bool := get_ether_type pkt =? EtherType_IPv4.

(** [IPv4Header] accessors on the header at offset [l3]. *)
Definition get_ihl (pkt : list Z) (l3 : Z) : Z := Z.land (Word.byte_at pkt l3) 0x0F.
Definition ip_header_len (pkt : list Z) (l3 : Z) : Z := get_ihl pkt l3 * 4.
Definition ip_proto (pkt : list Z) (l3 : Z) : Z := Word.byte_at pkt (l3 + 9).
Definition ip_ttl_of (pkt : list Z) (l3 : Z) : Z := Word.byte_at pkt (l3 + 8).
Definition load32_at (pkt : list Z) (off : Z) : Z :=
  Word.load32 (Word.byte_at pkt off) (Word.byte_at pkt (off + 1))
              (Word.byte_at pkt (off + 2)) (Word.byte_at pkt (off + 3)).
Definition load16_at (pkt : list Z) (off : Z) : Z :=
  Word.load16 (Word.byte_at pkt off) (Word.byte_at pkt (off + 1)).

(** [TcpHeader::get_header_len] on the header at offset [l4]. *)
Definition tcp_header_len (pkt : list Z) (l4 : Z) : Z :=
  Z.land (Z.shiftr (Word.byte_at pkt (l4 + 12)) 4) 0x0F * 4.

(** The three groups of assignments [parse] makes to [meta]. *)
Definition set_l2 (pkt : list Z) (m : t) : t :=
  mk (slice pkt 6 6) (slice pkt 0 6) (get_ether_type pkt)
     (src_ip m) (dst_ip m) (ip_protocol m) (ip_ttl m) (src_port m) (dst_port m)
     0 (Word.wrap16 HEADER_SIZE) (l4_offset m) (payload_offset m)
     (total_len m) (payload_len m).

Definition set_l3 (pkt : list Z) (len : Z) (m : t) : t :=
  mk (src_mac m) (dst_mac m) (ether_type m)
     (load32_at pkt (l3_offset m + 12)) (load32_at pkt (l3_offset m + 16))
     (ip_proto pkt (l3_offset m)) (ip_ttl_of pkt (l3_offset m))
     (src_port m) (dst_port m) (l2_offset m) (l3_offset m)
     (Word.wrap16 (l3_offset m + ip_header_len pkt (l3_offset m)))
     (payload_offset m) (Word.wrap16 len) (payload_len m).

Definition set_l4 (sport dport poff len : Z) (m : t) : t :=
  mk (src_mac m) (dst_mac m) (ether_type m) (src_ip m) (dst_ip m)
     (ip_protocol m) (ip_ttl m) sport dport
     (l2_offset m) (l3_offset m) (l4_offset m) (Word.wrap16 poff)
     (total_len m) (Word.wrap16 (len - Word.wrap16 poff)).

(** [parse(pkt, len, meta)]: [pkt] is the buffer of [len] bytes; the result
    is the returned bool and [meta] as the call leaves it. *)
Definition parse (pkt : list Z) (meta : t) : bool * t :=
  let len := Z.of_nat (length pkt) in
  if len <? HEADER_SIZE then (false, meta) else
  let meta := set_l2 pkt meta in
  if negb (is_ipv4 pkt) then (true, meta) else
  if len <? l3_offset meta + sizeof_IPv4Header then (false, meta) else
  let meta := set_l3 pkt len meta in
  let l4 := l4_offset meta in
  if (ip_protocol meta =? IPProtocol_TCP) && (l4 + sizeof_TcpHeader <=? len) then
    (true, set_l4 (load16_at pkt l4) (load16_at pkt (l4 + 2))
                  (l4 + tcp_header_len pkt l4) len meta)
  else if (ip_protocol meta =? IPProtocol_UDP) && (l4 + sizeof_UdpHeader <=? len) then
    (true, set_l4 (load16_at pkt l4) (load16_at pkt (l4 + 2))
                  (l4 + sizeof_UdpHeader) len meta)
  else
    (true, set_l4 0 0 l4 len meta).

(** The acceptance condition in the words of the specification: at least
    14 bytes and, for IPv4, at least 14 + ihl*4 bytes with the declared
    header lengths inside the frame (the IP header, and the TCP header
    when its fixed part is there). *)
Definition declared_lengths_fit (pkt : list Z) : bool :=
  let len := Z.of_nat (length pkt) in
  let l4 := HEADER_SIZE + ip_header_len pkt HEADER_SIZE in
  (l4 <=? len) &&
  (if (ip_proto pkt HEADER_SIZE =? IPProtocol_TCP) && (l4 + sizeof_TcpHeader <=? len)
   then l4 + tcp_header_len pkt l4 <=? len else true).

Definition spec_accepts (pkt : list Z) : bool :=
  let len := Z.of_nat (length pkt) in
  (HEADER_SIZE <=? len) && (if is_ipv4 pkt then declared_lengths_fit pkt else true).

End ProtocolParser.

(** ** ethernet.h: EthernetHeader, on the buffer that starts with it *)

Module EthernetHeader.

Definition get_dst_mac (eth : list Z) : list Z := firstn 6 eth.
Definition get_src_mac (eth : list Z) : list Z := firstn 6 (skipn 6 eth).

Definition set_dst_mac (mac : list Z) (eth : list Z) : list Z := Word.store eth 0 mac.
Definition set_src_mac (mac : list Z) (eth : list Z) : list Z := Word.store eth 6 mac.

Definition get_ether_type (eth : list Z) : Z :=
  Word.ntohs_bytes (nth 12 eth 0) (nth 13 eth 0).

Definition set_ether_type (type : Z) (eth : list Z) : list Z :=
  Word.store eth 12 (Word.bytes16 (Word.htons type)).

Definition is_ipv4 (eth : list Z) : bool := get_ether_type eth =? 0x0800.
Definition is_arp (eth : list Z) : bool := get_ether_type eth =? 0x0806.

(** [swap_mac]: three memcpy through a temporary. *)
Definition swap_mac (eth : list Z) : list Z :=
  let tmp := firstn 6 eth in
  let eth := Word.store eth 0 (firstn 6 (skipn 6 eth)) in
  Word.store eth 6 tmp.

End EthernetHeader.

(** ** ip.h: IPv4Header and TcpHeader, on the buffer that starts with them *)

Module IPv4Header.

Definition src_ip_bytes (ip : list Z) : list Z := firstn 4 (skipn 12 ip).
Definition dst_ip_bytes (ip : list Z) : list Z := firstn 4 (skipn 16 ip).

(** [swap_ip]: the two address fields exchanged through a temporary; a
    load and store of a [uint32_t] moves its four bytes. *)
Definition swap_ip (ip : list Z) : list Z :=
  let tmp := src_ip_bytes ip in
  let ip := Word.store ip 12 (dst_ip_bytes ip) in
  Word.store ip 16 tmp.

End IPv4Header.

Module TcpHeader.

Definition get_src_port (tcp : list Z) : Z :=
  Word.ntohs_bytes (nth 0 tcp 0) (nth 1 tcp 0).
Definition get_dst_port (tcp : list Z) : Z :=
  Word.ntohs_bytes (nth 2 tcp 0) (nth 3 tcp 0).
Definition set_src_port (p : Z) (tcp : list Z) : list Z :=
  Word.store tcp 0 (Word.bytes16 (Word.htons p)).
Definition set_dst_port (p : Z) (tcp : list Z) : list Z :=
  Word.store tcp 2 (Word.bytes16 (Word.htons p)).
Definition get_header_len (tcp : list Z) : Z :=
  Z.land (Z.shiftr (nth 12 tcp 0) 4) 0x0F * 4.

End TcpHeader.

(** ** ring_buffer.h: SPSCRingBuffer *)

Module SPSCRingBuffer.

Section Buffer.

(** The element type with its value-initialised element [T{}], and the
    template parameter [Size = 2 ^ log2_size]; the static_asserts of the
    class ask for a power of two that is at least 2. *)
Context {T : Type} (T_default : T) (log2_size : nat).

Definition Size : Z := 2 ^ Z.of_nat log2_size.

Record t := mk {
  head_ : Z;
  tail_ : Z;
  buffer_ : list T
}.

(** The constructor: both indices 0, [buffer_.resize(Size)]. *)
Definition init : t := mk 0 0 (repeat T_default (Z.to_nat Size)).

(** [push(item)]: the returned bool and the buffer afterwards. *)
Definition push (item : T) (q : t) : bool * t :=
  let current_tail := tail_ q in
  let next_tail := Z.land (current_tail + 1) (Size - 1) in
  if next_tail =? head_ q then (false, q)
  else (true, mk (head_ q) next_tail (<[Z.to_nat current_tail := item]> (buffer_ q))).

(** [pop(item)]: [Some x] is [true] with [item = x]; [None] is [false]
    with [item] untouched.  The slot keeps its (moved-from) element. *)
Definition pop (q : t) : option T * t :=
  let current_head := head_ q in
  if current_head =? tail_ q then (None, q)
  else
    let item := nth (Z.to_nat current_head) (buffer_ q) T_default in
    let next_head := Z.land (current_head + 1) (Size - 1) in
    (Some item, mk next_head (tail_ q) (buffer_ q)).

Definition peek (q : t) : option T :=
  if head_ q =? tail_ q then None
  else Some (nth (Z.to_nat (head_ q)) (buffer_ q) T_default).

Definition size (q : t) : Z := Z.land (tail_ q - head_ q + Size) (Size - 1).

Definition empty (q : t) : bool := head_ q =? tail_ q.

Definition full (q : t) : bool := Z.land (tail_ q + 1) (Size - 1) =? head_ q.

Definition capacity : Z := Size - 1.

(** A sequential run of producer and consumer calls, with what each call
    returned. *)
Inductive op := Push (item : T) | Pop.

Inductive ret := PushRet (item : T) (ok : bool) | PopRet (r : option T).

Fixpoint run (ops : list op) (q : t) : list ret * t :=
  match ops with
  | [] => ([], q)
  | Push x :: rest =>
      let '(ok, q') := push x q in
      let '(tr, q'') := run rest q' in
      (PushRet x ok :: tr, q'')
  | Pop :: rest =>
      let '(r, q') := pop q in
      let '(tr, q'') := run rest q' in
      (PopRet r :: tr, q'')
  end.

(** The items whose push returned true, and the items popped, in call
    order. *)
Fixpoint pushed (tr : list ret) : list T :=
  match tr with
  | [] => []
  | PushRet x true :: rest => x :: pushed rest
  | _ :: rest => pushed rest
  end.

Fixpoint popped (tr : list ret) : list T :=
  match tr with
  | [] => []
  | PopRet (Some x) :: rest => x :: popped rest
  | _ :: rest => popped rest
  end.

(** The pending items, oldest first: the slots from [head_] up to
    [tail_], around the end of the vector. *)
Definition pending (q : t) : list T :=
  map (fun i => nth (Z.to_nat ((head_ q + Z.of_nat i) mod Size)) (buffer_ q) T_default)
      (seq 0 (Z.to_nat (size q))).

(** What the constructor establishes and every call keeps: both indices
    inside the vector of [Size] slots. *)
Definition wf (q : t) : Prop :=
  0 <= head_ q < Size /\ 0 <= tail_ q < Size /\
  length (buffer_ q) = Z.to_nat Size.

End Buffer.

End SPSCRingBuffer.

(** ** ring_buffer.h: MPMCRingBuffer, run by one thread at a time *)

Module MPMCRingBuffer.

Section Buffer.

Context {T : Type} (T_default : T) (log2_size : nat).

Definition Size : Z := 2 ^ Z.of_nat log2_size.

Record Slot := mkSlot {
  sequence : Z;
  data : T
}.

Record t := mk {
  head_ : Z;
  tail_ : Z;
  buffer_ : list Slot
}.

(** The constructor: slot [i] starts with sequence [i]. *)
Definition init : t :=
  mk 0 0 (map (fun i => mkSlot (Z.of_nat i) T_default) (seq 0 (Z.to_nat Size))).

(** [&buffer_[pos & (Size - 1)]]. *)
Definition index (pos : Z) : nat := Z.to_nat (Z.land pos (Size - 1)).

Definition slot_at (q : t) (pos : Z) : Slot :=
  nth (index pos) (buffer_ q) (mkSlot 0 T_default).

(** [push(item)], its loop run for at most [fuel] iterations; [None] is a
    loop that has not ended by then.  With one thread running, the
    compare-exchange on [tail_] finds the value just loaded; a weak
    compare-exchange that fails spuriously repeats the iteration in the
    same state, and is left out. *)
Fixpoint push (fuel : nat) (item : T) (q : t) : option (bool * t) :=
  match fuel with
  | O => None
  | S fuel' =>
      let pos := tail_ q in
      let seq := sequence (slot_at q pos) in
      let diff := Word.signed64 (seq - pos) in
      if diff =? 0 then
        Some (true,
              mk (head_ q) (Word.wrap64 (pos + 1))
                 (<[index pos := mkSlot (Word.wrap64 (pos + 1)) item]> (buffer_ q)))
      else if diff <? 0 then Some (false, q)
      else push fuel' item q
  end.

(** [pop(item)]: [Some x] is [true] with [item = x].  The slot keeps its
    (moved-from) element and gets sequence [pos + Size]. *)
Fixpoint pop (fuel : nat) (q : t) : option (option T * t) :=
  match fuel with
  | O => None
  | S fuel' =>
      let pos := head_ q in
      let slot := slot_at q pos in
      let seq := sequence slot in
      let diff := Word.signed64 (seq - Word.wrap64 (pos + 1)) in
      if diff =? 0 then
        Some (Some (data slot),
              mk (Word.wrap64 (pos + 1)) (tail_ q)
                 (<[index pos := mkSlot (Word.wrap64 (pos + Size)) (data slot)]>
                    (buffer_ q)))
      else if diff <? 0 then Some (None, q)
      else pop fuel' q
  end.

Definition size (q : t) : Z := Word.wrap64 (tail_ q - head_ q).

Definition empty (q : t) : bool := size q =? 0.

Definition capacity : Z := Size.

(** A run of calls made one after the other, each loop with [fuel]. *)
Fixpoint run (fuel : nat) (ops : list (@SPSCRingBuffer.op T)) (q : t) :
    option (list (@SPSCRingBuffer.ret T) * t) :=
  match ops with
  | [] => Some ([], q)
  | SPSCRingBuffer.Push x :: rest =>
      match push fuel x q with
      | None => None
      | Some (ok, q') =>
          match run fuel rest q' with
          | None => None
          | Some (tr, q'') => Some (SPSCRingBuffer.PushRet x ok :: tr, q'')
          end
      end
  | SPSCRingBuffer.Pop :: rest =>
      match pop fuel q with
      | None => None
      | Some (r, q') =>
          match run fuel rest q' with
          | None => None
          | Some (tr, q'') => Some (SPSCRingBuffer.PopRet r :: tr, q'')
          end
      end
  end.

(** The pending items, oldest first: the data of the slots of positions
    [head_] up to [tail_]. *)
Definition pending (q : t) : list T :=
  map (fun j => data (slot_at q (head_ q + Z.of_nat j)))
      (seq 0 (Z.to_nat (size q))).

(** What holds between calls when one thread runs: the positions
    [head_ .. tail_ - 1] are filled (sequence = position + 1), the
    positions [tail_ .. head_ + Size - 1] are free (sequence = position). *)
Definition inv (q : t) : Prop :=
  (0 <= head_ q) /\ (head_ q <= tail_ q) /\ (tail_ q <= head_ q + Size) /\
  (length (buffer_ q) = Z.to_nat Size) /\
  (forall p, head_ q <= p < tail_ q -> sequence (slot_at q p) = p + 1) /\
  (forall p, tail_ q <= p < head_ q + Size -> sequence (slot_at q p) = p).

End Buffer.

End MPMCRingBuffer.

(** ** ring_buffer.h: BatchRingBuffer over an SPSC buffer *)

Module BatchRingBuffer.

Section Batch.

Context {T : Type} (T_default : T) (log2_size : nat).

(** [push_batch(items, count)]: pushes in order until a push is refused;
    returns the number pushed. *)
Fixpoint push_batch (items : list T) (q : @SPSCRingBuffer.t T) :
    Z * @SPSCRingBuffer.t T :=
  match items with
  | [] => (0, q)
  | x :: rest =>
      let '(ok, q') := SPSCRingBuffer.push log2_size x q in
      if ok then
        let '(pushed, q'') := push_batch rest q' in (pushed + 1, q'')
      else (0, q')
  end.

(** [pop_batch(items, max_count)]: pops into [items[0]], [items[1]], ...
    until a pop is refused; the result is the part of the array that was
    written, whose length is the returned count. *)
Fixpoint pop_batch (max_count : nat) (q : @SPSCRingBuffer.t T) :
    list T * @SPSCRingBuffer.t T :=
  match max_count with
  | O => ([], q)
  | S n =>
      match SPSCRingBuffer.pop T_default log2_size q with
      | (Some x, q') => let '(xs, q'') := pop_batch n q' in (x :: xs, q'')
      | (None, q') => ([], q')
      end
  end.

End Batch.

End BatchRingBuffer.

(** ** config.h: Config, on the lines of the file

    Strings are lists of character codes.  [load] is modelled by its
    loop over the lines that [std::getline] hands out; the parsing of the
    realserver section that follows the loop writes [real_servers_] only
    and is not modelled. *)

Module Config.

(** [std::isspace] and [std::tolower] in the "C" locale, which the
    program never changes. *)
Definition isspace (c : Z) : bool := (c =? 32) || ((9 <=? c) && (c <=? 13)).

Definition tolower (c : Z) : Z := if (65 <=? c) && (c <=? 90) then c + 32 else c.

(** [std::find_if_not(first, last, pred) - first]. *)
Fixpoint find_if_not (pred : Z -> bool) (s : list Z) : nat :=
  match s with
  | [] => 0
  | c :: rest => if pred c then S (find_if_not pred rest) else 0
  end.

(** [trim]: [start] from the front, [end] the base of the reverse
    iterator found from the back, both as distances from [str.begin()]. *)
Definition trim (str : list Z) : list Z :=
  let start := find_if_not isspace str in
  let end_ := (length str - find_if_not isspace (rev str))%nat in
  if (start <? end_)%nat then firstn (end_ - start) (skipn start str) else [].

Definition to_lower (str : list Z) : list Z := map tolower str.

(** [std::string::find(ch)]: [None] is [npos]. *)
Fixpoint find (ch : Z) (s : list Z) : option nat :=
  match s with
  | [] => None
  | c :: rest => if c =? ch then Some O else option_map S (find ch rest)
  end.

(** [operator==] on strings. *)
Fixpoint string_eqb (a b : list Z) : bool :=
  match a, b with
  | [], [] => true
  | x :: a', y :: b' => (x =? y) && string_eqb a' b'
  | _, _ => false
  end.

(** The body of the loop of [load] on one line that [std::getline]
    handed out: the state is [current_section] and [config_map_]. *)
Definition load_line (st : list Z * gmap (list Z) (list Z)) (raw : list Z) :
    list Z * gmap (list Z) (list Z) :=
  let line := trim raw in
  match line with
  | [] => st
  | c :: _ =>
      if (c =? 35) || (c =? 59) then st
      else if c =? 91 then
        match find 93 line with
        | None => st
        | Some end_ => (trim (firstn (end_ - 1) (skipn 1 line)), snd st)
        end
      else
        match find 61 line with
        | None => st
        | Some eq_pos =>
            let key := trim (firstn eq_pos line) in
            let value := trim (skipn (eq_pos + 1) line) in
            let full_key :=
              match fst st with
              | [] => key
              | _ => fst st ++ [46] ++ key
              end in
            (fst st, <[full_key := value]> (snd st))
        end
  end.

(** [config_map_] after the loop of [load] has read [lines]; the map is
    not cleared first, and [current_section] starts empty. *)
Definition load_lines (lines : list (list Z)) (m : gmap (list Z) (list Z)) :
    gmap (list Z) (list Z) :=
  snd (fold_left load_line lines ([], m)).

Definition get (m : gmap (list Z) (list Z)) (section key default_val : list Z) :
    list Z :=
  match m !! (section ++ [46] ++ key) with
  | Some v => v
  | None => default_val
  end.

Inductive ForwardMode := NAT | DR.

(** "global", "mode", "nat", "dr". *)
Definition str_global : list Z := [103; 108; 111; 98; 97; 108].
Definition str_mode : list Z := [109; 111; 100; 101].
Definition str_nat : list Z := [110; 97; 116].
Definition str_dr : list Z := [100; 114].

Definition get_forward_mode (m : gmap (list Z) (list Z)) : ForwardMode :=
  let mode := get m str_global str_mode str_nat in
  if string_eqb (to_lower mode) str_dr then DR else NAT.

(** A string without white space at either end. *)
Definition trimmed (s : list Z) : bool :=
  match s with
  | [] => true
  | c :: _ =>
      negb (isspace c) &&
      match last s with Some c' => negb (isspace c') | None => true end
  end.

(** A string in which the character does not occur. *)
Definition lacks (ch : Z) (s : list Z) : bool :=
  forallb (fun c => negb (c =? ch)) s.

(** A name a section header can carry: not empty, no white space at
    its ends, no ']'. *)
Definition section_name (s : list Z) : bool :=
  match s with [] => false | _ => trimmed s && lacks 93 s end.

(** A key a line can assign: not empty, no white space at its ends, no
    '=', and not starting with '#', ';' or '['. *)
Definition key_name (s : list Z) : bool :=
  match s with
  | [] => false
  | c :: _ =>
      negb ((c =? 35) || (c =? 59) || (c =? 91)) && trimmed s && lacks 61 s
  end.

End Config.

(** ** Sample inputs *)

Module Samples.

(** The ring of scenario 3: ids 1, 2, 3 with weight 100 and base 150, and
    the tuple (0x01020304, 0x05060708, 80, 8080, 6) with zeroed padding. *)
Definition ring_three : ConsistentHashRing.t :=
  ConsistentHashRing.add_node 3 100
    (ConsistentHashRing.add_node 2 100
       (ConsistentHashRing.add_node 1 100 (ConsistentHashRing.create 150))).

Definition tuple_T : FiveTuple :=
  mkFiveTuple 0x01020304 0x05060708 80 8080 6 (0, 0, 0).

(** A backend 10.0.0.1:8080, up. *)
Definition backend_1 : RealServer :=
  mkRealServer 1 0x0100000a 8080 [0; 12; 41; 62; 56; 146] 100 UP 0 0 0 0.

(** Two tuple objects built from the same five values, as by two calls of
    [FiveTuple(1, 2, 3, 4, 6)], whose padding bytes differ. *)
Definition tuple_a : FiveTuple := mkFiveTuple 1 2 3 4 6 (0, 0, 0).
Definition tuple_b : FiveTuple := mkFiveTuple 1 2 3 4 6 (1, 0, 0).

(** A different flow. *)
Definition tuple_c : FiveTuple := mkFiveTuple 9 2 3 4 6 (0, 0, 0).

(** [create] for a tuple that already has a session, as
    [handle_loadbalance] does when forwarding on the found session fails. *)
Definition create_twice : list SessionManager.op :=
  [SessionManager.OpCreate 1000 tuple_T 1; SessionManager.OpCreate 2000 tuple_T 2].

(** An uninitialised [PacketMeta] handed to the parser. *)
Definition meta_0 : PacketMeta.t := PacketMeta.mk [] [] 0 0 0 0 0 0 0 0 0 0 0 0 0.

(** A frame of [14 + n] bytes: zero MACs, EtherType IPv4, then an IP
    header whose first byte is [version_ihl], protocol ICMP, the rest 0. *)
Definition ipv4_frame (version_ihl : Z) (n : nat) : list Z :=
  repeat 0 12 ++ [8; 0] ++ firstn n ([version_ihl] ++ repeat 0 8 ++ [1] ++ repeat 0 50).

(** 30 bytes, ihl = 4: the declared 16-byte IP header ends with the frame. *)
Definition frame_ihl4_len30 : list Z := ipv4_frame 0x44 16.

(** 34 bytes, ihl = 15: the declared 60-byte IP header overruns the frame. *)
Definition frame_ihl15_len34 : list Z := ipv4_frame 0x4F 20.

(** 54 bytes, ihl = 5: a plain 20-byte IP header and 20 bytes after it. *)
Definition frame_ihl5_len54 : list Z := ipv4_frame 0x45 40.

(** A 14-byte ARP frame. *)
Definition frame_arp : list Z := [255; 255; 255; 255; 255; 255; 2; 0; 0; 0; 0; 1; 8; 6].

(** A two-byte header holding the word 1, and a header of 65538 words
    0xFFFF. *)
Definition header_one : list Z := [1; 0].
Definition header_long : list Z := repeat 255 (Z.to_nat 131076).

(** The IPv4 header of the unit test ChecksumTest.IPChecksum. *)
Definition header_test : list Z :=
  [0x45; 0x00; 0x00; 0x28; 0x00; 0x01; 0x00; 0x00; 0x40; 0x06;
   0x00; 0x00; 0xC0; 0xA8; 0x01; 0x01; 0xC0; 0xA8; 0x01; 0x02].

(** Scenario 4 on [SPSCRingBuffer<int, 4>], and what its calls return. *)
Definition spsc_wrap_calls : list (@SPSCRingBuffer.op Z) :=
  [SPSCRingBuffer.Push 1; SPSCRingBuffer.Push 2; SPSCRingBuffer.Push 3;
   SPSCRingBuffer.Push 4;
   SPSCRingBuffer.Pop; SPSCRingBuffer.Pop; SPSCRingBuffer.Pop;
   SPSCRingBuffer.Push 5; SPSCRingBuffer.Push 6; SPSCRingBuffer.Push 7;
   SPSCRingBuffer.Pop; SPSCRingBuffer.Pop; SPSCRingBuffer.Pop].

Definition spsc_wrap_returns : list (@SPSCRingBuffer.ret Z) :=
  [SPSCRingBuffer.PushRet 1 true; SPSCRingBuffer.PushRet 2 true;
   SPSCRingBuffer.PushRet 3 true; SPSCRingBuffer.PushRet 4 false;
   SPSCRingBuffer.PopRet (Some 1); SPSCRingBuffer.PopRet (Some 2);
   SPSCRingBuffer.PopRet (Some 3);
   SPSCRingBuffer.PushRet 5 true; SPSCRingBuffer.PushRet 6 true;
   SPSCRingBuffer.PushRet 7 true;
   SPSCRingBuffer.PopRet (Some 5); SPSCRingBuffer.PopRet (Some 6);
   SPSCRingBuffer.PopRet (Some 7)].

(** A registry holding [backend_1] alone, and one holding a second
    backend 10.0.0.2:8080 as well. *)
Definition backend_2 : RealServer :=
  mkRealServer 2 0x0200000a 8080 [0; 12; 41; 62; 56; 147] 100 UP 0 0 0 0.

Definition registry_1 : RealServerManager.t :=
  RealServerManager.add_server backend_1 RealServerManager.init.

Definition registry_2 : RealServerManager.t :=
  RealServerManager.add_server backend_2 registry_1.

(** Scenario 7: timeout 1 s, one session created at clock 0. *)
Definition table_1s : SessionManager.t :=
  SessionManager.create 0 tuple_T 1
    (SessionManager.set_timeout 1 SessionManager.init).

(** The IPv4 header of the unit test followed by four bytes of payload,
    and a frame carrying it. *)
Definition packet_test : list Z := header_test ++ [0xde; 0xad; 0xbe; 0xef].

Definition frame_test : list Z :=
  [0x00; 0x11; 0x22; 0x33; 0x44; 0x55; 0xAA; 0xBB; 0xCC; 0xDD; 0xEE; 0xFF; 0; 0]
  ++ packet_test.

(** An IPv4/TCP frame of 58 bytes: Ethernet header, 20-byte IP header
    (10.0.0.1 to 10.0.0.2), 20-byte TCP header (port 12345 to port 80, data
    offset 5) and 4 bytes of payload. *)
Definition frame_tcp : list Z :=
  [0x00; 0x11; 0x22; 0x33; 0x44; 0x55; 0xAA; 0xBB; 0xCC; 0xDD; 0xEE; 0xFF; 0x08; 0x00]
  ++ [0x45; 0; 0; 44; 0; 1; 0; 0; 64; 6; 0; 0; 10; 0; 0; 1; 10; 0; 0; 2]
  ++ [0x30; 0x39; 0x00; 0x50; 0; 0; 0; 1; 0; 0; 0; 0; 0x50; 0x10; 0x20; 0; 0; 0; 0; 0]
  ++ [1; 2; 3; 4].

End Samples.

Import Samples.

(** * Properties *)

(** ** The consistent-hash ring *)

Section RingProperties.

Import ConsistentHashRing.

Lemma sorted_keys_cons (e : Z * Z) (m : std_map) :
  sorted_keys (e :: m) = true <->
  (forall e', In e' m -> fst e < fst e') /\ sorted_keys m = true.
Proof.
  simpl. rewrite andb_true_iff, forallb_forall.
  split; intros [Hall Hs]; split; auto; intros e' Hin.
  - apply Z.ltb_lt. auto.
  - apply Z.ltb_lt. auto.
Qed.

(** In a sorted map a key has one entry. *)
Lemma sorted_keys_unique (m : std_map) (e1 e2 : Z * Z) :
  sorted_keys m = true -> In e1 m -> In e2 m -> fst e1 = fst e2 -> e1 = e2.
Proof.
  induction m as [|e m IH]; intros Hs H1 H2 Heq; [contradiction|].
  apply sorted_keys_cons in Hs as [Hlt Hs].
  destruct H1 as [<-|H1], H2 as [<-|H2]; auto.
  - specialize (Hlt _ H2). lia.
  - specialize (Hlt _ H1). lia.
Qed.

(** [lower_bound] on a sorted map: the entry of the least key [>= h]. *)
Lemma lower_bound_some (h : Z) (m : std_map) (it : Z * Z) :
  sorted_keys m = true -> lower_bound h m = Some it ->
  In it m /\ h <= fst it /\ forall e, In e m -> h <= fst e -> fst it <= fst e.
Proof.
  unfold lower_bound.
  induction m as [|e m IH]; intros Hs Hf; [discriminate|].
  apply sorted_keys_cons in Hs as [Hlt Hs]. simpl in Hf.
  destruct (h <=? fst e) eqn:Hle.
  - injection Hf as <-. apply Z.leb_le in Hle.
    split; [now left|]. split; [exact Hle|].
    intros e' [<-|Hin] _; [lia|]. specialize (Hlt _ Hin). lia.
  - apply Z.leb_gt in Hle.
    destruct (IH Hs Hf) as (Hin & Hh & Hmin).
    split; [now right|]. split; [exact Hh|].
    intros e' [<-|Hin'] Hge; [lia|auto].
Qed.

Lemma lower_bound_none (h : Z) (m : std_map) :
  lower_bound h m = None -> forall e, In e m -> fst e < h.
Proof.
  unfold lower_bound. intros Hf e Hin.
  pose proof (find_none _ _ Hf e Hin) as Hb. simpl in Hb.
  now apply Z.leb_gt in Hb.
Qed.

(** [begin()] of a sorted map is the entry of the smallest key. *)
Lemma sorted_keys_first (e : Z * Z) (m : std_map) :
  sorted_keys (e :: m) = true -> forall e', In e' (e :: m) -> fst e <= fst e'.
Proof.
  intros Hs e' [<-|Hin]; [lia|].
  apply sorted_keys_cons in Hs as [Hlt _]. specialize (Hlt _ Hin). lia.
Qed.

(** The operations keep the map sorted, so every ring built from
    [create] by [add_node], [remove_node] and [clear] is. *)
Lemma map_assign_in (k v : Z) (m : std_map) (e : Z * Z) :
  In e (map_assign k v m) -> e = (k, v) \/ In e m.
Proof.
  induction m as [|e0 m IH]; simpl.
  - intros [<-|[]]. now left.
  - destruct (k <? fst e0); [|destruct (k =? fst e0)]; simpl; intuition.
Qed.

Lemma map_assign_sorted (k v : Z) (m : std_map) :
  sorted_keys m = true -> sorted_keys (map_assign k v m) = true.
Proof.
  induction m as [|e0 m IH]; intros Hs; [reflexivity|].
  pose proof Hs as Hs0. apply sorted_keys_cons in Hs as [Hlt Hs].
  simpl map_assign.
  destruct (k <? fst e0) eqn:H1; [|destruct (k =? fst e0) eqn:H2].
  - apply Z.ltb_lt in H1. apply sorted_keys_cons. split; [|exact Hs0].
    intros e' [<-|Hin]; simpl; [lia|]. specialize (Hlt _ Hin). lia.
  - apply Z.eqb_eq in H2. apply sorted_keys_cons. split; [|exact Hs].
    intros e' Hin. specialize (Hlt _ Hin). simpl. lia.
  - apply Z.ltb_ge in H1. apply Z.eqb_neq in H2.
    apply sorted_keys_cons. split; [|auto].
    intros e' Hin. apply map_assign_in in Hin as [->|Hin]; simpl; [lia|auto].
Qed.

Lemma filter_sorted (f : Z * Z -> bool) (m : std_map) :
  sorted_keys m = true -> sorted_keys (List.filter f m) = true.
Proof.
  induction m as [|e m IH]; intros Hs; [reflexivity|].
  apply sorted_keys_cons in Hs as [Hlt Hs]. simpl.
  destruct (f e); [|auto].
  apply sorted_keys_cons. split; [|auto].
  intros e' Hin. apply filter_In in Hin as [Hin _]. auto.
Qed.

(** Ten digits are enough for [to_string] of a 32-bit value: more fuel
    gives the same string. *)
Lemma digits_fuel_enough (f extra : nat) (n : Z) (acc : list Z) :
  0 <= n < 10 ^ Z.of_nat (S f) ->
  digits (S f + extra) n acc = digits (S f) n acc.
Proof.
  revert n acc. induction f as [|f IH]; intros n acc Hn.
  - change (10 ^ Z.of_nat 1) with 10 in Hn.
    cbn [Nat.add digits]. rewrite (Z.div_small n 10) by lia. reflexivity.
  - change (S (S f) + extra)%nat with (S (S f + extra)).
    cbn [digits]. destruct (n / 10 =? 0); [reflexivity|].
    apply IH. rewrite (Nat2Z.inj_succ (S f)), Z.pow_succ_r in Hn by lia.
    split; [apply Z.div_pos; lia|apply Z.div_lt_upper_bound; lia].
Qed.

Lemma to_string_fuel_enough (n : Z) (extra : nat) :
  0 <= n < 2 ^ 32 -> digits (10 + extra) n [] = to_string n.
Proof.
  intros Hn. unfold to_string. apply (digits_fuel_enough 9).
  change (2 ^ 32) with 4294967296 in Hn.
  change (10 ^ Z.of_nat 10) with 10000000000. lia.
Qed.

Lemma create_sorted (v : Z) : sorted_keys (ring_ (create v)) = true.
Proof. reflexivity. Qed.

Lemma add_node_sorted (id w : Z) (r : t) :
  sorted_keys (ring_ r) = true -> sorted_keys (ring_ (add_node id w r)) = true.
Proof.
  unfold add_node. simpl. generalize (seq 0 (Z.to_nat (replica_count r w))).
  generalize (ring_ r). intros m l. revert m.
  induction l as [|i l IH]; intros m Hs; simpl; [exact Hs|].
  apply IH. now apply map_assign_sorted.
Qed.

Lemma remove_node_sorted (id : Z) (r : t) :
  sorted_keys (ring_ r) = true -> sorted_keys (ring_ (remove_node id r)) = true.
Proof. intros Hs. unfold remove_node. simpl. now apply filter_sorted. Qed.

(** C1. [get_server] fails exactly on the empty ring; otherwise, with
    [h] the MurmurHash3 of the tuple object, it returns the id stored at
    the entry of the least key [>= h], or, when every key is below [h], the
    id stored at the entry of the smallest key. *)
Theorem get_server_first_at_or_after_hash (r : t) (tuple : FiveTuple) :
  sorted_keys (ring_ r) = true ->
  (get_server r tuple = None <-> ring_ r = []) /\
  forall id,
    get_server r tuple = Some id <->
    exists k, In (k, id) (ring_ r) /\
      let h := MurmurHash3.hash_tuple tuple in
      ((h <= k /\ forall e, In e (ring_ r) -> h <= fst e -> k <= fst e) \/
       ((forall e, In e (ring_ r) -> fst e < h) /\
        forall e, In e (ring_ r) -> k <= fst e)).
Proof.
  intros Hs. unfold get_server.
  destruct (ring_ r) as [|first rest] eqn:Hring.
  { split; [tauto|]. intros id. split; [discriminate|]. intros (k & [] & _). }
  set (h := MurmurHash3.hash_tuple tuple).
  split.
  { destruct (lower_bound h (first :: rest)); split; discriminate. }
  intros id.
  destruct (lower_bound h (first :: rest)) as [it|] eqn:Hlb.
  - destruct (lower_bound_some _ _ _ Hs Hlb) as (Hin & Hh & Hmin).
    split.
    + intros [= <-]. exists (fst it). split; [now destruct it|].
      left. split; [exact Hh|exact Hmin].
    + intros (k & Hk & [[Hhk Hkmin]|[Hall _]]).
      * f_equal.
        assert (it = (k, id)) as ->; [|reflexivity].
        apply (sorted_keys_unique _ _ _ Hs Hin Hk). simpl.
        pose proof (Hmin _ Hk Hhk). pose proof (Hkmin _ Hin Hh). simpl in *. lia.
      * specialize (Hall _ Hin). lia.
  - pose proof (lower_bound_none _ _ Hlb) as Hall.
    split.
    + intros [= <-]. exists (fst first). split; [destruct first; now left|].
      right. split; [exact Hall|]. now apply sorted_keys_first.
    + intros (k & Hk & [[Hhk _]|[_ Hkmin]]).
      * specialize (Hall _ Hk). simpl in Hall. lia.
      * f_equal.
        assert (first = (k, id)) as ->; [|reflexivity].
        apply (sorted_keys_unique _ _ _ Hs (or_introl eq_refl) Hk). simpl.
        pose proof (sorted_keys_first _ _ Hs _ Hk).
        pose proof (Hkmin _ (or_introl eq_refl)). simpl in *. lia.
Qed.

Lemma get_server_first_at_or_after_hash_witness :
  sorted_keys (ring_ ring_three) = true /\
  (get_server ring_three tuple_T = None <-> ring_ ring_three = []).
Proof.
  split; [vm_compute; reflexivity|].
  apply (get_server_first_at_or_after_hash ring_three tuple_T).
  vm_compute; reflexivity.
Defined.

(** Erasing entries in front of, or behind, the entry a lookup stops at
    does not move the lookup. *)
Lemma find_filter_some {A : Type} (f g : A -> bool) (l : list A) (x : A) :
  List.find f l = Some x -> g x = true -> List.find f (List.filter g l) = Some x.
Proof.
  induction l as [|a l IH]; intros Hf Hg; [discriminate|].
  simpl in Hf. destruct (f a) eqn:Hfa.
  - injection Hf as ->. simpl. rewrite Hg. simpl. now rewrite Hfa.
  - simpl. destruct (g a); simpl; [rewrite Hfa|]; auto.
Qed.

Lemma find_filter_none {A : Type} (f g : A -> bool) (l : list A) :
  List.find f l = None -> List.find f (List.filter g l) = None.
Proof.
  induction l as [|a l IH]; intros Hf; [reflexivity|].
  simpl in Hf. destruct (f a) eqn:Hfa; [discriminate|].
  simpl. destruct (g a); simpl; [rewrite Hfa|]; auto.
Qed.

(** C2. If [get_server] maps a tuple to [X], then after [remove_node Y]
    with [Y <> X] it still maps the tuple to [X]. *)
Theorem remove_other_node_keeps_mapping (r : t) (tuple : FiveTuple) (X Y : Z) :
  get_server r tuple = Some X ->
  Y <> X ->
  get_server (remove_node Y r) tuple = Some X.
Proof.
  unfold get_server, remove_node. simpl.
  set (h := MurmurHash3.hash_tuple tuple).
  set (keep := fun e : Z * Z => negb (snd e =? Y)).
  destruct (ring_ r) as [|first rest] eqn:Hring; [discriminate|].
  destruct (lower_bound h (first :: rest)) as [it|] eqn:Hlb; intros [= HX] HY.
  - assert (keep it = true) as Hkeep.
    { unfold keep. apply negb_true_iff, Z.eqb_neq. lia. }
    pose proof (find_filter_some _ keep _ _ Hlb Hkeep) as Hlb'.
    fold (lower_bound h (List.filter keep (first :: rest))) in Hlb'.
    destruct (List.filter keep (first :: rest)) as [|first' rest'];
      [discriminate|].
    rewrite Hlb'. now rewrite HX.
  - assert (keep first = true) as Hkeep.
    { unfold keep. apply negb_true_iff, Z.eqb_neq. lia. }
    pose proof (find_filter_none _ keep _ Hlb) as Hlb'.
    fold (lower_bound h (List.filter keep (first :: rest))) in Hlb'.
    simpl in Hlb' |- *. rewrite Hkeep in Hlb' |- *.
    rewrite Hlb'. now rewrite HX.
Qed.

(** Scenario 3 on the concrete ring: the tuple is bound to backend 3, and
    stays so when backend 1 or backend 2 is removed. *)
Lemma remove_other_node_keeps_mapping_witness :
  get_server ring_three tuple_T = Some 3 /\
  get_server (remove_node 1 ring_three) tuple_T = Some 3 /\
  get_server (remove_node 2 ring_three) tuple_T = Some 3.
Proof.
  assert (get_server ring_three tuple_T = Some 3) as H
    by (vm_compute; reflexivity).
  split; [exact H|]. split.
  - apply (remove_other_node_keeps_mapping ring_three tuple_T 3 1 H). lia.
  - apply (remove_other_node_keeps_mapping ring_three tuple_T 3 2 H). lia.
Defined.

End RingProperties.

(** ** The backend registry *)

Section RegistryProperties.

Import RealServerManager.

Lemma is_available_UP (rs : RealServer) :
  is_available rs = true <-> rs_status rs = UP.
Proof. unfold is_available. destruct (rs_status rs); split; congruence. Qed.

Lemma set_status_ring (id : Z) (s : ServerStatus) (m : t) :
  hash_ring_ (set_status id s m) = hash_ring_ m.
Proof. unfold set_status. now destruct (servers_ m !! id). Qed.

Lemma set_status_lookup (id : Z) (s : ServerStatus) (m : t) :
  servers_ (set_status id s m) !! id = with_status s <$> servers_ m !! id.
Proof.
  unfold set_status. destruct (servers_ m !! id) as [rs|] eqn:Hrs; simpl.
  - now rewrite lookup_insert_eq.
  - now rewrite Hrs.
Qed.

(** C9. [select_server] returns a backend exactly when the ring lookup
    succeeds, the chosen id is in the server table and its status is UP,
    and then it returns that table entry; in every other case it returns
    nullptr.  After [set_status id DOWN] a tuple the ring maps to [id]
    gets no backend. *)
Theorem select_server_only_up (m : t) (tuple : FiveTuple) :
  (forall rs,
     select_server m tuple = Some rs <->
     exists id, ConsistentHashRing.get_server (hash_ring_ m) tuple = Some id /\
                servers_ m !! id = Some rs /\ rs_status rs = UP) /\
  (select_server m tuple = None <->
     ConsistentHashRing.get_server (hash_ring_ m) tuple = None \/
     exists id, ConsistentHashRing.get_server (hash_ring_ m) tuple = Some id /\
                (servers_ m !! id = None \/
                 exists rs, servers_ m !! id = Some rs /\ rs_status rs <> UP)) /\
  (forall id,
     ConsistentHashRing.get_server (hash_ring_ m) tuple = Some id ->
     select_server (set_status id DOWN m) tuple = None).
Proof.
  unfold select_server. split; [|split].
  - intros rs.
    destruct (ConsistentHashRing.get_server (hash_ring_ m) tuple) as [id|].
    + destruct (servers_ m !! id) as [rs'|] eqn:Hrs.
      * destruct (is_available rs') eqn:Hav.
        -- apply is_available_UP in Hav. split.
           ++ intros [= <-]. exists id. rewrite Hrs. auto.
           ++ intros (id' & [= <-] & Hl & _). congruence.
        -- split; [discriminate|]. intros (id' & [= <-] & Hl & Hup).
           apply is_available_UP in Hup. congruence.
      * split; [discriminate|]. intros (id' & [= <-] & Hl & _). congruence.
    + split; [discriminate|]. intros (id' & Hd & _). discriminate.
  - destruct (ConsistentHashRing.get_server (hash_ring_ m) tuple) as [id|].
    + destruct (servers_ m !! id) as [rs'|] eqn:Hrs.
      * destruct (is_available rs') eqn:Hav.
        -- apply is_available_UP in Hav. split; [discriminate|].
           intros [Hd|(id' & [= <-] & [Hn|(rs & Hl & Hne)])]; congruence.
        -- split; [|reflexivity]. intros _. right. exists id. split; [reflexivity|].
           right. exists rs'. split; [exact Hrs|].
           intros Hup. apply is_available_UP in Hup. congruence.
      * split; [|reflexivity]. intros _. right. exists id. now rewrite Hrs; auto.
    + split; auto.
  - intros id Hid. rewrite set_status_ring, Hid, set_status_lookup.
    destruct (servers_ m !! id); reflexivity.
Qed.

Lemma select_server_only_up_witness :
  select_server (add_server backend_1 init) tuple_T = Some backend_1 /\
  select_server (set_status 1 DOWN (add_server backend_1 init)) tuple_T = None.
Proof.
  assert (ConsistentHashRing.get_server
            (hash_ring_ (add_server backend_1 init)) tuple_T = Some 1) as H
    by (vm_compute; reflexivity).
  split.
  - apply (proj1 (select_server_only_up (add_server backend_1 init) tuple_T)).
    exists 1. split; [exact H|]. split; reflexivity.
  - apply (proj2 (proj2 (select_server_only_up (add_server backend_1 init) tuple_T))).
    exact H.
Defined.

End RegistryProperties.

(** ** The five-tuple hash *)

Section HashProperties.

(** Objects that agree on fields and padding hash alike. *)
Lemma hash_tuple_same_object (a b : FiveTuple) :
  tuple_key a = tuple_key b -> pad a = pad b ->
  MurmurHash3.hash_tuple a = MurmurHash3.hash_tuple b.
Proof.
  destruct a, b. unfold tuple_key. simpl. intros [= -> -> -> -> ->] ->. reflexivity.
Qed.

(** C8, at the failing input.  [tuple_a == tuple_b] holds field by
    field, yet [hash_tuple] returns different values for the two objects:
    it hashes all 16 bytes, the three padding bytes included. *)
Theorem hash_tuple_depends_on_padding :
  tuple_eqb tuple_a tuple_b = true /\
  MurmurHash3.hash_tuple tuple_a = 3018605585 /\
  MurmurHash3.hash_tuple tuple_b = 3657895209.
Proof. vm_compute. repeat split; reflexivity. Qed.

End HashProperties.

(** ** The session table *)

Section SessionProperties.

Import SessionManager.

Lemma wrap64_small (x : Z) : 0 <= x < 2 ^ 64 -> Word.wrap64 x = x.
Proof. intros H. unfold Word.wrap64. now apply Z.mod_small. Qed.

Lemma size_pos_of_lookup (m : gmap (Z * Z * Z * Z * Z) Session)
    (key : Z * Z * Z * Z * Z) (s : Session) :
  m !! key = Some s -> (0 < size m)%nat.
Proof.
  intros Hl. destruct (size m) eqn:Hsz; [|lia].
  apply map_size_empty_inv in Hsz. subst m. now rewrite lookup_empty in Hl.
Qed.

(** X14. Every call keeps [active_sessions] equal to the number of
    sessions, except a [create] for a tuple that already has one. *)
Lemma step_keeps_active_count (m : t) (o : op) :
  active_sessions (stats_ m) = Z.of_nat (size (sessions_ m)) ->
  Z.of_nat (size (sessions_ m)) < 2 ^ 64 - 1 ->
  (forall now tuple id,
     o = OpCreate now tuple id -> sessions_ m !! tuple_key tuple = None) ->
  active_sessions (stats_ (step m o)) = Z.of_nat (size (sessions_ (step m o))).
Proof.
  intros Hinv Hfit Hfresh. destruct o as [now tuple id|now tuple|now tuple n|tuple|clock].
  - simpl. rewrite map_size_insert_None by (eapply Hfresh; reflexivity).
    rewrite Hinv, wrap64_small by lia. lia.
  - simpl. unfold lookup. destruct (sessions_ m !! tuple_key tuple) eqn:Hl;
      simpl; [|exact Hinv].
    rewrite map_size_insert_Some by (rewrite Hl; eauto). exact Hinv.
  - simpl. unfold update_stats. destruct (sessions_ m !! tuple_key tuple) eqn:Hl;
      simpl; [|exact Hinv].
    rewrite map_size_insert_Some by (rewrite Hl; eauto). exact Hinv.
  - simpl. unfold remove. destruct (sessions_ m !! tuple_key tuple) eqn:Hl;
      simpl; [|exact Hinv].
    rewrite map_size_delete_Some by (rewrite Hl; eauto).
    pose proof (size_pos_of_lookup _ _ _ Hl).
    rewrite Hinv, wrap64_small by lia. lia.
  - pose (expired := fun e : (Z * Z * Z * Z * Z) * Session =>
                       is_expired (clock (fst e)) (timeout_sec_ m) (snd e) = true).
    pose proof (map_filter_union_complement expired (sessions_ m)) as Hu.
    pose proof (map_disjoint_filter_complement expired (sessions_ m)) as Hd.
    apply map_size_disj_union in Hd. rewrite Hu in Hd.
    unfold step, cleanup. cbn [snd stats_ sessions_ active_sessions].
    match goal with
    | |- Word.wrap64 (_ - Z.of_nat (size ?gone)) = Z.of_nat (size ?kept) =>
        assert (size (sessions_ m) = (size gone + size kept)%nat) as Hsz
          by exact Hd
    end.
    rewrite Hinv, wrap64_small by lia. lia.
Qed.

(** C3, at the failing input.  After [create] is called twice for one
    tuple the map holds one session and [active_sessions] is 2. *)
Theorem create_twice_miscounts_active_sessions :
  active_count (run create_twice) = 1 /\
  active_sessions (get_stats (run create_twice)) = 2.
Proof. vm_compute. split; reflexivity. Qed.

(** C10. For a tuple that has no session, [update_stats] returns the
    manager as it was: same map with the same sessions, same timeout,
    same counters. *)
Theorem update_stats_absent_is_noop (now : Z) (tuple : FiveTuple) (nbytes : Z) (m : t) :
  sessions_ m !! tuple_key tuple = None ->
  update_stats now tuple nbytes m = m.
Proof. intros H. unfold update_stats. now rewrite H. Qed.

Lemma update_stats_absent_is_noop_witness :
  update_stats 3000 tuple_c 64 (run create_twice) = run create_twice.
Proof.
  apply (update_stats_absent_is_noop 3000 tuple_c 64 (run create_twice)).
  vm_compute. reflexivity.
Defined.

End SessionProperties.

(** ** The packet parser *)

Section ParserProperties.

Import PacketMeta ProtocolParser.

(** C4, counterexample.  [parse] rejects a 30-byte IPv4 frame whose
    declared header (ihl = 4) fits, and accepts a 34-byte IPv4 frame whose
    declared header (ihl = 15) does not. *)
Lemma parse_ignores_ihl :
  (fst (parse frame_ihl4_len30 meta_0) = false /\
   spec_accepts frame_ihl4_len30 = true) /\
  (fst (parse frame_ihl15_len34 meta_0) = true /\
   spec_accepts frame_ihl15_len34 = false).
Proof. vm_compute. repeat split; reflexivity. Qed.

(** C4, amended.  [parse] succeeds only if the frame has 14 bytes and, for
    IPv4, 34 bytes (the fixed IPv4 header, whatever ihl says).  It succeeds
    on every non-IPv4 frame of at least 14 bytes, leaving the MACs and the
    EtherType in [meta], and on every IPv4 frame of at least 34 bytes
    whose declared header lengths fit. *)
Theorem parse_success_condition (pkt : list Z) (meta : PacketMeta.t) :
  let len := Z.of_nat (length pkt) in
  (fst (parse pkt meta) = true ->
     14 <= len /\ (is_ipv4 pkt = true -> 34 <= len)) /\
  (14 <= len -> is_ipv4 pkt = false ->
     fst (parse pkt meta) = true /\
     dst_mac (snd (parse pkt meta)) = firstn 6 pkt /\
     src_mac (snd (parse pkt meta)) = firstn 6 (skipn 6 pkt) /\
     ether_type (snd (parse pkt meta)) = get_ether_type pkt) /\
  (34 <= len -> is_ipv4 pkt = true -> declared_lengths_fit pkt = true ->
     fst (parse pkt meta) = true).
Proof.
  intros len. unfold parse. fold len.
  change (l3_offset (set_l2 pkt meta)) with 14.
  unfold HEADER_SIZE, sizeof_IPv4Header.
  split; [|split].
  - destruct (len <? 14) eqn:H; [discriminate|]. apply Z.ltb_ge in H.
    intros Hp. split; [lia|]. intros Hv4.
    rewrite Hv4 in Hp. simpl in Hp.
    destruct (len <? 14 + 20) eqn:H'; [discriminate|]. apply Z.ltb_ge in H'. lia.
  - intros Hlen Hv4.
    destruct (len <? 14) eqn:H; [apply Z.ltb_lt in H; lia|].
    rewrite Hv4. simpl. repeat split; reflexivity.
  - intros Hlen Hv4 _.
    destruct (len <? 14) eqn:H; [apply Z.ltb_lt in H; lia|].
    rewrite Hv4. simpl negb. cbv iota.
    destruct (len <? 14 + 20) eqn:H'; [apply Z.ltb_lt in H'; lia|].
    repeat match goal with |- context [if ?c then _ else _] => destruct c end;
      reflexivity.
Qed.

Lemma parse_success_condition_witness :
  (fst (parse frame_arp meta_0) = true /\
   dst_mac (snd (parse frame_arp meta_0)) = [255; 255; 255; 255; 255; 255] /\
   src_mac (snd (parse frame_arp meta_0)) = [2; 0; 0; 0; 0; 1] /\
   ether_type (snd (parse frame_arp meta_0)) = 0x0806) /\
  fst (parse frame_ihl5_len54 meta_0) = true.
Proof.
  split.
  - apply (proj1 (proj2 (parse_success_condition frame_arp meta_0)));
      vm_compute; [discriminate|reflexivity].
  - apply (proj2 (proj2 (parse_success_condition frame_ihl5_len54 meta_0)));
      vm_compute; [discriminate|reflexivity|reflexivity].
Defined.

Lemma wrap16_small (x : Z) : 0 <= x < 65536 -> Word.wrap16 x = x.
Proof. intros H. unfold Word.wrap16. now apply Z.mod_small. Qed.

Lemma land_15_range (x : Z) : 0 <= Z.land x 0x0F <= 15.
Proof.
  change (Z.land x 0x0F) with (Z.land x (Z.ones 4)).
  rewrite Z.land_ones by lia.
  change (2 ^ 4) with 16. pose proof (Z.mod_pos_bound x 16). lia.
Qed.

Lemma ip_header_len_range (pkt : list Z) (l3 : Z) :
  0 <= ip_header_len pkt l3 <= 60.
Proof.
  unfold ip_header_len, get_ihl.
  pose proof (land_15_range (Word.byte_at pkt l3)). lia.
Qed.

Lemma tcp_header_len_range (pkt : list Z) (l4 : Z) :
  0 <= tcp_header_len pkt l4 <= 60.
Proof.
  unfold tcp_header_len.
  pose proof (land_15_range (Z.shiftr (Word.byte_at pkt (l4 + 12)) 4)). lia.
Qed.

(** What does hold: on an accepted IPv4 frame below 64 KiB whose declared
    header lengths fit, the offsets are ordered and inside the frame. *)
Lemma parse_offsets_ordered_when_fit (pkt : list Z) (meta : PacketMeta.t) :
  34 <= Z.of_nat (length pkt) < 65536 ->
  is_ipv4 pkt = true ->
  declared_lengths_fit pkt = true ->
  fst (parse pkt meta) = true /\
  l2_offset (snd (parse pkt meta)) <= l3_offset (snd (parse pkt meta)) /\
  l3_offset (snd (parse pkt meta)) <= l4_offset (snd (parse pkt meta)) /\
  l4_offset (snd (parse pkt meta)) <= payload_offset (snd (parse pkt meta)) /\
  payload_offset (snd (parse pkt meta)) <= total_len (snd (parse pkt meta)).
Proof.
  intros Hlen Hv4 Hfit. unfold declared_lengths_fit in Hfit. unfold parse.
  set (len := Z.of_nat (length pkt)) in *.
  unfold HEADER_SIZE, sizeof_IPv4Header, sizeof_TcpHeader, sizeof_UdpHeader,
    IPProtocol_TCP, IPProtocol_UDP in *.
  destruct (len <? 14) eqn:H14; [apply Z.ltb_lt in H14; lia|].
  rewrite Hv4. cbn [negb].
  change (l3_offset (set_l2 pkt meta)) with 14.
  destruct (len <? 14 + 20) eqn:H34; [apply Z.ltb_lt in H34; lia|].
  cbn [set_l3 set_l2 l4_offset ip_protocol l3_offset].
  change (Word.wrap16 ProtocolParser.HEADER_SIZE) with 14.
  pose proof (ip_header_len_range pkt 14) as Hihl.
  set (l4 := 14 + ip_header_len pkt 14) in *.
  rewrite (wrap16_small l4) by lia.
  pose proof (tcp_header_len_range pkt l4) as Htcp.
  apply andb_true_iff in Hfit as [Hl4 Hfit]. apply Z.leb_le in Hl4.
  assert (forall r : bool * PacketMeta.t,
            (fst r = true /\ l2_offset (snd r) = 0 /\ l3_offset (snd r) = 14 /\
             l4_offset (snd r) = l4 /\ total_len (snd r) = len /\
             l4 <= payload_offset (snd r) <= len) ->
            fst r = true /\
            l2_offset (snd r) <= l3_offset (snd r) /\
            l3_offset (snd r) <= l4_offset (snd r) /\
            l4_offset (snd r) <= payload_offset (snd r) /\
            payload_offset (snd r) <= total_len (snd r)) as Hsuff.
  { intros r (-> & -> & -> & -> & -> & Hp). lia. }
  apply Hsuff. clear Hsuff.
  destruct ((ip_proto pkt 14 =? 6) && (l4 + 20 <=? len)) eqn:Htcpb;
    [|destruct ((ip_proto pkt 14 =? 17) && (l4 + 8 <=? len)) eqn:Hudpb];
    cbn [fst snd set_l4 set_l3 set_l2
         l2_offset l3_offset l4_offset payload_offset total_len];
    change (Word.wrap16 ProtocolParser.HEADER_SIZE) with 14; fold l4;
    rewrite (wrap16_small l4), (wrap16_small len) by lia.
  - apply Z.leb_le in Hfit. rewrite wrap16_small by lia.
    repeat split; try reflexivity; lia.
  - apply andb_true_iff in Hudpb as [_ Hudp]. apply Z.leb_le in Hudp.
    rewrite wrap16_small by lia. repeat split; try reflexivity; lia.
  - repeat split; try reflexivity; lia.
Qed.

(** C5, at the failing input.  [parse] accepts the 34-byte IPv4 frame
    with ihl = 15 and leaves [l4_offset = payload_offset = 74] with
    [total_len = 34]; [payload_len = len - payload_offset] wraps around. *)
Theorem parse_offsets_past_total_len :
  fst (parse frame_ihl15_len34 meta_0) = true /\
  l2_offset (snd (parse frame_ihl15_len34 meta_0)) = 0 /\
  l3_offset (snd (parse frame_ihl15_len34 meta_0)) = 14 /\
  l4_offset (snd (parse frame_ihl15_len34 meta_0)) = 74 /\
  payload_offset (snd (parse frame_ihl15_len34 meta_0)) = 74 /\
  total_len (snd (parse frame_ihl15_len34 meta_0)) = 34 /\
  payload_len (snd (parse frame_ihl15_len34 meta_0)) = 65496.
Proof. vm_compute. repeat split; reflexivity. Qed.

End ParserProperties.

(** ** The checksum *)

Section ChecksumProperties.

Import IpChecksum.

Lemma land_FFFF (x : Z) : Z.land x 0xFFFF = x mod 65536.
Proof. change 0xFFFF with (Z.ones 16). now rewrite Z.land_ones by lia. Qed.

Lemma land_255 (x : Z) : Z.land x 255 = x mod 256.
Proof. change 255 with (Z.ones 8). now rewrite Z.land_ones by lia. Qed.

Lemma shiftr_16 (x : Z) : Z.shiftr x 16 = x / 65536.
Proof. now rewrite Z.shiftr_div_pow2 by lia. Qed.

Lemma shiftr_8 (x : Z) : Z.shiftr x 8 = x / 256.
Proof. now rewrite Z.shiftr_div_pow2 by lia. Qed.

(** A little-endian 16-bit load is [b0 + 256 * b1]. *)
Lemma load16_add (b0 b1 : Z) :
  is_byte b0 -> Word.load16 b0 b1 = b0 + 256 * b1.
Proof.
  intros Hb0. unfold Word.load16.
  assert (Z.land b0 (Z.shiftl b1 8) = 0) as Hdisj.
  { apply Z.bits_inj'. intros n Hn. rewrite Z.land_spec, Z.bits_0.
    destruct (Z.lt_ge_cases n 8) as [Hlt|Hge].
    - rewrite Z.shiftl_spec_low by lia. apply andb_false_r.
    - destruct (Z.eq_dec b0 0) as [->|Hnz]; [now rewrite Z.bits_0|].
      rewrite (Z.bits_above_log2 b0 n); [reflexivity|unfold is_byte in Hb0; lia|].
      assert (Z.log2 b0 < 8); [|lia].
      apply Z.log2_lt_pow2; unfold is_byte in Hb0; lia. }
  rewrite <- Z.lxor_lor, <- Z.add_nocarry_lxor by exact Hdisj.
  rewrite Z.shiftl_mul_pow2 by lia. change (2 ^ 8) with 256. lia.
Qed.

Lemma load16_bytes16 (v : Z) :
  0 <= v < 65536 ->
  Word.load16 (Z.land v 255) (Z.land (Z.shiftr v 8) 255) = v.
Proof.
  intros Hv. rewrite !land_255, shiftr_8.
  rewrite load16_add by (unfold is_byte; apply Z.mod_pos_bound; lia).
  rewrite (Z.mod_small (v / 256)) by (split; [apply Z.div_pos|apply Z.div_lt_upper_bound]; lia).
  pose proof (Z.div_mod v 256). lia.
Qed.

(** The carry loop on a 32-bit accumulator: its result in closed form. *)
Lemma fold16_closed (s : Z) :
  0 <= s < 2 ^ 32 ->
  fold16 s = if s =? 0 then 0 else (s - 1) mod 65535 + 1.
Proof.
  intros Hs. unfold fold16, fold_carry.
  rewrite !shiftr_16, !land_FFFF.
  change (2 ^ 32) with 4294967296 in Hs.
  destruct (s =? 0) eqn:Hz.
  { apply Z.eqb_eq in Hz. subst s. reflexivity. }
  apply Z.eqb_neq in Hz.
  destruct (s / 65536 =? 0) eqn:Hhi.
  { apply Z.eqb_eq in Hhi. Z.div_mod_to_equations. lia. }
  apply Z.eqb_neq in Hhi.
  destruct ((s mod 65536 + s / 65536) / 65536 =? 0) eqn:Hhi2.
  - apply Z.eqb_eq in Hhi2. Z.div_mod_to_equations. lia.
  - apply Z.eqb_neq in Hhi2. Z.div_mod_to_equations. lia.
Qed.

Lemma fold16_range (s : Z) : 0 <= s < 2 ^ 32 -> 0 <= fold16 s < 65536.
Proof.
  intros Hs. rewrite fold16_closed by exact Hs.
  destruct (s =? 0); [lia|]. pose proof (Z.mod_pos_bound (s - 1) 65535). lia.
Qed.

Lemma fold_carry_done (n : nat) (s : Z) :
  Z.shiftr s 16 = 0 -> fold_carry n s = s.
Proof. intros H. destruct n; simpl; [reflexivity|]. now rewrite H. Qed.

Lemma fold_carry_add (a b : nat) (s : Z) :
  fold_carry (a + b) s = fold_carry b (fold_carry a s).
Proof.
  revert s. induction a as [|a IH]; intros s; [reflexivity|].
  simpl. destruct (Z.shiftr s 16 =? 0) eqn:H; [|apply IH].
  apply Z.eqb_eq in H. symmetry. now apply fold_carry_done.
Qed.

(** The loop of [calculate] ends: after two iterations the upper half of
    a 32-bit accumulator is zero, and further iterations change nothing. *)
Lemma fold_carry_exits (s : Z) :
  0 <= s < 2 ^ 32 ->
  Z.shiftr (fold16 s) 16 = 0 /\
  forall n, (2 <= n)%nat -> fold_carry n s = fold16 s.
Proof.
  intros Hs. pose proof (fold16_range s Hs) as Hr.
  assert (Z.shiftr (fold16 s) 16 = 0) as Hdone.
  { rewrite shiftr_16. apply Z.div_small. lia. }
  split; [exact Hdone|]. intros n Hn.
  replace n with (2 + (n - 2))%nat by lia.
  rewrite fold_carry_add. now apply fold_carry_done.
Qed.

Lemma list_pair_ind {A : Type} (P : list A -> Prop) :
  P [] -> (forall a, P [a]) -> (forall a b l, P l -> P (a :: b :: l)) ->
  forall l, P l.
Proof.
  intros H0 H1 H2 l.
  assert (P l /\ forall a, P (a :: l)) as [H _]; [|exact H].
  induction l as [|b l [IH1 IH2]]; split; auto.
Qed.

Lemma wrap32_add_l (a b : Z) :
  Word.wrap32 (Word.wrap32 a + b) = Word.wrap32 (a + b).
Proof. unfold Word.wrap32. apply Zplus_mod_idemp_l. Qed.

Lemma sum_words_wsum (data : list Z) (s : Z) :
  sum_words data (Word.wrap32 s) = Word.wrap32 (s + wsum data).
Proof.
  revert s. induction data as [| b0 | b0 b1 rest IH] using list_pair_ind;
    intros s; cbn [sum_words wsum].
  - now rewrite Z.add_0_r.
  - apply wrap32_add_l.
  - rewrite wrap32_add_l, IH. f_equal. lia.
Qed.

Lemma wsum_app (l1 l2 : list Z) :
  Nat.Even (length l1) -> wsum (l1 ++ l2) = wsum l1 + wsum l2.
Proof.
  induction l1 as [| b0 | b0 b1 rest IH] using list_pair_ind; intros Hev.
  - reflexivity.
  - destruct Hev as [k Hk]. simpl in Hk. lia.
  - simpl. rewrite IH; [lia|].
    destruct Hev as [k Hk]. simpl in Hk. exists (k - 1)%nat. lia.
Qed.

Lemma wsum_bounds (data : list Z) :
  Forall is_byte data ->
  0 <= wsum data <= 65535 * ((Z.of_nat (length data) + 1) / 2).
Proof.
  induction data as [| b0 | b0 b1 rest IH] using list_pair_ind; intros Hb.
  - change (0 <= 0 <= 65535 * 0). lia.
  - inversion Hb as [|? ? Hb0 _]; subst. unfold is_byte in Hb0.
    change (0 <= b0 <= 65535 * 1). lia.
  - inversion Hb as [|? ? Hb0 Hb']; subst.
    inversion Hb' as [|? ? Hb1 Hb'']; subst.
    specialize (IH Hb''). simpl wsum. rewrite load16_add by exact Hb0.
    unfold is_byte in Hb0, Hb1.
    replace (Z.of_nat (length (b0 :: b1 :: rest)) + 1)
      with (Z.of_nat (length rest) + 1 + 1 * 2) by (simpl length; lia).
    rewrite Z.div_add by lia. lia.
Qed.

Lemma wsum_ge_byte (data : list Z) (b : Z) :
  Forall is_byte data -> In b data -> b <= wsum data.
Proof.
  induction data as [| b0 | b0 b1 rest IH] using list_pair_ind; intros Hb Hin.
  - contradiction.
  - destruct Hin as [<-|[]]. simpl. lia.
  - inversion Hb as [|? ? Hb0 Hb']; subst.
    inversion Hb' as [|? ? Hb1 Hb'']; subst.
    pose proof (wsum_bounds rest Hb'') as [Hnn _].
    simpl wsum. rewrite load16_add by exact Hb0.
    unfold is_byte in Hb0, Hb1.
    destruct Hin as [<-|[<-|Hin]]; [lia|lia|].
    specialize (IH Hb'' Hin). lia.
Qed.

Lemma split_at_field (h : list Z) (n : nat) :
  (n + 1 < length h)%nat ->
  h = firstn n h ++ [nth n h 0; nth (n + 1) h 0] ++ skipn (n + 2) h.
Proof.
  revert h. induction n as [|n IH]; intros h Hlen.
  - destruct h as [|a [|b h]]; simpl in Hlen; try lia. reflexivity.
  - destruct h as [|a h]; simpl in Hlen; [lia|].
    simpl. f_equal. apply IH. lia.
Qed.

Lemma bytes16_is_byte (v : Z) : Forall is_byte (Word.bytes16 v).
Proof.
  unfold Word.bytes16. rewrite !land_255.
  repeat constructor; apply Z.mod_pos_bound; lia.
Qed.

Lemma set_field_is_byte (h : list Z) (p : nat) (v : Z) :
  Forall is_byte h -> Forall is_byte (set_field h p v).
Proof.
  intros Hb. unfold set_field. rewrite !Forall_app. repeat split.
  - now apply Forall_take.
  - apply bytes16_is_byte.
  - now apply Forall_drop.
Qed.

Lemma lnot_mod_16 (x : Z) : 0 <= x < 65536 -> Z.lnot x mod 65536 = 65535 - x.
Proof.
  intros Hx. unfold Z.lnot. symmetry.
  apply (Z.mod_unique_pos _ _ (-1)); lia.
Qed.

Lemma lnot_16 (x : Z) : 0 <= x < 65536 -> Word.wrap16 (Z.lnot x) = 65535 - x.
Proof. apply lnot_mod_16. Qed.

Lemma calculate_wsum (h : list Z) :
  0 <= wsum h < 2 ^ 32 -> calculate h = 65535 - fold16 (wsum h).
Proof.
  intros Hs. unfold calculate.
  change 0 with (Word.wrap32 0) at 1. rewrite sum_words_wsum. simpl Z.add.
  unfold Word.wrap32. rewrite Z.mod_small by exact Hs.
  apply lnot_16. now apply fold16_range.
Qed.

(** C6, counterexample.  When the rewritten header is all zero, the
    incremental update yields 0x0000 and the recomputation 0xFFFF.  When
    the header has more than 65537 words the 32-bit accumulator of
    [calculate] wraps around and the two values differ again. *)
Lemma incremental_update_differs :
  (incremental_update (calculate header_one) (get_field header_one 0) 0 = 0 /\
   calculate (set_field header_one 0 0) = 65535) /\
  (incremental_update (calculate header_long) (get_field header_long 0) 0 = 1 /\
   calculate (set_field header_long 0 0) = 0).
Proof. vm_compute. repeat split; reflexivity. Qed.

(** C6, amended.  For a header of bytes of at most 65537 16-bit words
    (131074 bytes), an aligned 16-bit field [p] inside it and a 16-bit
    value [v] such that the rewritten header is not all zero,
    [incremental_update (calculate h0) old v] is [calculate] of the
    rewritten header. *)
Theorem incremental_update_matches_recompute (h0 : list Z) (p : nat) (v : Z) :
  Forall is_byte h0 ->
  Z.of_nat (length h0) <= 131074 ->
  (2 * p + 1 < length h0)%nat ->
  0 <= v < 65536 ->
  (exists b, In b (set_field h0 p v) /\ b <> 0) ->
  incremental_update (calculate h0) (get_field h0 p) v =
  calculate (set_field h0 p v).
Proof.
  intros Hb Hlen Hp Hv (b & Hin & Hnz).
  pose proof (set_field_is_byte h0 p v Hb) as Hb'.
  (* the three parts of the header *)
  set (front := firstn (2 * p) h0).
  set (back := skipn (2 * p + 2) h0).
  set (m := get_field h0 p).
  assert (Nat.Even (length front)) as Hev.
  { exists p. unfold front. apply firstn_length_le. lia. }
  assert (wsum h0 = wsum front + m + wsum back) as HS.
  { rewrite (split_at_field h0 (2 * p) Hp) at 1.
    fold front back. rewrite wsum_app by exact Hev. cbn [app wsum].
    unfold m, get_field. lia. }
  assert (wsum (set_field h0 p v) = wsum front + v + wsum back) as HS'.
  { unfold set_field. fold front back. rewrite wsum_app by exact Hev.
    unfold Word.bytes16. cbn [app wsum]. rewrite load16_bytes16 by exact Hv. lia. }
  assert (0 <= wsum front) as Hfront
    by (apply wsum_bounds; unfold front; now apply Forall_take).
  assert (0 <= wsum back) as Hback
    by (apply wsum_bounds; unfold back; now apply Forall_drop).
  assert (0 <= m < 65536) as Hm.
  { unfold m, get_field.
    assert (is_byte (nth (2 * p) h0 0)) as H0
      by (apply (proj1 (Forall_nth is_byte 0 h0) Hb); lia).
    assert (is_byte (nth (2 * p + 1) h0 0)) as H1
      by (apply (proj1 (Forall_nth is_byte 0 h0) Hb); lia).
    rewrite load16_add by exact H0. unfold is_byte in H0, H1. lia. }
  (* neither sum overflows the accumulator *)
  assert (forall h, Forall is_byte h -> Z.of_nat (length h) <= 131074 ->
                    0 <= wsum h < 2 ^ 32) as Hfit.
  { intros h Hh Hl. pose proof (wsum_bounds h Hh) as [Hlo Hhi].
    split; [exact Hlo|]. change (2 ^ 32) with 4294967296.
    assert ((Z.of_nat (length h) + 1) / 2 < 65538)
      by (apply Z.div_lt_upper_bound; lia).
    lia. }
  assert (length (set_field h0 p v) = length h0) as Hlen'.
  { unfold set_field. rewrite !length_app, length_skipn.
    rewrite firstn_length_le by lia. simpl. lia. }
  pose proof (Hfit h0 Hb Hlen) as HSr.
  assert (0 <= wsum (set_field h0 p v) < 2 ^ 32) as HSr'
    by (apply Hfit; [exact Hb'|lia]).
  (* the rewritten header has a non-zero byte, so its sum is positive *)
  assert (1 <= wsum (set_field h0 p v)) as Hpos.
  { pose proof (wsum_ge_byte _ _ Hb' Hin) as Hge.
    assert (is_byte b) as Hbb by (exact (proj1 (List.Forall_forall _ _) Hb' b Hin)).
    unfold is_byte in Hbb. lia. }
  rewrite (calculate_wsum (set_field h0 p v) HSr').
  unfold incremental_update. rewrite (calculate_wsum h0 HSr).
  fold m. rewrite !land_FFFF.
  pose proof (fold16_range _ HSr) as HF.
  rewrite (lnot_mod_16 (65535 - fold16 (wsum h0))) by lia.
  rewrite (lnot_mod_16 m) by exact Hm.
  replace (65535 - (65535 - fold16 (wsum h0))) with (fold16 (wsum h0)) by lia.
  set (x := fold16 (wsum h0) + (65535 - m) + v).
  assert (0 <= x < 2 ^ 32) as Hx by (unfold x; change (2 ^ 32) with 4294967296; lia).
  unfold Word.wrap32. rewrite (Z.mod_small x) by exact Hx.
  rewrite lnot_16 by (now apply fold16_range).
  f_equal.
  rewrite (fold16_closed x Hx), (fold16_closed _ HSr').
  assert (1 <= x) as Hx1.
  { unfold x. rewrite (fold16_closed _ HSr).
    destruct (wsum h0 =? 0) eqn:Hz.
    - apply Z.eqb_eq in Hz. lia.
    - pose proof (Z.mod_pos_bound (wsum h0 - 1) 65535). lia. }
  destruct (x =? 0) eqn:Hxz; [apply Z.eqb_eq in Hxz; lia|].
  destruct (wsum (set_field h0 p v) =? 0) eqn:Hsz; [apply Z.eqb_eq in Hsz; lia|].
  f_equal. unfold x. rewrite (fold16_closed _ HSr), HS'.
  destruct (wsum h0 =? 0) eqn:Hz.
  - apply Z.eqb_eq in Hz.
    replace (0 + (65535 - m) + v - 1) with (wsum front + v + wsum back - 1 + 1 * 65535) by lia.
    now rewrite Z.mod_add by lia.
  - rewrite HS. Z.div_mod_to_equations. lia.
Qed.

Lemma incremental_update_matches_recompute_witness :
  incremental_update (calculate header_test) (get_field header_test 6) 0x1234 =
  calculate (set_field header_test 6 0x1234).
Proof.
  apply (incremental_update_matches_recompute header_test 6 0x1234).
  - unfold header_test, is_byte. repeat constructor; lia.
  - simpl. lia.
  - simpl. lia.
  - lia.
  - exists 0x45. split; [simpl; tauto|lia].
Defined.

End ChecksumProperties.

(** ** The SPSC ring buffer *)

Section SPSCProperties.

Import SPSCRingBuffer.

Context {T : Type} (d : T) (k : nat) (Hk : (1 <= k)%nat).

Lemma Size_ge_2 : 2 <= (Size k).
Proof.
  unfold Size. replace (Z.of_nat k) with (1 + Z.of_nat (k - 1)) by lia.
  rewrite Z.pow_add_r by lia.
  pose proof (Z.pow_pos_nonneg 2 (Z.of_nat (k - 1))). lia.
Qed.

(** [x & (Size - 1)] is [x mod Size]. *)
Lemma mask_mod (x : Z) : Z.land x ((Size k) - 1) = x mod (Size k).
Proof.
  unfold Size. rewrite <- Z.land_ones by lia.
  now rewrite Z.ones_equiv, <- Z.sub_1_r.
Qed.

Lemma mod_once (x : Z) :
  0 <= x < 2 * (Size k) -> x mod (Size k) = if x <? (Size k) then x else x - (Size k).
Proof.
  intros Hx. pose proof Size_ge_2.
  destruct (x <? (Size k)) eqn:Hlt.
  - apply Z.ltb_lt in Hlt. apply Z.mod_small. lia.
  - apply Z.ltb_ge in Hlt. symmetry.
    apply (Z.mod_unique_pos _ _ 1); lia.
Qed.

Lemma size_cases (q : @t T) :
  wf k q ->
  size k q = if head_ q <=? tail_ q then tail_ q - head_ q
             else tail_ q - head_ q + (Size k).
Proof.
  intros (Hh & Ht & _). unfold size. rewrite mask_mod, mod_once by lia.
  destruct (head_ q <=? tail_ q) eqn:Hle.
  - apply Z.leb_le in Hle.
    destruct (tail_ q - head_ q + (Size k) <? (Size k)) eqn:H;
      [apply Z.ltb_lt in H|apply Z.ltb_ge in H]; lia.
  - apply Z.leb_gt in Hle.
    destruct (tail_ q - head_ q + (Size k) <? (Size k)) eqn:H;
      [apply Z.ltb_lt in H|apply Z.ltb_ge in H]; lia.
Qed.

Lemma slot_cases (q : @t T) (i : Z) :
  wf k q -> 0 <= i < (Size k) ->
  (head_ q + i) mod (Size k) =
  if head_ q + i <? (Size k) then head_ q + i else head_ q + i - (Size k).
Proof. intros (Hh & _) Hi. apply mod_once. lia. Qed.

Lemma init_wf : wf k (init d k).
Proof.
  pose proof Size_ge_2. unfold wf, init. simpl.
  rewrite repeat_length. lia.
Qed.

Lemma init_pending : pending d k (init d k) = [].
Proof.
  pose proof Size_ge_2. unfold pending, size, init. simpl.
  rewrite mask_mod. replace (0 - 0 + (Size k)) with (0 + 1 * (Size k)) by lia.
  rewrite Z.mod_add, Z.mod_0_l by lia. reflexivity.
Qed.

(** A refused push: the buffer holds [Size - 1] items and stays as it is. *)
Lemma push_full (x : T) (q : @t T) :
  wf k q -> (size k q = (Size k) - 1 <-> push k x q = (false, q)).
Proof.
  intros Hwf. pose proof Hwf as (Hh & Ht & _). pose proof Size_ge_2.
  unfold push. rewrite mask_mod, mod_once by lia.
  rewrite (size_cases q Hwf).
  destruct (tail_ q + 1 <? (Size k)) eqn:H1;
    [apply Z.ltb_lt in H1|apply Z.ltb_ge in H1];
    destruct (head_ q <=? tail_ q) eqn:H2;
    [apply Z.leb_le in H2|apply Z.leb_gt in H2
    |apply Z.leb_le in H2|apply Z.leb_gt in H2].
  all: match goal with |- context [if ?c =? ?e then _ else _] =>
         destruct (c =? e) eqn:H3;
         [apply Z.eqb_eq in H3|apply Z.eqb_neq in H3] end.
  all: split; intros Hx; try reflexivity; try lia; try discriminate.
Qed.

(** An accepted push appends the item to the pending ones. *)
Lemma push_ok (x : T) (q q' : @t T) :
  wf k q -> push k x q = (true, q') ->
  wf k q' /\ pending d k q' = pending d k q ++ [x].
Proof.
  intros Hwf. pose proof Hwf as (Hh & Ht & Hlen). pose proof Size_ge_2.
  unfold push. rewrite mask_mod.
  destruct ((tail_ q + 1) mod (Size k) =? head_ q) eqn:Hfull; [discriminate|].
  apply Z.eqb_neq in Hfull. intros [= <-].
  assert (wf k (mk (head_ q) ((tail_ q + 1) mod (Size k))
                   (<[Z.to_nat (tail_ q) := x]> (buffer_ q)))) as Hwf'.
  { unfold wf. simpl. rewrite length_insert.
    pose proof (Z.mod_pos_bound (tail_ q + 1) (Size k)). lia. }
  split; [exact Hwf'|].
  assert (size k (mk (head_ q) ((tail_ q + 1) mod (Size k))
                     (<[Z.to_nat (tail_ q) := x]> (buffer_ q)))
          = size k q + 1) as Hsz.
  { rewrite (size_cases _ Hwf'), (size_cases _ Hwf). simpl.
    rewrite mod_once in Hfull |- * by lia.
    destruct (tail_ q + 1 <? (Size k)) eqn:H1;
      [apply Z.ltb_lt in H1|apply Z.ltb_ge in H1];
      destruct (head_ q <=? tail_ q) eqn:H2;
      [apply Z.leb_le in H2|apply Z.leb_gt in H2
      |apply Z.leb_le in H2|apply Z.leb_gt in H2].
    all: match goal with |- context [if ?a <=? ?b then _ else _] =>
           destruct (a <=? b) eqn:H3;
           [apply Z.leb_le in H3|apply Z.leb_gt in H3] end; lia. }
  assert (0 <= size k q < (Size k) - 1) as Hrange.
  { rewrite (size_cases _ Hwf). rewrite mod_once in Hfull by lia.
    destruct (tail_ q + 1 <? (Size k)) eqn:H1;
      [apply Z.ltb_lt in H1|apply Z.ltb_ge in H1];
      destruct (head_ q <=? tail_ q) eqn:H2;
      [apply Z.leb_le in H2|apply Z.leb_gt in H2
      |apply Z.leb_le in H2|apply Z.leb_gt in H2]; lia. }
  assert ((head_ q + size k q) mod (Size k) = tail_ q) as Hlast.
  { rewrite (slot_cases q _ Hwf) by lia. rewrite (size_cases _ Hwf).
    destruct (head_ q <=? tail_ q) eqn:H2;
      [apply Z.leb_le in H2|apply Z.leb_gt in H2].
    all: match goal with |- context [if ?a <? ?b then _ else _] =>
           destruct (a <? b) eqn:H3;
           [apply Z.ltb_lt in H3|apply Z.ltb_ge in H3] end; lia. }
  unfold pending at 1. rewrite Hsz. simpl head_. simpl buffer_.
  replace (Z.to_nat (size k q + 1)) with (Z.to_nat (size k q) + 1)%nat by lia.
  rewrite seq_app, map_app. f_equal.
  - unfold pending. apply map_ext_in. intros i Hi. apply in_seq in Hi.
    rewrite !nth_lookup, list_lookup_insert_ne; [reflexivity|].
    intros Heq. apply Z2Nat.inj in Heq; [|lia|].
    + rewrite <- Hlast in Heq.
      rewrite (slot_cases q (size k q) Hwf), (slot_cases q (Z.of_nat i) Hwf) in Heq by lia.
      destruct (head_ q + size k q <? (Size k)) eqn:H1;
        [apply Z.ltb_lt in H1|apply Z.ltb_ge in H1];
        destruct (head_ q + Z.of_nat i <? (Size k)) eqn:H2;
        [apply Z.ltb_lt in H2|apply Z.ltb_ge in H2
        |apply Z.ltb_lt in H2|apply Z.ltb_ge in H2]; lia.
    + pose proof (Z.mod_pos_bound (head_ q + Z.of_nat i) (Size k)). lia.
  - simpl. rewrite Z2Nat.id by lia. rewrite Hlast.
    rewrite nth_lookup, list_lookup_insert_eq by lia. reflexivity.
Qed.

(** A pop from an empty buffer returns nothing and changes nothing. *)
Lemma pop_empty (q : @t T) :
  head_ q = tail_ q -> pop d k q = (None, q).
Proof. intros H. unfold pop. rewrite H, Z.eqb_refl. reflexivity. Qed.

Lemma pop_none (q q' : @t T) :
  wf k q -> pop d k q = (None, q') -> q' = q /\ pending d k q = [].
Proof.
  intros Hwf. pose proof Size_ge_2. unfold pop.
  destruct (head_ q =? tail_ q) eqn:He; [|discriminate].
  apply Z.eqb_eq in He. intros [= <-]. split; [reflexivity|].
  unfold pending. rewrite (size_cases _ Hwf), He, Z.leb_refl, Z.sub_diag.
  reflexivity.
Qed.

(** A successful pop returns the oldest pending item and removes it. *)
Lemma pop_some (x : T) (q q' : @t T) :
  wf k q -> pop d k q = (Some x, q') ->
  wf k q' /\ pending d k q = x :: pending d k q'.
Proof.
  intros Hwf. pose proof Hwf as (Hh & Ht & Hlen). pose proof Size_ge_2.
  unfold pop. rewrite mask_mod.
  destruct (head_ q =? tail_ q) eqn:He; [discriminate|].
  apply Z.eqb_neq in He. intros [= <- <-].
  assert (wf k (mk ((head_ q + 1) mod (Size k)) (tail_ q) (buffer_ q))) as Hwf'.
  { unfold wf. simpl. pose proof (Z.mod_pos_bound (head_ q + 1) (Size k)). lia. }
  split; [exact Hwf'|].
  assert (size k q = size k (mk ((head_ q + 1) mod (Size k)) (tail_ q) (buffer_ q)) + 1
          /\ 0 <= size k (mk ((head_ q + 1) mod (Size k)) (tail_ q) (buffer_ q)))
    as [Hsz Hnn].
  { rewrite (size_cases _ Hwf'), (size_cases _ Hwf). simpl.
    rewrite mod_once by lia.
    destruct (head_ q + 1 <? (Size k)) eqn:H1;
      [apply Z.ltb_lt in H1|apply Z.ltb_ge in H1];
      destruct (head_ q <=? tail_ q) eqn:H2;
      [apply Z.leb_le in H2|apply Z.leb_gt in H2
      |apply Z.leb_le in H2|apply Z.leb_gt in H2].
    all: match goal with |- context [if ?a <=? ?b then _ else _] =>
           destruct (a <=? b) eqn:H3;
           [apply Z.leb_le in H3|apply Z.leb_gt in H3] end; lia. }
  unfold pending at 1. rewrite Hsz.
  replace (Z.to_nat (size k (mk ((head_ q + 1) mod (Size k)) (tail_ q) (buffer_ q)) + 1))
    with (S (Z.to_nat (size k (mk ((head_ q + 1) mod (Size k)) (tail_ q) (buffer_ q)))))
    by lia.
  rewrite <- cons_seq, <- seq_shift. cbn [map]. f_equal.
  - rewrite Z.add_0_r, Z.mod_small by lia. reflexivity.
  - rewrite map_map. unfold pending. apply map_ext. intros i.
    simpl head_. simpl buffer_. do 2 f_equal.
    rewrite Zplus_mod_idemp_l. f_equal. lia.
Qed.

(** Every sequential run keeps the representation and hands the items
    over in order. *)
Lemma run_fifo (ops : list op) (q : @t T) :
  wf k q ->
  wf k (snd (run d k ops q)) /\
  pending d k q ++ pushed (fst (run d k ops q)) =
  popped (fst (run d k ops q)) ++ pending d k (snd (run d k ops q)).
Proof.
  revert q. induction ops as [|o ops IH]; intros q Hwf.
  - simpl. split; [exact Hwf|]. now rewrite app_nil_r.
  - destruct o as [x|]; cbn [run].
    + destruct (push k x q) as [ok q'] eqn:Hpush.
      destruct ok.
      * destruct (push_ok x q q' Hwf Hpush) as [Hwf' Hpend].
        specialize (IH q' Hwf'). destruct (run d k ops q') as [tr q''].
        simpl in *. destruct IH as [IHwf IH]. split; [exact IHwf|].
        rewrite <- IH, Hpend, <- app_assoc. reflexivity.
      * assert (q' = q) as ->.
        { unfold push in Hpush.
          destruct (Z.land (tail_ q + 1) ((Size k) - 1) =? head_ q);
            congruence. }
        specialize (IH q Hwf). destruct (run d k ops q) as [tr q''].
        simpl in *. exact IH.
    + destruct (pop d k q) as [r q'] eqn:Hpop.
      destruct r as [x|].
      * destruct (pop_some x q q' Hwf Hpop) as [Hwf' Hpend].
        specialize (IH q' Hwf'). destruct (run d k ops q') as [tr q''].
        simpl in *. destruct IH as [IHwf IH]. split; [exact IHwf|].
        rewrite Hpend. simpl. f_equal. exact IH.
      * destruct (pop_none q q' Hwf Hpop) as [-> Hpend].
        specialize (IH q Hwf). destruct (run d k ops q) as [tr q''].
        simpl in *. exact IH.
Qed.

(** C7. On a buffer of size [S = 2 ^ k], in any state a sequential run
    of pushes and pops reaches from the empty buffer: a push with [S - 1]
    items pending returns false and leaves the buffer as it is; a pop on
    the empty buffer returns false and leaves it as it is; the items
    whose push returned true are the popped items followed by the items
    still pending, in that order.  With [S = 4] the calls of scenario 4
    return what the scenario lists. *)
Theorem spsc_sequential_fifo :
  (forall (ops : list op) (x : T),
     let q := snd (run d k ops (init d k)) in
     size k q = (Size k) - 1 -> push k x q = (false, q)) /\
  (forall ops : list op,
     let q := snd (run d k ops (init d k)) in
     empty q = true -> pop d k q = (None, q)) /\
  (forall ops : list op,
     let r := run d k ops (init d k) in
     pushed (fst r) = popped (fst r) ++ pending d k (snd r)) /\
  fst (run 0 2 spsc_wrap_calls (init 0 2)) = spsc_wrap_returns.
Proof.
  split; [|split; [|split]].
  - intros ops x q Hfull.
    destruct (run_fifo ops (init d k) init_wf) as [Hwf _].
    now apply push_full.
  - intros ops q Hempty. apply pop_empty.
    unfold empty in Hempty. now apply Z.eqb_eq.
  - intros ops r.
    destruct (run_fifo ops (init d k) init_wf) as [_ Hfifo].
    rewrite init_pending in Hfifo. exact Hfifo.
  - vm_compute. reflexivity.
Qed.

End SPSCProperties.

Lemma spsc_sequential_fifo_witness :
  SPSCRingBuffer.pushed (fst (SPSCRingBuffer.run 0 2 spsc_wrap_calls (SPSCRingBuffer.init 0 2))) =
  SPSCRingBuffer.popped (fst (SPSCRingBuffer.run 0 2 spsc_wrap_calls (SPSCRingBuffer.init 0 2))) ++
  SPSCRingBuffer.pending 0 2 (snd (SPSCRingBuffer.run 0 2 spsc_wrap_calls (SPSCRingBuffer.init 0 2))).
Proof.
  assert (1 <= 2)%nat as H by lia.
  exact (proj1 (proj2 (proj2 (spsc_sequential_fifo 0 2 H))) spsc_wrap_calls).
Defined.

(** * Further properties of the modelled code *)

(** ** consistent_hash.h: the ring under add_node, remove_node, clear *)

Section RingOperations.

Import ConsistentHashRing.

(** What a lookup returns is stored in the ring. *)
Lemma get_server_in (r : t) (tuple : FiveTuple) (id : Z) :
  get_server r tuple = Some id -> exists k, In (k, id) (ring_ r).
Proof.
  unfold get_server. destruct (ring_ r) as [|first rest] eqn:Hr; [discriminate|].
  destruct (lower_bound (MurmurHash3.hash_tuple tuple) (first :: rest))
    as [it|] eqn:Hlb; intros [= <-].
  - apply find_some in Hlb as [Hin _]. exists (fst it). now destruct it.
  - exists (fst first). destruct first. now left.
Qed.

(** X1. After [remove_node id] no tuple is mapped to [id]. *)
Theorem remove_node_never_selected (r : t) (id : Z) (tuple : FiveTuple) :
  get_server (remove_node id r) tuple <> Some id.
Proof.
  intros H. apply get_server_in in H as [k Hin].
  unfold remove_node in Hin. simpl in Hin.
  apply filter_In in Hin as [_ Hne]. simpl in Hne.
  now rewrite Z.eqb_refl in Hne.
Qed.

Lemma map_assign_self (k v : Z) (m : std_map) : In (k, v) (map_assign k v m).
Proof.
  induction m as [|e m IH]; simpl; [now left|].
  destruct (k <? fst e); [now left|].
  destruct (k =? fst e); [now left|]. now right.
Qed.

Lemma map_assign_keeps (k v : Z) (m : std_map) (e : Z * Z) :
  In e m -> fst e <> k -> In e (map_assign k v m).
Proof.
  induction m as [|e0 m IH]; intros Hin Hne; [contradiction|]. simpl.
  destruct (k <? fst e0); [now right|].
  destruct (k =? fst e0) eqn:Hk.
  - apply Z.eqb_eq in Hk. destruct Hin as [<-|Hin]; [congruence|now right].
  - destruct Hin as [<-|Hin]; [now left|right; auto].
Qed.

Lemma map_assign_same_value (k k' v : Z) (m : std_map) :
  In (k, v) m -> In (k, v) (map_assign k' v m).
Proof.
  intros Hin. destruct (Z.eq_dec k k') as [->|Hne].
  - apply map_assign_self.
  - now apply map_assign_keeps.
Qed.

Lemma map_assign_nonempty (k v : Z) (m : std_map) : map_assign k v m <> [].
Proof.
  destruct m as [|e m]; simpl; [discriminate|].
  destruct (k <? fst e); [discriminate|]. now destruct (k =? fst e).
Qed.

(** [add_node] as a loop over the positions of the server. *)
Lemma add_node_fold (id w : Z) (r : t) :
  ring_ (add_node id w r) =
  fold_left (fun m k => map_assign k id m) (replica_keys id w r) (ring_ r).
Proof.
  unfold add_node, replica_keys. simpl.
  generalize (seq 0 (Z.to_nat (replica_count r w))). generalize (ring_ r).
  intros m l. revert m. induction l as [|i l IH]; intros m; simpl; auto.
Qed.

Lemma replica_count_pos (r : t) (w : Z) : 1 <= replica_count r w.
Proof.
  unfold replica_count.
  destruct (Word.wrap32 (virtual_nodes_ r * w) / 100 <? 1) eqn:H;
    [lia|apply Z.ltb_ge in H; lia].
Qed.

Lemma replica_keys_nonempty (id w : Z) (r : t) : replica_keys id w r <> [].
Proof.
  unfold replica_keys. pose proof (replica_count_pos r w).
  destruct (Z.to_nat (replica_count r w)) eqn:Hn; [lia|]. discriminate.
Qed.

Lemma fold_assign_values (id : Z) (keys : list Z) (m : std_map) (e : Z * Z) :
  In e (fold_left (fun m k => map_assign k id m) keys m) ->
  snd e = id \/ In e m.
Proof.
  revert m. induction keys as [|k keys IH]; intros m Hin; simpl in Hin; [now right|].
  apply IH in Hin as [H|Hin]; [now left|].
  apply map_assign_in in Hin as [->|Hin]; [now left|now right].
Qed.

Lemma fold_assign_nonempty (id : Z) (keys : list Z) (m : std_map) :
  keys <> [] -> fold_left (fun m k => map_assign k id m) keys m <> [].
Proof.
  intros Hk. destruct keys as [|k keys]; [contradiction|]. simpl.
  generalize (map_assign_nonempty k id m). generalize (map_assign k id m).
  clear. induction keys as [|k' keys IH]; intros m Hm; simpl; [exact Hm|].
  apply IH. apply map_assign_nonempty.
Qed.

Lemma add_node_nonempty_lookup (r : t) (id w : Z) (tuple : FiveTuple) :
  get_server (add_node id w r) tuple <> None.
Proof.
  unfold get_server.
  destruct (ring_ (add_node id w r)) as [|first rest] eqn:Hr.
  - exfalso. rewrite add_node_fold in Hr.
    exact (fold_assign_nonempty id _ _ (replica_keys_nonempty id w r) Hr).
  - now destruct (lower_bound _ _).
Qed.

Lemma add_node_only_server (r : t) (id w : Z) (tuple : FiveTuple) :
  (forall e, In e (ring_ r) -> snd e = id) ->
  get_server (add_node id w r) tuple = Some id.
Proof.
  intros Hall. pose proof (add_node_nonempty_lookup r id w tuple) as Hsome.
  destruct (get_server (add_node id w r) tuple) as [x|] eqn:Hg; [|contradiction].
  apply get_server_in in Hg as [k Hin]. rewrite add_node_fold in Hin.
  apply fold_assign_values in Hin as [H|Hin]; [simpl in H; now subst|].
  apply Hall in Hin. simpl in Hin. now subst.
Qed.

(** X2. After [add_node] every lookup succeeds, and when the ring held no
    entry of another server (the empty ring for one) every tuple is
    mapped to the added server. *)
Theorem add_node_lookup_succeeds (r : t) (id w : Z) (tuple : FiveTuple) :
  get_server (add_node id w r) tuple <> None /\
  ((forall e, In e (ring_ r) -> snd e = id) ->
   get_server (add_node id w r) tuple = Some id).
Proof.
  split; [apply add_node_nonempty_lookup|apply add_node_only_server].
Qed.

Lemma add_node_lookup_succeeds_witness :
  get_server (add_node 1 100 (create 150)) tuple_T = Some 1.
Proof.
  apply (proj2 (add_node_lookup_succeeds (create 150) 1 100 tuple_T)).
  intros e [].
Defined.

Lemma fold_assign_owns (id : Z) (keys : list Z) (m : std_map) (k : Z) :
  In k keys \/ In (k, id) m ->
  In (k, id) (fold_left (fun m k => map_assign k id m) keys m).
Proof.
  revert m. induction keys as [|k' keys IH]; intros m [Hk|Hm]; simpl.
  - contradiction.
  - exact Hm.
  - apply IH. destruct Hk as [->|Hk]; [right; apply map_assign_self|now left].
  - apply IH. right. now apply map_assign_same_value.
Qed.

(** X3. After [add_node id w] each of the [max(1, V*w/100)] positions
    hashed from "id#i" holds [id], whatever held the position before. *)
Theorem add_node_owns_replicas (r : t) (id w : Z) (i : nat) :
  Z.of_nat i < replica_count r w ->
  In (MurmurHash3.hash (node_key id (Z.of_nat i)) 0, id) (ring_ (add_node id w r)).
Proof.
  intros Hi. rewrite add_node_fold. apply fold_assign_owns. left.
  unfold replica_keys.
  apply (in_map (fun i => MurmurHash3.hash (node_key id (Z.of_nat i)) 0)).
  apply in_seq. lia.
Qed.

Lemma add_node_owns_replicas_witness :
  In (MurmurHash3.hash (node_key 2 (Z.of_nat 7)) 0, 2)
     (ring_ (add_node 2 100 (add_node 1 100 (create 150)))).
Proof.
  refine (add_node_owns_replicas (add_node 1 100 (create 150)) 2 100 7 _).
  vm_compute. reflexivity.
Defined.

Lemma filter_assign (id k : Z) (m : std_map) :
  (forall e, In e m -> fst e = k -> snd e = id) ->
  List.filter (fun e => negb (snd e =? id)) (map_assign k id m) =
  List.filter (fun e => negb (snd e =? id)) m.
Proof.
  induction m as [|e0 m IH]; intros Hown; simpl.
  - now rewrite Z.eqb_refl.
  - destruct (k <? fst e0); [simpl; now rewrite Z.eqb_refl|].
    destruct (k =? fst e0) eqn:Hk.
    + apply Z.eqb_eq in Hk. simpl. rewrite Z.eqb_refl. simpl.
      rewrite (Hown e0 (or_introl eq_refl) (eq_sym Hk)), Z.eqb_refl. reflexivity.
    + simpl. rewrite IH; [reflexivity|]. intros e Hin. apply Hown. now right.
Qed.

Lemma filter_fold_assign (id : Z) (keys : list Z) (m : std_map) :
  (forall e, In e m -> In (fst e) keys -> snd e = id) ->
  List.filter (fun e => negb (snd e =? id))
              (fold_left (fun m k => map_assign k id m) keys m) =
  List.filter (fun e => negb (snd e =? id)) m.
Proof.
  revert m. induction keys as [|k keys IH]; intros m Hown; simpl; [reflexivity|].
  rewrite IH.
  - apply filter_assign. intros e Hin Hk. apply Hown; [exact Hin|now left].
  - intros e Hin Hk. apply map_assign_in in Hin as [->|Hin]; [reflexivity|].
    apply Hown; [exact Hin|now right].
Qed.

Lemma filter_keeps_all {A : Type} (f : A -> bool) (l : list A) :
  (forall x, In x l -> f x = true) -> List.filter f l = l.
Proof.
  induction l as [|a l IH]; intros H; simpl; [reflexivity|].
  rewrite (H a (or_introl eq_refl)). f_equal. apply IH. intros x Hx. apply H. now right.
Qed.

(** X4. [remove_node] of a server the ring does not hold changes
    nothing, and it undoes [add_node] of a server whose positions were all
    free: the ring is back to what it was. *)
Theorem remove_node_undoes_add_node (r : t) (id w : Z) :
  fresh_for id w r = true ->
  remove_node id r = r /\ remove_node id (add_node id w r) = r.
Proof.
  intros Hfresh. unfold fresh_for in Hfresh. cbv zeta in Hfresh.
  rewrite forallb_forall in Hfresh.
  assert (List.filter (fun e => negb (snd e =? id)) (ring_ r) = ring_ r) as Hsame.
  { apply filter_keeps_all. intros e Hin.
    apply Hfresh in Hin. now apply andb_true_iff in Hin as [H _]. }
  split.
  - unfold remove_node. rewrite Hsame. now destruct r.
  - unfold remove_node. rewrite add_node_fold, filter_fold_assign.
    + rewrite Hsame. now destruct r.
    + intros e Hin Hk. exfalso.
      apply Hfresh in Hin. apply andb_true_iff in Hin as [_ Hkeys].
      rewrite forallb_forall in Hkeys. specialize (Hkeys _ Hk).
      now rewrite Z.eqb_refl in Hkeys.
Qed.

Lemma remove_node_undoes_add_node_witness :
  remove_node 2 (add_node 2 100 (add_node 1 100 (create 150))) =
  add_node 1 100 (create 150).
Proof.
  refine (proj2 (remove_node_undoes_add_node (add_node 1 100 (create 150)) 2 100 _)).
  vm_compute. reflexivity.
Defined.

End RingOperations.

(** ** real_server.h: the registry under add, remove and status changes *)

Section RegistryOperations.

Import RealServerManager.

(** X5. A backend added with status UP to a registry whose ring holds no
    other server is selected for every tuple, and [get_server] finds it
    under its id. *)
Theorem add_server_single_backend (m : t) (rs : RealServer) (tuple : FiveTuple) :
  (forall e, In e (ConsistentHashRing.ring_ (hash_ring_ m)) -> snd e = rs_id rs) ->
  rs_status rs = UP ->
  get_server (add_server rs m) (rs_id rs) = Some rs /\
  select_server (add_server rs m) tuple = Some rs.
Proof.
  intros Hring Hup.
  assert (get_server (add_server rs m) (rs_id rs) = Some rs) as Hget.
  { unfold get_server, add_server. simpl. apply lookup_insert_eq. }
  split; [exact Hget|].
  unfold select_server. unfold add_server at 1. simpl hash_ring_.
  rewrite (add_node_only_server _ _ _ tuple Hring).
  unfold get_server in Hget. rewrite Hget.
  unfold is_available. now rewrite Hup.
Qed.

Lemma add_server_single_backend_witness :
  get_server registry_1 1 = Some backend_1 /\
  select_server registry_1 tuple_T = Some backend_1.
Proof.
  refine (add_server_single_backend init backend_1 tuple_T _ _).
  - intros e [].
  - reflexivity.
Defined.

(** X6. After [remove_server id] the id is gone from the table and no
    tuple is dispatched to it: a selected backend is the table entry of
    another id. *)
Theorem remove_server_never_selected (m : t) (id : Z) (tuple : FiveTuple) :
  get_server (remove_server id m) id = None /\
  ConsistentHashRing.get_server (hash_ring_ (remove_server id m)) tuple <> Some id /\
  forall rs, select_server (remove_server id m) tuple = Some rs ->
             exists id', id' <> id /\ get_server m id' = Some rs.
Proof.
  assert (ConsistentHashRing.get_server
            (hash_ring_ (remove_server id m)) tuple <> Some id) as Hring.
  { intros H. apply get_server_in in H as [k Hin]. simpl in Hin.
    apply filter_In in Hin as [_ Hne]. simpl in Hne.
    now rewrite Z.eqb_refl in Hne. }
  split; [|split; [exact Hring|]].
  - unfold get_server, remove_server. simpl. apply lookup_delete_eq.
  - intros rs. unfold select_server.
    destruct (ConsistentHashRing.get_server (hash_ring_ (remove_server id m)) tuple)
      as [id'|] eqn:Hg; [|discriminate].
    assert (id' <> id) as Hne by congruence.
    unfold remove_server at 1. simpl servers_.
    rewrite lookup_delete_ne by congruence.
    destruct (servers_ m !! id') as [rs'|] eqn:Hl; [|discriminate].
    destruct (is_available rs'); [|discriminate].
    intros [= <-]. exists id'. split; [exact Hne|exact Hl].
Qed.

(** X7. Taking a backend DOWN and bringing it back UP gives back the
    selection there was: the ring is left alone, so a tuple that selected
    the backend selects it again. *)
Theorem set_status_down_then_up (m : t) (tuple : FiveTuple) (id : Z) (rs : RealServer) :
  ConsistentHashRing.get_server (hash_ring_ m) tuple = Some id ->
  select_server m tuple = Some rs ->
  select_server (set_status id DOWN m) tuple = None /\
  select_server (set_status id UP (set_status id DOWN m)) tuple = Some rs.
Proof.
  intros Hring Hsel. unfold select_server in Hsel. rewrite Hring in Hsel.
  destruct (servers_ m !! id) as [rs'|] eqn:Hl; [|discriminate].
  destruct (is_available rs') eqn:Hav; [|discriminate].
  injection Hsel as ->. apply is_available_UP in Hav.
  split.
  - unfold select_server. rewrite set_status_ring, Hring, set_status_lookup, Hl.
    reflexivity.
  - unfold select_server.
    rewrite !set_status_ring, Hring, !set_status_lookup, Hl. simpl.
    destruct rs. simpl in Hav. subst. reflexivity.
Qed.

Lemma set_status_down_then_up_witness :
  select_server (set_status 1 DOWN registry_1) tuple_T = None /\
  select_server (set_status 1 UP (set_status 1 DOWN registry_1)) tuple_T = Some backend_1.
Proof.
  refine (set_status_down_then_up registry_1 tuple_T 1 backend_1 _ _);
    vm_compute; reflexivity.
Defined.

(** X8. [set_status] touches one table entry only: on an id that is not
    in the table it changes nothing, and in every case the ring, the
    number of backends and the entries of the other ids stay as they are. *)
Theorem set_status_frame (m : t) (id : Z) (s : ServerStatus) :
  (get_server m id = None -> set_status id s m = m) /\
  hash_ring_ (set_status id s m) = hash_ring_ m /\
  size (servers_ (set_status id s m)) = size (servers_ m) /\
  forall id', id' <> id -> get_server (set_status id s m) id' = get_server m id'.
Proof.
  unfold get_server. split; [|split; [|split]].
  - intros H. unfold set_status. now rewrite H.
  - apply set_status_ring.
  - unfold set_status. destruct (servers_ m !! id) as [rs|] eqn:Hl; [|reflexivity].
    simpl. apply map_size_insert_Some. rewrite Hl. eauto.
  - intros id' Hne. unfold set_status.
    destruct (servers_ m !! id) as [rs|] eqn:Hl; [|reflexivity].
    simpl. apply lookup_insert_ne. congruence.
Qed.

Lemma set_status_frame_witness :
  set_status 7 DOWN registry_2 = registry_2 /\
  get_server (set_status 1 DOWN registry_2) 2 = Some backend_2.
Proof.
  split.
  - refine (proj1 (set_status_frame registry_2 7 DOWN) _). vm_compute. reflexivity.
  - rewrite (proj2 (proj2 (proj2 (set_status_frame registry_2 1 DOWN))) 2); [|lia].
    vm_compute. reflexivity.
Defined.

End RegistryOperations.

(** ** session.h: create, lookup, remove, cleanup *)

Section SessionOperations.

Import SessionManager.

Lemma tuple_eqb_key (a b : FiveTuple) :
  tuple_eqb a b = true <-> tuple_key a = tuple_key b.
Proof.
  unfold tuple_eqb, tuple_key. rewrite !andb_true_iff, !Z.eqb_eq.
  split; [intros ((((-> & ->) & ->) & ->) & ->); reflexivity|].
  intros [= -> -> -> -> ->]. auto.
Qed.

(** X9. A session created for a tuple is found by [lookup] through any
    tuple object equal to it under [operator==], whatever its padding:
    the copy returned carries the backend id and the creation time, with
    [last_active] set to the time of the lookup. *)
Theorem create_then_lookup (now now' : Z) (tuple tuple' : FiveTuple)
    (server_id : Z) (m : t) :
  tuple_eqb tuple tuple' = true ->
  exists s,
    fst (lookup now' tuple' (create now tuple server_id m)) = Some s /\
    real_server_id s = server_id /\ client_tuple s = tuple /\
    create_time s = now /\ last_active s = now' /\ packets s = 0 /\ bytes s = 0.
Proof.
  intros Heq. apply tuple_eqb_key in Heq.
  unfold lookup, create. simpl sessions_. rewrite <- Heq, lookup_insert_eq.
  eexists. split; [reflexivity|]. simpl. repeat split; reflexivity.
Qed.

Lemma create_then_lookup_witness :
  exists s,
    fst (lookup 7 tuple_b (create 5 tuple_a 3 init)) = Some s /\
    real_server_id s = 3 /\ client_tuple s = tuple_a /\
    create_time s = 5 /\ last_active s = 7 /\ packets s = 0 /\ bytes s = 0.
Proof.
  refine (create_then_lookup 5 7 tuple_a tuple_b 3 init _). reflexivity.
Defined.

(** X10. After [remove] a lookup of the tuple fails and the sessions of
    the other tuples are still there; [remove] of a tuple without a
    session changes nothing, the counters included. *)
Theorem remove_then_lookup (now : Z) (tuple : FiveTuple) (m : t) :
  fst (lookup now tuple (remove tuple m)) = None /\
  (forall other, tuple_eqb tuple other = false ->
     sessions_ (remove tuple m) !! tuple_key other = sessions_ m !! tuple_key other) /\
  (sessions_ m !! tuple_key tuple = None -> remove tuple m = m).
Proof.
  split; [|split].
  - unfold lookup, remove.
    destruct (sessions_ m !! tuple_key tuple) eqn:Hl; simpl.
    + now rewrite lookup_delete_eq.
    + now rewrite Hl.
  - intros other Hne. unfold remove.
    destruct (sessions_ m !! tuple_key tuple) eqn:Hl; simpl; [|reflexivity].
    apply lookup_delete_ne. intros Hk.
    apply tuple_eqb_key in Hk. congruence.
  - intros Hl. unfold remove. now rewrite Hl.
Qed.

Lemma remove_then_lookup_witness :
  sessions_ (remove tuple_c (create 5 tuple_a 3 init)) !! tuple_key tuple_a =
  sessions_ (create 5 tuple_a 3 init) !! tuple_key tuple_a.
Proof.
  refine (proj1 (proj2 (remove_then_lookup 0 tuple_c (create 5 tuple_a 3 init)))
            tuple_a _).
  reflexivity.
Defined.

(** X11. [cleanup] erases exactly the expired sessions: a session is in
    the table afterwards if and only if it was there and [is_expired] was
    false for it when the sweep read the clock at its entry.  The
    returned count is the number of sessions that went away. *)
Theorem cleanup_removes_exactly_expired (clock : Z * Z * Z * Z * Z -> Z) (m : t) :
  (forall key s,
     sessions_ (snd (cleanup clock m)) !! key = Some s <->
     sessions_ m !! key = Some s /\
     is_expired (clock key) (timeout_sec_ m) s = false) /\
  (Z.of_nat (size (sessions_ m)) < 2 ^ 64 ->
   fst (cleanup clock m) =
   Z.of_nat (size (sessions_ m)) - Z.of_nat (size (sessions_ (snd (cleanup clock m))))).
Proof.
  split.
  - intros key s. unfold cleanup. cbn [snd sessions_].
    rewrite map_lookup_filter_Some. cbn [fst snd].
    destruct (is_expired (clock key) (timeout_sec_ m) s); split;
      intros [H1 H2]; split; auto; congruence.
  - intros Hfit.
    pose (expired := fun e : (Z * Z * Z * Z * Z) * Session =>
                       is_expired (clock (fst e)) (timeout_sec_ m) (snd e) = true).
    pose proof (map_filter_union_complement expired (sessions_ m)) as Hu.
    pose proof (map_disjoint_filter_complement expired (sessions_ m)) as Hd.
    apply map_size_disj_union in Hd. rewrite Hu in Hd.
    unfold cleanup. cbn [fst snd sessions_].
    match goal with
    | |- Word.wrap64 (Z.of_nat (size ?gone)) = _ - Z.of_nat (size ?kept) =>
        assert (size (sessions_ m) = (size gone + size kept)%nat) as Hsz
          by exact Hd
    end.
    rewrite wrap64_small by lia. lia.
Qed.

Lemma cleanup_removes_exactly_expired_witness :
  fst (cleanup (fun _ => 2000000000) table_1s) =
  Z.of_nat (size (sessions_ table_1s)) -
  Z.of_nat (size (sessions_ (snd (cleanup (fun _ => 2000000000) table_1s)))).
Proof.
  refine (proj2 (cleanup_removes_exactly_expired (fun _ => 2000000000) table_1s) _).
  vm_compute. reflexivity.
Defined.

(** X12. [is_expired] on a 32-bit timeout and clock readings that have not
    wrapped: true exactly when more than [timeout_sec] * 10^9 ticks have
    passed since [last_active]; at exactly the timeout the session is kept. *)
Theorem is_expired_after_timeout (now timeout_sec : Z) (s : Session) :
  0 <= timeout_sec < 2 ^ 32 ->
  0 <= last_active s <= now -> now < 2 ^ 64 ->
  (is_expired now timeout_sec s = true <->
   timeout_sec * 1000000000 < now - last_active s).
Proof.
  intros Ht Hl Hn. unfold is_expired.
  change (2 ^ 32) with 4294967296 in Ht.
  change (2 ^ 64) with 18446744073709551616 in Hn.
  rewrite !wrap64_small
    by (change (2 ^ 64) with 18446744073709551616; lia).
  apply Z.ltb_lt.
Qed.

Lemma is_expired_after_timeout_witness :
  is_expired 2000000000 1 (mkSession tuple_T tuple_T 1 0 0 0 0) = true <->
  1 * 1000000000 < 2000000000 - 0.
Proof.
  refine (is_expired_after_timeout 2000000000 1
            (mkSession tuple_T tuple_T 1 0 0 0 0) _ _ _); simpl; lia.
Defined.

Lemma step_total (m : t) (o : op) :
  total_sessions (stats_ (step m o)) =
  if is_create o then Word.wrap64 (total_sessions (stats_ m) + 1)
  else total_sessions (stats_ m).
Proof.
  destruct o as [now tuple id|now tuple|now tuple n|tuple|clock]; simpl;
    try reflexivity.
  - unfold lookup. now destruct (sessions_ m !! tuple_key tuple).
  - unfold update_stats. now destruct (sessions_ m !! tuple_key tuple).
  - unfold remove. now destruct (sessions_ m !! tuple_key tuple).
Qed.

Lemma fold_step_total (ops : list op) (m : t) :
  0 <= total_sessions (stats_ m) < 2 ^ 64 ->
  total_sessions (stats_ (fold_left step ops m)) =
  Word.wrap64 (total_sessions (stats_ m) + creates ops).
Proof.
  revert m. induction ops as [|o ops IH]; intros m Hr.
  - unfold creates. simpl. rewrite Z.add_0_r. symmetry. now apply wrap64_small.
  - cbn [fold_left]. rewrite IH.
    + rewrite step_total. unfold creates. cbn [List.filter].
      destruct (is_create o); [|reflexivity].
      cbn [length]. rewrite Nat2Z.inj_succ.
      unfold Word.wrap64. rewrite Zplus_mod_idemp_l. f_equal. lia.
    + rewrite step_total. destruct (is_create o); [|exact Hr].
      unfold Word.wrap64. apply Z.mod_pos_bound. lia.
Qed.

(** X13. [total_sessions] counts the calls of [create]: after any
    sequence of calls on a fresh table it is their number (modulo 2^64),
    whatever was looked up, removed or swept in between. *)
Theorem total_sessions_counts_creates (ops : list op) :
  total_sessions (get_stats (run ops)) = Word.wrap64 (creates ops).
Proof.
  unfold run, get_stats. rewrite fold_step_total; [reflexivity|].
  simpl. lia.
Qed.

Lemma step_keeps_active_count_witness :
  active_sessions (stats_ (step table_1s (OpCleanup (fun _ => 2000000000)))) =
  Z.of_nat (size (sessions_ (step table_1s (OpCleanup (fun _ => 2000000000))))).
Proof.
  refine (step_keeps_active_count table_1s (OpCleanup (fun _ => 2000000000)) _ _ _).
  - vm_compute. reflexivity.
  - vm_compute. reflexivity.
  - intros now tuple id H. discriminate H.
Defined.

Lemma step_leaves_flow (tuple : FiveTuple) (m : t) (o : op) (s : Session) :
  sessions_ m !! tuple_key tuple = Some s ->
  leaves_flow tuple o = true ->
  exists s', sessions_ (step m o) !! tuple_key tuple = Some s' /\
             real_server_id s' = real_server_id s /\
             create_time s' = create_time s.
Proof.
  intros Hl Hflow.
  destruct o as [now other id|now other|now other n|other|clock]; simpl in *.
  - apply negb_true_iff in Hflow.
    exists s. rewrite lookup_insert_ne; [auto|].
    intros Hk. symmetry in Hk. apply tuple_eqb_key in Hk. congruence.
  - unfold lookup. destruct (sessions_ m !! tuple_key other) as [so|] eqn:Ho;
      simpl; [|eauto].
    destruct (decide (tuple_key other = tuple_key tuple)) as [Hk|Hk].
    + rewrite Hk in *. rewrite lookup_insert_eq.
      assert (so = s) as -> by congruence. eexists. split; [reflexivity|]. auto.
    + rewrite lookup_insert_ne by exact Hk. eauto.
  - unfold update_stats. destruct (sessions_ m !! tuple_key other) as [so|] eqn:Ho;
      simpl; [|eauto].
    destruct (decide (tuple_key other = tuple_key tuple)) as [Hk|Hk].
    + rewrite Hk in *. rewrite lookup_insert_eq.
      assert (so = s) as -> by congruence. eexists. split; [reflexivity|]. auto.
    + rewrite lookup_insert_ne by exact Hk. eauto.
  - apply negb_true_iff in Hflow. unfold remove.
    destruct (sessions_ m !! tuple_key other) as [so|] eqn:Ho; simpl; [|eauto].
    exists s. rewrite lookup_delete_ne; [auto|].
    intros Hk. symmetry in Hk. apply tuple_eqb_key in Hk. congruence.
  - discriminate.
Qed.

(** X15. Session affinity: once a tuple has a session, a lookup returns
    the same backend id after any calls that do not create or remove a
    session for that tuple and do not sweep: lookups and statistics
    updates of any flow, and creation and removal of other flows. *)
Theorem session_keeps_backend (now : Z) (tuple : FiveTuple) (ops : list op)
    (m : t) (s : Session) :
  sessions_ m !! tuple_key tuple = Some s ->
  forallb (leaves_flow tuple) ops = true ->
  exists s', fst (lookup now tuple (fold_left step ops m)) = Some s' /\
             real_server_id s' = real_server_id s.
Proof.
  intros Hl Hops.
  assert (exists s1, sessions_ (fold_left step ops m) !! tuple_key tuple = Some s1 /\
                     real_server_id s1 = real_server_id s) as (s1 & Hs1 & Hid).
  { revert m s Hl. induction ops as [|o ops IH]; intros m s Hl; [simpl; eauto|].
    simpl in Hops. apply andb_true_iff in Hops as [Ho Hops].
    destruct (step_leaves_flow tuple m o s Hl Ho) as (s' & Hl' & Hid' & _).
    destruct (IH Hops (step m o) s' Hl') as (s1 & Hs1 & Hid1).
    exists s1. split; [exact Hs1|congruence]. }
  unfold lookup. rewrite Hs1. simpl. eexists. split; [reflexivity|]. exact Hid.
Qed.

Lemma session_keeps_backend_witness :
  exists s', fst (lookup 9 tuple_a
                    (fold_left step
                       [OpUpdateStats 6 tuple_a 100; OpCreate 7 tuple_c 2;
                        OpLookup 8 tuple_b; OpRemove tuple_c]
                       (create 5 tuple_a 3 init))) = Some s' /\
             real_server_id s' = 3.
Proof.
  refine (session_keeps_backend 9 tuple_a _ (create 5 tuple_a 3 init)
            (mkSession tuple_a (mkFiveTuple 0 0 0 0 0 (0, 0, 0)) 3 5 5 0 0) _ _);
    reflexivity.
Defined.

(** X27. [reverse] exchanges the two endpoints: applied twice it gives
    a tuple equal to the first under [operator==], so the session of a
    flow is found through it; applied once it gives an equal tuple only
    when both addresses and both ports coincide, and otherwise the
    session created for a flow is not found under the reversed tuple
    unless the table held one for it. *)
Theorem reverse_is_other_direction (p p' : Z * Z * Z) (now now' : Z)
    (tuple : FiveTuple) (server_id : Z) (m : t) :
  tuple_eqb (reverse p' (reverse p tuple)) tuple = true /\
  (tuple_eqb (reverse p tuple) tuple = true <->
   src_ip tuple = dst_ip tuple /\ src_port tuple = dst_port tuple) /\
  fst (lookup now' (reverse p' (reverse p tuple))
         (create now tuple server_id m)) <> None /\
  (tuple_eqb (reverse p tuple) tuple = false ->
   sessions_ m !! tuple_key (reverse p tuple) = None ->
   fst (lookup now' (reverse p tuple) (create now tuple server_id m)) = None).
Proof.
  assert (tuple_eqb (reverse p' (reverse p tuple)) tuple = true) as Htwice.
  { unfold tuple_eqb, reverse. cbn [src_ip dst_ip src_port dst_port protocol].
    now rewrite !Z.eqb_refl. }
  split; [exact Htwice|]. split; [|split].
  - unfold tuple_eqb, reverse. cbn [src_ip dst_ip src_port dst_port protocol].
    rewrite !andb_true_iff, !Z.eqb_eq. intuition congruence.
  - apply tuple_eqb_key in Htwice.
    unfold lookup, create. cbn [sessions_]. rewrite Htwice, lookup_insert_eq.
    discriminate.
  - intros Hne Hnone. unfold lookup, create. cbn [sessions_].
    rewrite lookup_insert_ne, Hnone; [reflexivity|].
    intros Hk. symmetry in Hk. apply tuple_eqb_key in Hk. congruence.
Qed.

End SessionOperations.

(** ** ethernet.h and ip.h: header fields and the header checksum *)

Section HeaderOperations.

Import IpChecksum.

Lemma ntohs_bytes_add (b0 b1 : Z) :
  is_byte b1 -> Word.ntohs_bytes b0 b1 = 256 * b0 + b1.
Proof.
  intros Hb. unfold Word.ntohs_bytes. rewrite Z.lor_comm.
  fold (Word.load16 b1 b0). rewrite load16_add by exact Hb. lia.
Qed.

(** [ntohs] of the stored [htons] of a 16-bit value is the value. *)
Lemma ntohs_htons (x : Z) :
  0 <= x < 65536 ->
  Word.ntohs_bytes (Z.land (Word.htons x) 255)
                   (Z.land (Z.shiftr (Word.htons x) 8) 255) = x.
Proof.
  intros Hx.
  assert (Word.htons x = 256 * (x mod 256) + x / 256) as ->.
  { unfold Word.htons. rewrite !land_255, shiftr_8.
    fold (Word.ntohs_bytes (x mod 256) ((x / 256) mod 256)).
    rewrite ntohs_bytes_add by (unfold is_byte; apply Z.mod_pos_bound; lia).
    rewrite (Z.mod_small (x / 256)); [reflexivity|].
    split; [apply Z.div_pos; lia|apply Z.div_lt_upper_bound; lia]. }
  rewrite !land_255, shiftr_8.
  rewrite ntohs_bytes_add by (unfold is_byte; apply Z.mod_pos_bound; lia).
  pose proof (Z.mod_pos_bound x 256).
  assert (0 <= x / 256 < 256)
    by (split; [apply Z.div_pos; lia|apply Z.div_lt_upper_bound; lia]).
  replace ((256 * (x mod 256) + x / 256) / 256) with (x mod 256)
    by (apply (Z.div_unique_pos _ _ _ (x / 256)); lia).
  replace ((256 * (x mod 256) + x / 256) mod 256) with (x / 256)
    by (apply (Z.mod_unique_pos _ _ (x mod 256)); lia).
  rewrite (Z.mod_small (x mod 256)) by lia.
  pose proof (Z.div_mod x 256). lia.
Qed.

(** Case analysis on the first bytes of a buffer that is long enough. *)
(** X16. [set_ether_type] then [get_ether_type] gives the type back
    (the byte order conversions cancel), the parser reads the same type,
    and the MAC addresses and everything behind the header are untouched. *)
Theorem set_then_get_ether_type (type : Z) (eth : list Z) :
  0 <= type < 65536 ->
  (14 <= length eth)%nat ->
  EthernetHeader.get_ether_type (EthernetHeader.set_ether_type type eth) = type /\
  ProtocolParser.get_ether_type (EthernetHeader.set_ether_type type eth) = type /\
  EthernetHeader.get_dst_mac (EthernetHeader.set_ether_type type eth) =
    EthernetHeader.get_dst_mac eth /\
  EthernetHeader.get_src_mac (EthernetHeader.set_ether_type type eth) =
    EthernetHeader.get_src_mac eth /\
  skipn 14 (EthernetHeader.set_ether_type type eth) = skipn 14 eth.
Proof.
  intros Hty Hlen.
  change (ProtocolParser.get_ether_type (EthernetHeader.set_ether_type type eth))
    with (EthernetHeader.get_ether_type (EthernetHeader.set_ether_type type eth)).
  do 14 (destruct eth as [|? eth]; [simpl in Hlen; lia|]).
  unfold EthernetHeader.get_ether_type, ProtocolParser.get_ether_type,
    EthernetHeader.set_ether_type, EthernetHeader.get_dst_mac,
    EthernetHeader.get_src_mac, Word.store, Word.bytes16, Word.byte_at.
  cbn [firstn skipn app nth length Nat.add Z.to_nat Pos.to_nat Pos.iter_op].
  rewrite (ntohs_htons type Hty). repeat split; reflexivity.
Qed.

Lemma set_then_get_ether_type_witness :
  ProtocolParser.get_ether_type (EthernetHeader.set_ether_type 0x0800 frame_test) = 0x0800.
Proof.
  refine (proj1 (proj2 (set_then_get_ether_type 0x0800 frame_test _ _)));
    [lia|simpl; lia].
Defined.

(** X17. [set_src_port] then [get_src_port] gives the port back and
    leaves the destination port alone, and the other way round. *)
Theorem tcp_set_then_get_port (p : Z) (tcp : list Z) :
  0 <= p < 65536 ->
  (4 <= length tcp)%nat ->
  TcpHeader.get_src_port (TcpHeader.set_src_port p tcp) = p /\
  TcpHeader.get_dst_port (TcpHeader.set_src_port p tcp) = TcpHeader.get_dst_port tcp /\
  TcpHeader.get_dst_port (TcpHeader.set_dst_port p tcp) = p /\
  TcpHeader.get_src_port (TcpHeader.set_dst_port p tcp) = TcpHeader.get_src_port tcp /\
  skipn 4 (TcpHeader.set_src_port p tcp) = skipn 4 tcp /\
  skipn 4 (TcpHeader.set_dst_port p tcp) = skipn 4 tcp.
Proof.
  intros Hp Hlen.
  do 4 (destruct tcp as [|? tcp]; [simpl in Hlen; lia|]).
  unfold TcpHeader.get_src_port, TcpHeader.get_dst_port, TcpHeader.set_src_port,
    TcpHeader.set_dst_port, Word.store, Word.bytes16.
  cbn [firstn skipn app nth length Nat.add].
  rewrite (ntohs_htons p Hp). repeat split; reflexivity.
Qed.

Lemma tcp_set_then_get_port_witness :
  TcpHeader.get_src_port (TcpHeader.set_src_port 12345 [0; 0; 0; 80; 9]) = 12345.
Proof.
  refine (proj1 (tcp_set_then_get_port 12345 [0; 0; 0; 80; 9] _ _));
    [lia|simpl; lia].
Defined.

(** X18. [swap_mac] exchanges the two MAC addresses and nothing else, and
    applied twice it gives the frame back. *)
Theorem swap_mac_exchanges (eth : list Z) :
  (12 <= length eth)%nat ->
  EthernetHeader.get_dst_mac (EthernetHeader.swap_mac eth) = EthernetHeader.get_src_mac eth /\
  EthernetHeader.get_src_mac (EthernetHeader.swap_mac eth) = EthernetHeader.get_dst_mac eth /\
  skipn 12 (EthernetHeader.swap_mac eth) = skipn 12 eth /\
  EthernetHeader.swap_mac (EthernetHeader.swap_mac eth) = eth.
Proof.
  intros Hlen.
  do 12 (destruct eth as [|? eth]; [simpl in Hlen; lia|]).
  repeat split; reflexivity.
Qed.

Lemma swap_mac_exchanges_witness :
  EthernetHeader.get_dst_mac (EthernetHeader.swap_mac frame_test) =
  [0xAA; 0xBB; 0xCC; 0xDD; 0xEE; 0xFF].
Proof.
  refine (proj1 (swap_mac_exchanges frame_test _)). simpl. lia.
Defined.

Lemma calculate_by_wsum (a b : list Z) : wsum a = wsum b -> calculate a = calculate b.
Proof.
  intros H. unfold calculate.
  change 0 with (Word.wrap32 0). now rewrite !sum_words_wsum, H.
Qed.

(** X19. [swap_ip] exchanges source and destination address, and the
    header checksum computed over any length that covers both fields is
    the same before and after: the sum does not depend on the order of
    the words. *)
Theorem swap_ip_keeps_checksum (ip : list Z) (n : nat) :
  (20 <= n)%nat -> (n <= length ip)%nat ->
  IPv4Header.src_ip_bytes (IPv4Header.swap_ip ip) = IPv4Header.dst_ip_bytes ip /\
  IPv4Header.dst_ip_bytes (IPv4Header.swap_ip ip) = IPv4Header.src_ip_bytes ip /\
  firstn 12 (IPv4Header.swap_ip ip) = firstn 12 ip /\
  skipn 20 (IPv4Header.swap_ip ip) = skipn 20 ip /\
  calculate (firstn n (IPv4Header.swap_ip ip)) = calculate (firstn n ip).
Proof.
  intros Hn Hlen.
  assert (20 <= length ip)%nat as H20 by lia.
  do 20 (destruct ip as [|? ip]; [simpl in H20; lia|]).
  do 20 (destruct n as [|n]; [lia|]).
  repeat split; try reflexivity.
  apply calculate_by_wsum.
  cbv [IPv4Header.swap_ip IPv4Header.src_ip_bytes IPv4Header.dst_ip_bytes
       Word.store firstn skipn app length Nat.add].
  cbn [wsum]. lia.
Qed.

Lemma swap_ip_keeps_checksum_witness :
  calculate (firstn 20 (IPv4Header.swap_ip packet_test)) =
  calculate (firstn 20 packet_test).
Proof.
  refine (proj2 (proj2 (proj2 (proj2
            (swap_ip_keeps_checksum packet_test 20 _ _))))); simpl; lia.
Defined.

Lemma calculate_range (h : list Z) : 0 <= calculate h < 65536.
Proof. unfold calculate, Word.wrap16. apply Z.mod_pos_bound. lia. Qed.

(** X20. After [IpChecksum::update] the header verifies: [calculate] over
    the header, checksum field included, is 0.  The header length read
    from the first byte must cover the checksum field (ihl >= 3) and lie
    inside the buffer; the bytes outside the field are not changed. *)
Theorem update_then_verifies (ip : list Z) :
  Forall is_byte ip ->
  12 <= ip_get_header_len ip ->
  ip_get_header_len ip <= Z.of_nat (length ip) ->
  calculate (firstn (Z.to_nat (ip_get_header_len (update ip))) (update ip)) = 0 /\
  firstn 10 (update ip) = firstn 10 ip /\
  skipn 12 (update ip) = skipn 12 ip.
Proof.
  intros Hb Hmin Hmax.
  assert (12 <= length ip)%nat as H12 by lia.
  destruct ip as [|b0 ip]; [simpl in H12; lia|].
  do 11 (destruct ip as [|? ip]; [simpl in H12; lia|]).
  unfold ip_get_header_len in *. cbn [nth] in Hmin, Hmax.
  pose proof (land_15_range b0) as Hihl.
  set (hl := Z.land b0 15 * 4) in *.
  assert (Z.to_nat hl <= 60)%nat as H60 by lia.
  assert (12 <= Z.to_nat hl)%nat as Hn by lia.
  assert (Z.to_nat hl <= length (b0 :: z :: z0 :: z1 :: z2 :: z3 :: z4 :: z5 ::
                                   z6 :: z7 :: z8 :: z9 :: ip))%nat as Hn' by lia.
  unfold update, set_field, ip_get_header_len.
  cbv [firstn skipn app Nat.mul Nat.add Word.bytes16 nth].
  change (Z.land 0 255) with 0. change (Z.land (Z.shiftr 0 8) 255) with 0.
  fold hl.
  generalize dependent (Z.to_nat hl). intros n H60 Hn Hn'.
  do 12 (destruct n as [|n]; [lia|]).
  cbv [firstn]. fold (@firstn Z).
  set (tail := firstn n ip).
  set (hdr0 := b0 :: z :: z0 :: z1 :: z2 :: z3 :: z4 :: z5 :: z6 :: z7 :: 0 :: 0 :: tail).
  split; [|split; reflexivity].
  set (c := calculate hdr0).
  pose proof (calculate_range hdr0) as Hc. fold c in Hc.
  (* the bytes of the header *)
  repeat match goal with
         | H : Forall is_byte (_ :: _) |- _ =>
             let Hx := fresh "Hx" in
             apply Forall_cons_iff in H as [Hx H]
         end.
  assert (Forall is_byte tail) as Htail by (unfold tail; now apply Forall_take).
  assert (is_byte 0) as Hzero by (unfold is_byte; lia).
  assert (Forall is_byte hdr0) as Hb0
    by (unfold hdr0; repeat (apply List.Forall_cons; [assumption|]); exact Htail).
  assert (length tail <= 48)%nat as Hlt.
  { unfold tail. rewrite length_firstn. apply Nat.le_trans with n; [apply Nat.le_min_l|lia]. }
  pose proof (wsum_bounds tail Htail) as Htb.
  pose proof (wsum_bounds hdr0 Hb0) as Hs0.
  assert (length hdr0 = 12 + length tail)%nat as Hl0 by reflexivity.
  assert ((Z.of_nat (length hdr0) + 1) / 2 < 31)
    by (apply Z.div_lt_upper_bound; lia).
  assert (0 <= wsum hdr0 < 2 ^ 32) as Hr0
    by (change (2 ^ 32) with 4294967296; lia).
  (* the sums before and after the store *)
  assert (wsum (b0 :: z :: z0 :: z1 :: z2 :: z3 :: z4 :: z5 :: z6 :: z7
                 :: Z.land c 255 :: Z.land (Z.shiftr c 8) 255 :: tail)
          = wsum hdr0 + c) as Hsum.
  { unfold hdr0. cbn [wsum]. rewrite (load16_bytes16 c Hc).
    change (Word.load16 0 0) with 0. lia. }
  assert (c = 65535 - fold16 (wsum hdr0)) as Hcval
    by (unfold c; now apply calculate_wsum).
  pose proof (fold16_range _ Hr0) as HF.
  assert (0 <= wsum hdr0 + c < 2 ^ 32) as Hr1
    by (change (2 ^ 32) with 4294967296; lia).
  rewrite calculate_wsum by (rewrite Hsum; exact Hr1).
  rewrite Hsum, (fold16_closed _ Hr1).
  assert (1 <= wsum hdr0 + c) as Hpos.
  { rewrite Hcval, (fold16_closed _ Hr0).
    destruct (wsum hdr0 =? 0) eqn:Hz; [apply Z.eqb_eq in Hz; lia|].
    pose proof (Z.mod_pos_bound (wsum hdr0 - 1) 65535). lia. }
  destruct (wsum hdr0 + c =? 0) eqn:Hz; [apply Z.eqb_eq in Hz; lia|].
  rewrite Hcval, (fold16_closed _ Hr0).
  destruct (wsum hdr0 =? 0) eqn:Hz0.
  - apply Z.eqb_eq in Hz0. rewrite Hz0. reflexivity.
  - apply Z.eqb_neq in Hz0. Z.div_mod_to_equations. lia.
Qed.

Lemma update_then_verifies_witness :
  calculate (firstn (Z.to_nat (ip_get_header_len (update packet_test)))
                    (update packet_test)) = 0.
Proof.
  refine (proj1 (update_then_verifies packet_test _ _ _)).
  - unfold packet_test, header_test, is_byte. repeat constructor; lia.
  - vm_compute. discriminate.
  - vm_compute. discriminate.
Defined.

End HeaderOperations.

(** ** ip.h: what the parser reports for a frame that fits *)

Section ParserOperations.

Import PacketMeta ProtocolParser.

(** X21. On an IPv4 frame below 64 KiB whose declared header lengths
    fit, [total_len] is the frame length and [payload_len] is what is left
    after [payload_offset]; for TCP and UDP with a complete header the
    payload starts after the declared TCP header, or after the 8-byte UDP
    header, and the ports are the two 16-bit fields as stored. *)
Theorem parse_payload_accounting (pkt : list Z) (meta : PacketMeta.t) :
  34 <= Z.of_nat (length pkt) < 65536 ->
  is_ipv4 pkt = true ->
  declared_lengths_fit pkt = true ->
  let len := Z.of_nat (length pkt) in
  let l4 := 14 + ip_header_len pkt 14 in
  let m := snd (parse pkt meta) in
  total_len m = len /\
  payload_offset m + payload_len m = len /\
  0 <= payload_len m /\
  (ip_proto pkt 14 = 6 -> l4 + 20 <= len ->
     payload_offset m = l4 + tcp_header_len pkt l4 /\
     src_port m = load16_at pkt l4 /\ dst_port m = load16_at pkt (l4 + 2)) /\
  (ip_proto pkt 14 = 17 -> l4 + 8 <= len ->
     payload_offset m = l4 + 8 /\
     src_port m = load16_at pkt l4 /\ dst_port m = load16_at pkt (l4 + 2)).
Proof.
  intros Hlen Hv4 Hfit len l4 m. unfold declared_lengths_fit in Hfit.
  subst m. unfold parse. fold len in Hlen, Hfit |- *.
  unfold HEADER_SIZE, sizeof_IPv4Header, sizeof_TcpHeader, sizeof_UdpHeader,
    IPProtocol_TCP, IPProtocol_UDP in *.
  fold l4 in Hfit.
  destruct (len <? 14) eqn:H14; [apply Z.ltb_lt in H14; lia|].
  rewrite Hv4. cbn [negb].
  change (l3_offset (set_l2 pkt meta)) with 14.
  destruct (len <? 14 + 20) eqn:H34; [apply Z.ltb_lt in H34; lia|].
  cbn [set_l3 set_l2 l4_offset ip_protocol l3_offset].
  change (Word.wrap16 ProtocolParser.HEADER_SIZE) with 14.
  pose proof (ip_header_len_range pkt 14) as Hihl.
  fold l4. rewrite (wrap16_small l4) by (unfold l4; lia).
  pose proof (tcp_header_len_range pkt l4) as Htcp.
  apply andb_true_iff in Hfit as [Hl4 Hfit]. apply Z.leb_le in Hl4.
  destruct ((ip_proto pkt 14 =? 6) && (l4 + 20 <=? len)) eqn:Htcpb;
    [|destruct ((ip_proto pkt 14 =? 17) && (l4 + 8 <=? len)) eqn:Hudpb];
    cbn [fst snd set_l4 set_l3 set_l2 src_port dst_port
         l2_offset l3_offset l4_offset payload_offset total_len payload_len];
    rewrite ?(wrap16_small len) by lia;
    repeat match goal with
           | H : (_ && _) = true |- _ => apply andb_true_iff in H as [? ?]
           | H : (_ && _) = false |- _ => apply andb_false_iff in H as [H|H]
           | H : (_ =? _) = true |- _ => apply Z.eqb_eq in H
           | H : (_ =? _) = false |- _ => apply Z.eqb_neq in H
           | H : (_ <=? _) = true |- _ => apply Z.leb_le in H
           | H : (_ <=? _) = false |- _ => apply Z.leb_gt in H
           end;
    unfold l4 in *;
    rewrite ?(wrap16_small (14 + ip_header_len pkt 14 + _)) by lia;
    rewrite ?(wrap16_small (14 + ip_header_len pkt 14)) by lia;
    rewrite ?wrap16_small by lia;
    repeat split; intros; try reflexivity; lia.
Qed.

Lemma parse_payload_accounting_witness :
  total_len (snd (parse frame_tcp meta_0)) = 58 /\
  payload_offset (snd (parse frame_tcp meta_0)) +
  payload_len (snd (parse frame_tcp meta_0)) = 58.
Proof.
  assert (34 <= Z.of_nat (length frame_tcp) < 65536) as H1 by (simpl; lia).
  pose proof (parse_payload_accounting frame_tcp meta_0 H1 eq_refl eq_refl) as H.
  exact (conj (proj1 H) (proj1 (proj2 H))).
Defined.

End ParserOperations.

(** ** ring_buffer.h: the observers of the SPSC buffer and batches *)

Section SPSCOperations.

Import SPSCRingBuffer.

Context {T : Type} (d : T) (k : nat) (Hk : (1 <= k)%nat).

Lemma run_wf (ops : list op) : wf k (snd (run d k ops (init d k))).
Proof. exact (proj1 (run_fifo d k Hk ops (init d k) (init_wf d k Hk))). Qed.

Lemma size_range (q : @t T) : wf k q -> 0 <= size k q <= Size k - 1.
Proof.
  intros Hwf. pose proof Hwf as (Hh & Ht & _).
  rewrite (size_cases k Hk q Hwf). destruct (head_ q <=? tail_ q) eqn:H;
    [apply Z.leb_le in H|apply Z.leb_gt in H]; lia.
Qed.

Lemma pending_length (q : @t T) :
  wf k q -> Z.of_nat (length (pending d k q)) = size k q.
Proof.
  intros Hwf. pose proof (size_range q Hwf).
  unfold pending. rewrite length_map, length_seq. lia.
Qed.

Lemma empty_size (q : @t T) : wf k q -> (empty q = true <-> size k q = 0).
Proof.
  intros Hwf. pose proof Hwf as (Hh & Ht & _). unfold empty.
  rewrite (size_cases k Hk q Hwf), Z.eqb_eq.
  destruct (head_ q <=? tail_ q) eqn:H;
    [apply Z.leb_le in H|apply Z.leb_gt in H]; lia.
Qed.

Lemma full_size (q : @t T) : wf k q -> (full k q = true <-> size k q = Size k - 1).
Proof.
  intros Hwf. pose proof Hwf as (Hh & Ht & _). pose proof (Size_ge_2 k Hk).
  unfold full. rewrite (mask_mod k), (mod_once k Hk) by lia.
  rewrite (size_cases k Hk q Hwf), Z.eqb_eq.
  destruct (tail_ q + 1 <? Size k) eqn:H1;
    [apply Z.ltb_lt in H1|apply Z.ltb_ge in H1];
    destruct (head_ q <=? tail_ q) eqn:H2;
    [apply Z.leb_le in H2|apply Z.leb_gt in H2
    |apply Z.leb_le in H2|apply Z.leb_gt in H2]; lia.
Qed.

(** X22. In every state a sequential run reaches, [size()] is the number
    of pending items and never exceeds [capacity() = Size - 1]; [empty()]
    holds exactly when nothing is pending and [full()] exactly when
    [capacity()] items are. *)
Theorem spsc_observers (ops : list op) :
  let q := snd (run d k ops (init d k)) in
  size k q = Z.of_nat (length (pending d k q)) /\
  0 <= size k q <= capacity k /\
  (empty q = true <-> pending d k q = []) /\
  (full k q = true <-> size k q = capacity k).
Proof.
  intros q. pose proof (run_wf ops) as Hwf. fold q in Hwf.
  pose proof (pending_length q Hwf) as Hlen.
  split; [lia|]. split; [apply (size_range q Hwf)|]. split.
  - rewrite (empty_size q Hwf). split; intros H.
    + destruct (pending d k q); [reflexivity|]. simpl in Hlen. lia.
    + rewrite H in Hlen. simpl in Hlen. lia.
  - apply (full_size q Hwf).
Qed.

Lemma peek_pending (q : @t T) : wf k q -> peek d q = hd_error (pending d k q).
Proof.
  intros Hwf. pose proof Hwf as (Hh & Ht & _). pose proof (size_range q Hwf) as Hr.
  unfold peek. destruct (head_ q =? tail_ q) eqn:He.
  - assert (size k q = 0) as Hz by (apply (empty_size q Hwf); exact He).
    unfold pending. rewrite Hz. reflexivity.
  - assert (size k q <> 0) as Hnz.
    { intros Hz. apply (empty_size q Hwf) in Hz. unfold empty in Hz. congruence. }
    unfold pending. destruct (Z.to_nat (size k q)) eqn:Hn; [lia|].
    cbn [seq map hd_error]. rewrite Z.add_0_r, Z.mod_small by lia. reflexivity.
Qed.

(** X23. [peek] returns the oldest pending item, the one the next [pop]
    returns, and nothing when the buffer is empty. *)
Theorem spsc_peek_is_next_pop (ops : list op) :
  let q := snd (run d k ops (init d k)) in
  peek d q = hd_error (pending d k q) /\ peek d q = fst (pop d k q).
Proof.
  intros q. split; [apply peek_pending, run_wf|].
  unfold peek, pop. now destruct (head_ q =? tail_ q).
Qed.

(** X24. A push is accepted exactly when fewer than [capacity()] items are
    pending, and then the item is appended and [size()] grows by one; a
    pop returns an item exactly when something is pending, and then
    [size()] shrinks by one. *)
Theorem spsc_push_pop_sizes (ops : list op) (x : T) :
  let q := snd (run d k ops (init d k)) in
  (fst (push k x q) = true <-> size k q < capacity k) /\
  (fst (push k x q) = true ->
     pending d k (snd (push k x q)) = pending d k q ++ [x] /\
     size k (snd (push k x q)) = size k q + 1) /\
  (fst (pop d k q) <> None <-> 0 < size k q) /\
  (fst (pop d k q) <> None -> size k (snd (pop d k q)) = size k q - 1).
Proof.
  intros q. pose proof (run_wf ops) as Hwf. fold q in Hwf.
  pose proof (size_range q Hwf) as Hr. unfold capacity.
  pose proof (push_full k Hk x q Hwf) as Hfull.
  destruct (push k x q) as [ok q'] eqn:Hpush.
  destruct (pop d k q) as [r q''] eqn:Hpop. cbn [fst snd].
  assert (ok = true -> pending d k q' = pending d k q ++ [x] /\
                       size k q' = size k q + 1) as Hok.
  { intros ->. destruct (push_ok d k Hk x q q' Hwf Hpush) as [Hwf' Hp].
    split; [exact Hp|].
    rewrite <- (pending_length q' Hwf'), <- (pending_length q Hwf), Hp.
    rewrite length_app. simpl. lia. }
  assert (r <> None -> size k q'' = size k q - 1 /\ 0 < size k q) as Hsome.
  { destruct r as [y|]; [intros _|congruence].
    destruct (pop_some d k Hk y q q'' Hwf Hpop) as [Hwf' Hp].
    pose proof (size_range q'' Hwf').
    rewrite <- (pending_length q'' Hwf'), <- (pending_length q Hwf), Hp.
    simpl. lia. }
  split; [|split; [exact Hok|split]].
  - split.
    + intros ->. destruct (Hok eq_refl) as [_ Hs].
      destruct (Z.eq_dec (size k q) (Size k - 1)) as [He|Hne]; [|lia].
      apply (proj1 Hfull) in He. discriminate He.
    + intros Hlt. destruct ok; [reflexivity|].
      assert (q' = q) as ->.
      { unfold push in Hpush.
        destruct (Z.land (tail_ q + 1) (Size k - 1) =? head_ q); congruence. }
      pose proof (proj2 Hfull eq_refl). lia.
  - split; [intros H; apply Hsome in H; lia|].
    intros Hpos Hnone. subst r.
    destruct (pop_none d k Hk q q'' Hwf Hpop) as [_ Hp].
    pose proof (pending_length q Hwf) as Hl. rewrite Hp in Hl. simpl in Hl. lia.
  - intros H. now apply Hsome in H.
Qed.

End SPSCOperations.

Lemma spsc_observers_witness :
  SPSCRingBuffer.size 2 (snd (SPSCRingBuffer.run 0 2 spsc_wrap_calls (SPSCRingBuffer.init 0 2))) =
  Z.of_nat (length (SPSCRingBuffer.pending 0 2
      (snd (SPSCRingBuffer.run 0 2 spsc_wrap_calls (SPSCRingBuffer.init 0 2))))).
Proof.
  assert (1 <= 2)%nat as H by lia.
  exact (proj1 (spsc_observers 0 2 H spsc_wrap_calls)).
Defined.

Lemma spsc_peek_is_next_pop_witness :
  SPSCRingBuffer.peek 0 (snd (SPSCRingBuffer.run 0 2 [SPSCRingBuffer.Push 8; SPSCRingBuffer.Push 9]
                               (SPSCRingBuffer.init 0 2))) =
  hd_error (SPSCRingBuffer.pending 0 2
              (snd (SPSCRingBuffer.run 0 2 [SPSCRingBuffer.Push 8; SPSCRingBuffer.Push 9]
                      (SPSCRingBuffer.init 0 2)))).
Proof.
  assert (1 <= 2)%nat as H by lia.
  exact (proj1 (spsc_peek_is_next_pop 0 2 H [SPSCRingBuffer.Push 8; SPSCRingBuffer.Push 9])).
Defined.

Lemma spsc_push_pop_sizes_witness :
  fst (SPSCRingBuffer.push 2 7 (snd (SPSCRingBuffer.run 0 2 spsc_wrap_calls (SPSCRingBuffer.init 0 2)))) = true <->
  SPSCRingBuffer.size 2 (snd (SPSCRingBuffer.run 0 2 spsc_wrap_calls (SPSCRingBuffer.init 0 2))) <
  SPSCRingBuffer.capacity 2.
Proof.
  assert (1 <= 2)%nat as H by lia.
  exact (proj1 (spsc_push_pop_sizes 0 2 H spsc_wrap_calls 7)).
Defined.

(** ** ring_buffer.h: batches on the SPSC buffer *)

Section BatchOperations.

Import SPSCRingBuffer BatchRingBuffer.

Context {T : Type} (d : T) (k : nat) (Hk : (1 <= k)%nat).

Lemma push_refused_same (x : T) (q q' : @t T) :
  push k x q = (false, q') -> q' = q.
Proof.
  unfold push. destruct (Z.land (tail_ q + 1) (Size k - 1) =? head_ q); congruence.
Qed.

Lemma push_batch_spec (items : list T) (q : @t T) :
  wf k q ->
  wf k (snd (push_batch k items q)) /\
  fst (push_batch k items q) =
    Z.min (Z.of_nat (length items)) (capacity k - size k q) /\
  pending d k (snd (push_batch k items q)) =
    pending d k q ++ firstn (Z.to_nat (fst (push_batch k items q))) items.
Proof.
  revert q. induction items as [|x rest IH]; intros q Hwf.
  - pose proof (size_range k Hk q Hwf). unfold capacity. simpl.
    rewrite app_nil_r. split; [exact Hwf|]. split; [lia|reflexivity].
  - pose proof (size_range k Hk q Hwf) as Hr. unfold capacity in *.
    cbn [push_batch]. destruct (push k x q) as [ok q'] eqn:Hpush.
    destruct ok.
    + destruct (push_ok d k Hk x q q' Hwf Hpush) as [Hwf' Hp].
      assert (size k q' = size k q + 1) as Hs.
      { rewrite <- (pending_length d k Hk q' Hwf'), <- (pending_length d k Hk q Hwf), Hp.
        rewrite length_app. simpl. lia. }
      pose proof (size_range k Hk q' Hwf') as Hr'.
      specialize (IH q' Hwf'). destruct (push_batch k rest q') as [n q''].
      cbn [fst snd] in *. destruct IH as (IHwf & IHn & IHp).
      split; [exact IHwf|]. split.
      * rewrite IHn, Hs. cbn [length]. lia.
      * rewrite IHp, Hp, <- app_assoc. f_equal.
        assert (0 <= n) by lia.
        replace (Z.to_nat (n + 1)) with (S (Z.to_nat n)) by lia. reflexivity.
    + apply push_refused_same in Hpush as Heq. subst q'.
      pose proof (proj2 (push_full k Hk x q Hwf) Hpush) as Hfull.
      cbn [fst snd]. split; [exact Hwf|]. split.
      * cbn [length]. lia.
      * simpl. now rewrite app_nil_r.
Qed.

Lemma pop_batch_spec (max_count : nat) (q : @t T) :
  wf k q ->
  wf k (snd (pop_batch d k max_count q)) /\
  fst (pop_batch d k max_count q) = firstn max_count (pending d k q) /\
  pending d k (snd (pop_batch d k max_count q)) = skipn max_count (pending d k q).
Proof.
  revert q. induction max_count as [|n IH]; intros q Hwf.
  - simpl. auto.
  - cbn [pop_batch]. destruct (pop d k q) as [r q'] eqn:Hpop.
    destruct r as [x|].
    + destruct (pop_some d k Hk x q q' Hwf Hpop) as [Hwf' Hp].
      specialize (IH q' Hwf'). destruct (pop_batch d k n q') as [xs q''].
      cbn [fst snd] in *. destruct IH as (IHwf & IHx & IHp).
      rewrite Hp. cbn [firstn skipn]. rewrite IHx, IHp. auto.
    + destruct (pop_none d k Hk q q' Hwf Hpop) as [-> Hp].
      cbn [fst snd]. rewrite Hp. auto.
Qed.

(** X25. [push_batch] pushes the longest prefix of the items that fits:
    it returns the smaller of the number of items and the free room
    [capacity() - size()], and appends exactly that many, in order.
    [pop_batch] hands out the oldest [max_count] pending items, or all
    of them when fewer are pending, and leaves the rest pending. *)
Theorem batch_moves_prefix (ops : list op) (items : list T) (max_count : nat) :
  let q := snd (run d k ops (init d k)) in
  fst (push_batch k items q) =
    Z.min (Z.of_nat (length items)) (capacity k - size k q) /\
  pending d k (snd (push_batch k items q)) =
    pending d k q ++ firstn (Z.to_nat (fst (push_batch k items q))) items /\
  fst (pop_batch d k max_count q) = firstn max_count (pending d k q) /\
  pending d k (snd (pop_batch d k max_count q)) = skipn max_count (pending d k q).
Proof.
  intros q. pose proof (run_wf d k Hk ops) as Hwf. fold q in Hwf.
  destruct (push_batch_spec items q Hwf) as (_ & H1 & H2).
  destruct (pop_batch_spec max_count q Hwf) as (_ & H3 & H4).
  auto.
Qed.

End BatchOperations.

Lemma batch_moves_prefix_witness :
  fst (BatchRingBuffer.push_batch 2 [1; 2; 3; 4; 5] (SPSCRingBuffer.init 0 2)) = 3.
Proof.
  assert (1 <= 2)%nat as H by lia.
  exact (proj1 (batch_moves_prefix 0 2 H [] [1; 2; 3; 4; 5] 0%nat)).
Defined.

(** ** ring_buffer.h: the MPMC buffer run by one thread *)

Section MPMCOperations.

Import MPMCRingBuffer.

Context {T : Type} (d : T) (k : nat) (Hk : (1 <= k)%nat).

Lemma mpmc_Size_ge_2 : 2 <= Size k.
Proof.
  unfold Size. replace (Z.of_nat k) with (1 + Z.of_nat (k - 1)) by lia.
  rewrite Z.pow_add_r by lia.
  pose proof (Z.pow_pos_nonneg 2 (Z.of_nat (k - 1))). lia.
Qed.

Lemma index_mod (pos : Z) : index k pos = Z.to_nat (pos mod Size k).
Proof.
  unfold index, Size. rewrite <- Z.land_ones by lia.
  now rewrite Z.ones_equiv, <- Z.sub_1_r.
Qed.

Lemma index_lt (pos : Z) : (index k pos < Z.to_nat (Size k))%nat.
Proof.
  pose proof mpmc_Size_ge_2. rewrite index_mod.
  pose proof (Z.mod_pos_bound pos (Size k)). lia.
Qed.

Lemma index_add_size (pos : Z) : index k (pos + Size k) = index k pos.
Proof.
  pose proof mpmc_Size_ge_2. rewrite !index_mod.
  replace (pos + Size k) with (pos + 1 * Size k) by lia.
  now rewrite Z.mod_add by lia.
Qed.

(** Positions less than [Size] apart fall into different slots. *)
Lemma index_inj (p1 p2 : Z) :
  p1 < p2 < p1 + Size k -> index k p1 <> index k p2.
Proof.
  pose proof mpmc_Size_ge_2. intros Hp. rewrite !index_mod. intros Heq.
  pose proof (Z.mod_pos_bound p1 (Size k)).
  pose proof (Z.mod_pos_bound p2 (Size k)).
  assert (p1 mod Size k = p2 mod Size k) as Hm by lia.
  pose proof (Z.div_mod p1 (Size k)). pose proof (Z.div_mod p2 (Size k)).
  assert (p2 - p1 = Size k * (p2 / Size k - p1 / Size k)) as Hd by lia.
  assert (0 < p2 / Size k - p1 / Size k) by nia.
  nia.
Qed.

Lemma signed64_small (x : Z) : - 2 ^ 63 <= x < 2 ^ 63 -> Word.signed64 x = x.
Proof.
  intros Hx. unfold Word.signed64, Word.wrap64.
  change (2 ^ 63) with 9223372036854775808 in *.
  change (2 ^ 64) with 18446744073709551616.
  destruct (Z_lt_dec x 0) as [Hneg|Hpos].
  - rewrite <- (Z.mod_unique_pos x 18446744073709551616 (-1) (x + 18446744073709551616))
      by lia.
    destruct (x + 18446744073709551616 <? 9223372036854775808) eqn:Hc;
      [apply Z.ltb_lt in Hc; lia|lia].
  - rewrite Z.mod_small by lia.
    destruct (x <? 9223372036854775808) eqn:Hc; [reflexivity|apply Z.ltb_ge in Hc; lia].
Qed.

Lemma mpmc_wrap64_small (x : Z) : 0 <= x < 2 ^ 63 -> Word.wrap64 x = x.
Proof.
  intros H. apply wrap64_small. change (2 ^ 63) with 9223372036854775808 in H.
  change (2 ^ 64) with 18446744073709551616. lia.
Qed.

Lemma init_inv : inv d k (init d k).
Proof.
  pose proof mpmc_Size_ge_2. unfold inv, init. simpl.
  rewrite length_map, length_seq.
  repeat split; try lia.
  intros p Hp. unfold slot_at. simpl buffer_.
  rewrite index_mod, Z.mod_small by lia.
  rewrite (nth_indep _ _ ((fun i => mkSlot (Z.of_nat i) d) 0%nat))
    by (rewrite length_map, length_seq; lia).
  rewrite (map_nth (fun i => mkSlot (Z.of_nat i) d)), seq_nth by lia.
  simpl. lia.
Qed.

Lemma slot_insert_same (q : @t T) (pos : Z) (s : Slot) (h tl : Z) :
  length (buffer_ q) = Z.to_nat (Size k) ->
  slot_at d k (mk h tl (<[index k pos := s]> (buffer_ q))) pos = s.
Proof.
  intros Hlen. unfold slot_at. simpl buffer_.
  rewrite nth_lookup, list_lookup_insert_eq; [reflexivity|].
  rewrite Hlen. apply index_lt.
Qed.

Lemma slot_insert_other (q : @t T) (pos p : Z) (s : Slot) (h tl : Z) :
  index k pos <> index k p ->
  slot_at d k (mk h tl (<[index k pos := s]> (buffer_ q))) p = slot_at d k q p.
Proof.
  intros Hne. unfold slot_at. simpl buffer_.
  now rewrite !nth_lookup, list_lookup_insert_ne.
Qed.

Lemma mpmc_size_inv (q : @t T) :
  inv d k q -> Size k < 2 ^ 63 -> size q = tail_ q - head_ q.
Proof.
  intros (Hh & Hht & Hts & _) Hb. pose proof mpmc_Size_ge_2.
  unfold size. apply mpmc_wrap64_small. lia.
Qed.

(** A push with room left ends in its first iteration and appends. *)
Lemma push_room (fuel : nat) (x : T) (q : @t T) :
  inv d k q -> tail_ q + Size k < 2 ^ 63 -> tail_ q < head_ q + Size k ->
  exists q', push d k (S fuel) x q = Some (true, q') /\ inv d k q' /\
             head_ q' = head_ q /\ tail_ q' = tail_ q + 1 /\
             pending d k q' = pending d k q ++ [x].
Proof.
  intros Hinv Hb Hroom.
  assert (Size k < 2 ^ 63) as HSb by (destruct Hinv as (? & ? & _); lia).
  pose proof (mpmc_size_inv q Hinv HSb) as Hsz.
  destruct Hinv as (Hh & Hht & Hts & Hlen & Hfilled & Hfree).
  pose proof mpmc_Size_ge_2 as HS.
  cbn [push]. rewrite (Hfree (tail_ q)) by lia.
  rewrite Z.sub_diag. change (Word.signed64 0 =? 0) with true. cbv iota.
  rewrite (mpmc_wrap64_small (tail_ q + 1)) by lia.
  set (q' := mk (head_ q) (tail_ q + 1)
                (<[index k (tail_ q) := mkSlot (tail_ q + 1) x]> (buffer_ q))).
  exists q'. split; [reflexivity|].
  assert (inv d k q') as Hinv'.
  { unfold inv, q'. cbn [head_ tail_ buffer_]. rewrite length_insert.
    split; [lia|]. split; [lia|]. split; [lia|]. split; [exact Hlen|]. split.
    - intros p Hp. destruct (Z.eq_dec p (tail_ q)) as [->|Hne].
      + now rewrite slot_insert_same.
      + rewrite slot_insert_other; [apply Hfilled; lia|].
        intros Heq. symmetry in Heq. revert Heq. apply index_inj. lia.
    - intros p Hp. rewrite slot_insert_other; [apply Hfree; lia|].
      apply index_inj. lia. }
  split; [exact Hinv'|]. split; [reflexivity|]. split; [reflexivity|].
  assert (size q' = size q + 1) as Hsz'.
  { rewrite (mpmc_size_inv q' Hinv' HSb).
    rewrite Hsz. unfold q'. simpl. lia. }
  unfold pending. rewrite Hsz'.
  replace (Z.to_nat (size q + 1)) with (Z.to_nat (size q) + 1)%nat by lia.
  rewrite seq_app, map_app. f_equal.
  - apply map_ext_in. intros j Hj. apply in_seq in Hj.
    unfold q' at 1. cbn [head_]. unfold q'. rewrite slot_insert_other; [reflexivity|].
    intros Heq. symmetry in Heq. revert Heq. apply index_inj. cbn [head_]. lia.
  - simpl. unfold q' at 1. cbn [head_].
    replace (head_ q + Z.of_nat (Z.to_nat (size q))) with (tail_ q) by lia.
    unfold q'. now rewrite slot_insert_same.
Qed.

(** A push on [Size] pending items is refused in its first iteration. *)
Lemma push_no_room (fuel : nat) (x : T) (q : @t T) :
  inv d k q -> tail_ q + Size k < 2 ^ 63 -> tail_ q = head_ q + Size k ->
  push d k (S fuel) x q = Some (false, q).
Proof.
  intros (Hh & Hht & Hts & Hlen & Hfilled & Hfree) Hb Hfull.
  pose proof mpmc_Size_ge_2 as HS. cbn [push].
  assert (sequence (slot_at d k q (tail_ q)) = head_ q + 1) as ->.
  { unfold slot_at. rewrite Hfull, index_add_size.
    fold (slot_at d k q (head_ q)). apply Hfilled. lia. }
  change (2 ^ 63) with 9223372036854775808 in Hb.
  rewrite signed64_small
    by (change (2 ^ 63) with 9223372036854775808; lia).
  destruct (head_ q + 1 - tail_ q =? 0) eqn:H0; [apply Z.eqb_eq in H0; lia|].
  destruct (head_ q + 1 - tail_ q <? 0) eqn:H1; [reflexivity|].
  apply Z.ltb_ge in H1. lia.
Qed.

(** A pop with something pending ends in its first iteration and takes
    the oldest item. *)
Lemma pop_item (fuel : nat) (q : @t T) :
  inv d k q -> tail_ q + Size k < 2 ^ 63 -> head_ q < tail_ q ->
  exists x q', pop d k (S fuel) q = Some (Some x, q') /\ inv d k q' /\
               head_ q' = head_ q + 1 /\ tail_ q' = tail_ q /\
               pending d k q = x :: pending d k q'.
Proof.
  intros Hinv Hb Hsome.
  assert (Size k < 2 ^ 63) as HSb by (destruct Hinv as (? & ? & _); lia).
  pose proof (mpmc_size_inv q Hinv HSb) as Hsz.
  destruct Hinv as (Hh & Hht & Hts & Hlen & Hfilled & Hfree).
  pose proof mpmc_Size_ge_2 as HS.
  change (2 ^ 63) with 9223372036854775808 in Hb.
  cbn [pop]. rewrite (Hfilled (head_ q)) by lia.
  rewrite (mpmc_wrap64_small (head_ q + 1))
    by (change (2 ^ 63) with 9223372036854775808; lia).
  rewrite (mpmc_wrap64_small (head_ q + Size k))
    by (change (2 ^ 63) with 9223372036854775808; lia).
  rewrite Z.sub_diag. change (Word.signed64 0 =? 0) with true. cbv iota.
  set (x := data (slot_at d k q (head_ q))).
  set (q' := mk (head_ q + 1) (tail_ q)
                (<[index k (head_ q) := mkSlot (head_ q + Size k) x]> (buffer_ q))).
  exists x, q'. split; [reflexivity|].
  assert (inv d k q') as Hinv'.
  { unfold inv, q'. cbn [head_ tail_ buffer_]. rewrite length_insert.
    split; [lia|]. split; [lia|]. split; [lia|]. split; [exact Hlen|]. split.
    - intros p Hp. rewrite slot_insert_other; [apply Hfilled; lia|].
      apply index_inj. lia.
    - intros p Hp. destruct (Z.eq_dec p (head_ q + Size k)) as [->|Hne].
      + unfold slot_at. cbn [buffer_]. rewrite index_add_size.
        rewrite nth_lookup, list_lookup_insert_eq; [reflexivity|].
        rewrite Hlen. apply index_lt.
      + rewrite slot_insert_other; [apply Hfree; lia|].
        apply index_inj. lia. }
  split; [exact Hinv'|]. split; [reflexivity|]. split; [reflexivity|].
  assert (size q = size q' + 1 /\ 0 <= size q') as [Hsz' Hnn].
  { rewrite (mpmc_size_inv q' Hinv' HSb).
    rewrite Hsz. unfold q'. simpl. lia. }
  unfold pending at 1. rewrite Hsz'.
  replace (Z.to_nat (size q' + 1)) with (S (Z.to_nat (size q'))) by lia.
  rewrite <- cons_seq, <- seq_shift. cbn [map]. f_equal.
  - now rewrite Z.add_0_r.
  - rewrite map_map. unfold pending. apply map_ext_in. intros j Hj.
    apply in_seq in Hj. unfold q' at 1. cbn [head_]. unfold q'.
    rewrite slot_insert_other.
    + cbn [head_]. do 2 f_equal. lia.
    + apply index_inj. cbn [head_]. unfold q' in Hnn. lia.
Qed.

(** A pop on the empty buffer is refused in its first iteration. *)
Lemma pop_nothing (fuel : nat) (q : @t T) :
  inv d k q -> tail_ q + Size k < 2 ^ 63 -> head_ q = tail_ q ->
  pop d k (S fuel) q = Some (None, q).
Proof.
  intros (Hh & Hht & Hts & Hlen & Hfilled & Hfree) Hb Hempty.
  pose proof mpmc_Size_ge_2 as HS. cbn [pop].
  change (2 ^ 63) with 9223372036854775808 in Hb.
  rewrite (Hfree (head_ q)) by lia.
  rewrite (mpmc_wrap64_small (head_ q + 1))
    by (change (2 ^ 63) with 9223372036854775808; lia).
  rewrite signed64_small
    by (change (2 ^ 63) with 9223372036854775808; lia).
  destruct (head_ q - (head_ q + 1) =? 0) eqn:H0; [apply Z.eqb_eq in H0; lia|].
  destruct (head_ q - (head_ q + 1) <? 0) eqn:H1; [reflexivity|].
  apply Z.ltb_ge in H1. lia.
Qed.

Lemma mpmc_pending_length (q : @t T) :
  length (pending d k q) = Z.to_nat (size q).
Proof. unfold pending. now rewrite length_map, length_seq. Qed.

(** A run by one thread never waits: every call ends in its first
    iteration, and the buffer is a queue of the items pushed. *)
Lemma mpmc_run_fifo (fuel : nat) (ops : list (@SPSCRingBuffer.op T)) (q : @t T) :
  inv d k q -> tail_ q + Size k + Z.of_nat (length ops) < 2 ^ 63 ->
  exists tr q', run d k (S fuel) ops q = Some (tr, q') /\ inv d k q' /\
                tail_ q' <= tail_ q + Z.of_nat (length ops) /\
                pending d k q ++ SPSCRingBuffer.pushed tr =
                SPSCRingBuffer.popped tr ++ pending d k q'.
Proof.
  revert q. induction ops as [|o ops IH]; intros q Hinv Hb.
  - exists [], q. cbn [run length SPSCRingBuffer.pushed SPSCRingBuffer.popped].
    split; [reflexivity|]. split; [exact Hinv|]. split; [simpl; lia|].
    now rewrite app_nil_r.
  - cbn [length] in Hb. rewrite Nat2Z.inj_succ in Hb.
    assert (tail_ q + Size k < 2 ^ 63) as Hb1 by lia.
    destruct o as [x|]; cbn [run].
    + destruct (Z_lt_dec (tail_ q) (head_ q + Size k)) as [Hroom|Hfull].
      * destruct (push_room fuel x q Hinv Hb1 Hroom)
          as (q1 & Hpush & Hinv1 & Hh1 & Ht1 & Hp1).
        rewrite Hpush.
        destruct (IH q1 Hinv1) as (tr & q2 & Hrun & Hinv2 & Ht2 & Hfifo);
          [lia|].
        rewrite Hrun. exists (SPSCRingBuffer.PushRet x true :: tr), q2.
        split; [reflexivity|]. split; [exact Hinv2|].
        split; [cbn [length]; lia|].
        cbn [SPSCRingBuffer.pushed SPSCRingBuffer.popped].
        rewrite <- Hfifo, Hp1, <- app_assoc. reflexivity.
      * assert (tail_ q = head_ q + Size k) as Heq
          by (destruct Hinv as (_ & _ & ? & _); lia).
        rewrite (push_no_room fuel x q Hinv Hb1 Heq).
        destruct (IH q Hinv) as (tr & q2 & Hrun & Hinv2 & Ht2 & Hfifo);
          [lia|].
        rewrite Hrun. exists (SPSCRingBuffer.PushRet x false :: tr), q2.
        split; [reflexivity|]. split; [exact Hinv2|].
        split; [cbn [length]; lia|].
        cbn [SPSCRingBuffer.pushed SPSCRingBuffer.popped]. exact Hfifo.
    + destruct (Z_lt_dec (head_ q) (tail_ q)) as [Hsome|Hnone].
      * destruct (pop_item fuel q Hinv Hb1 Hsome)
          as (x & q1 & Hpop & Hinv1 & Hh1 & Ht1 & Hp1).
        rewrite Hpop.
        destruct (IH q1 Hinv1) as (tr & q2 & Hrun & Hinv2 & Ht2 & Hfifo);
          [lia|].
        rewrite Hrun. exists (SPSCRingBuffer.PopRet (Some x) :: tr), q2.
        split; [reflexivity|]. split; [exact Hinv2|].
        split; [cbn [length]; lia|].
        cbn [SPSCRingBuffer.pushed SPSCRingBuffer.popped].
        rewrite Hp1. cbn [app]. f_equal. exact Hfifo.
      * assert (head_ q = tail_ q) as Heq
          by (destruct Hinv as (_ & ? & _); lia).
        rewrite (pop_nothing fuel q Hinv Hb1 Heq).
        destruct (IH q Hinv) as (tr & q2 & Hrun & Hinv2 & Ht2 & Hfifo);
          [lia|].
        rewrite Hrun. exists (SPSCRingBuffer.PopRet None :: tr), q2.
        split; [reflexivity|]. split; [exact Hinv2|].
        split; [cbn [length]; lia|].
        cbn [SPSCRingBuffer.pushed SPSCRingBuffer.popped]. exact Hfifo.
Qed.

(** X26. The MPMC buffer of [Size = 2 ^ k] slots, called by one thread
    at a time from the state the constructor leaves, for fewer than
    [2 ^ 63 - Size] calls: every [push] and [pop] returns in the first
    iteration of its loop; the items whose push returned true are the
    popped items followed by the pending ones, in order; [size()] is the
    number of pending items and never exceeds [capacity() = Size]; in
    the state reached a push is refused, leaving the buffer as it is,
    exactly when [Size] items are pending, and a pop is refused exactly
    when the buffer is [empty()]. *)
Theorem mpmc_sequential_fifo (fuel : nat) (ops : list (@SPSCRingBuffer.op T)) :
  Size k + Z.of_nat (length ops) < 2 ^ 63 ->
  exists tr q,
    run d k (S fuel) ops (init d k) = Some (tr, q) /\
    SPSCRingBuffer.pushed tr = SPSCRingBuffer.popped tr ++ pending d k q /\
    size q = Z.of_nat (length (pending d k q)) /\
    size q <= capacity k /\
    (forall x, exists q',
       push d k (S fuel) x q = Some (size q <? capacity k, q') /\
       (size q = capacity k -> q' = q) /\
       (size q < capacity k -> pending d k q' = pending d k q ++ [x])) /\
    (exists r q', pop d k (S fuel) q = Some (r, q') /\
       (r = None <-> empty q = true) /\
       (r = None -> q' = q) /\
       (forall y, r = Some y -> pending d k q = y :: pending d k q')).
Proof.
  intros Hb. pose proof mpmc_Size_ge_2 as HS.
  destruct (mpmc_run_fifo fuel ops (init d k) init_inv)
    as (tr & q & Hrun & Hinv & Ht & Hfifo); [cbn [init tail_]; lia|].
  cbn [init tail_] in Ht.
  assert (Size k < 2 ^ 63) as HSb by lia.
  assert (tail_ q + Size k < 2 ^ 63) as Hb1 by lia.
  pose proof (mpmc_size_inv q Hinv HSb) as Hsz.
  pose proof Hinv as (Hh & Hht & Hts & _).
  exists tr, q. split; [exact Hrun|]. split.
  { assert (pending d k (init d k) = []) as Hp0 by reflexivity.
    rewrite Hp0 in Hfifo. exact Hfifo. }
  split; [rewrite mpmc_pending_length; lia|].
  unfold capacity. split; [lia|]. split.
  - intros x. destruct (Z_lt_dec (tail_ q) (head_ q + Size k)) as [Hroom|Hfull].
    + destruct (push_room fuel x q Hinv Hb1 Hroom)
        as (q1 & Hpush & _ & _ & _ & Hp1).
      exists q1. rewrite Hpush.
      replace (size q <? Size k) with true by (symmetry; apply Z.ltb_lt; lia).
      split; [reflexivity|]. split; [lia|]. intros _. exact Hp1.
    + assert (tail_ q = head_ q + Size k) as Heq by lia.
      exists q. rewrite (push_no_room fuel x q Hinv Hb1 Heq).
      replace (size q <? Size k) with false by (symmetry; apply Z.ltb_ge; lia).
      split; [reflexivity|]. split; [reflexivity|]. lia.
  - unfold empty. destruct (Z_lt_dec (head_ q) (tail_ q)) as [Hsome|Hnone].
    + destruct (pop_item fuel q Hinv Hb1 Hsome)
        as (x & q1 & Hpop & _ & _ & _ & Hp1).
      exists (Some x), q1. split; [exact Hpop|]. split; [|split].
      * split; [discriminate|]. intros He. apply Z.eqb_eq in He. lia.
      * discriminate.
      * intros y Hy. injection Hy as <-. exact Hp1.
    + assert (head_ q = tail_ q) as Heq by lia.
      exists None, q. split; [exact (pop_nothing fuel q Hinv Hb1 Heq)|].
      split; [|split].
      * split; [|reflexivity]. intros _. apply Z.eqb_eq. lia.
      * reflexivity.
      * discriminate.
Qed.

End MPMCOperations.

Lemma mpmc_sequential_fifo_witness :
  exists tr q,
    MPMCRingBuffer.run 0 1 1
      [SPSCRingBuffer.Push 1; SPSCRingBuffer.Push 2; SPSCRingBuffer.Push 3;
       SPSCRingBuffer.Pop] (MPMCRingBuffer.init 0 1) = Some (tr, q) /\
    SPSCRingBuffer.pushed tr = SPSCRingBuffer.popped tr ++ MPMCRingBuffer.pending 0 1 q.
Proof.
  assert (1 <= 1)%nat as H by lia.
  assert (MPMCRingBuffer.Size 1 + Z.of_nat 4 < 2 ^ 63) as Hb by (vm_compute; reflexivity).
  destruct (mpmc_sequential_fifo 0 1 H 0%nat
              [SPSCRingBuffer.Push 1; SPSCRingBuffer.Push 2; SPSCRingBuffer.Push 3;
               SPSCRingBuffer.Pop] Hb) as (tr & q & Hrun & Hfifo & _).
  exists tr, q. split; [exact Hrun|exact Hfifo].
Defined.

(** ** config.h: trim, the loop of load, get and the forward mode *)

Section ConfigOperations.

Import Config.

Lemma find_if_not_all (l : list Z) :
  forallb isspace l = true -> find_if_not isspace l = length l.
Proof.
  induction l as [|c l IH]; [reflexivity|]. cbn [forallb find_if_not length].
  intros H. apply andb_prop in H as [Hc Hl]. rewrite Hc. f_equal. auto.
Qed.

Lemma find_if_not_app (l x : list Z) :
  forallb isspace l = true ->
  find_if_not isspace (l ++ x) = (length l + find_if_not isspace x)%nat.
Proof.
  induction l as [|c l IH]; [reflexivity|]. cbn [forallb find_if_not length app].
  intros H. apply andb_prop in H as [Hc Hl]. rewrite Hc. cbn. f_equal. auto.
Qed.

Lemma forallb_isspace_rev (l : list Z) :
  forallb isspace (rev l) = forallb isspace l.
Proof.
  induction l as [|c l IH]; [reflexivity|].
  cbn [rev forallb]. rewrite forallb_app, IH. cbn [forallb].
  rewrite andb_true_r. apply andb_comm.
Qed.

Lemma trimmed_ends (x : list Z) :
  trimmed x = true -> x <> [] ->
  exists c x' y c', x = c :: x' /\ x = y ++ [c'] /\
                    isspace c = false /\ isspace c' = false.
Proof.
  intros Ht Hne. destruct x as [|c x']; [contradiction|].
  unfold trimmed in Ht. apply andb_prop in Ht as [Hc Hl].
  destruct (last (c :: x')) as [c'|] eqn:Hlast.
  - apply last_Some in Hlast as [y Hy].
    exists c, x', y, c'. repeat split; try assumption.
    + now apply negb_true_iff.
    + now apply negb_true_iff.
  - apply last_None in Hlast. discriminate.
Qed.

(** What [trim] returns on a string put between two runs of white space. *)
Lemma trim_between (l x r : list Z) :
  forallb isspace l = true -> forallb isspace r = true -> trimmed x = true ->
  trim (l ++ x ++ r) = x.
Proof.
  intros Hl Hr Hx. unfold trim.
  destruct (decide (x = [])) as [->|Hne].
  - cbn [app].
    assert (forallb isspace (l ++ r) = true) as Hlr
      by (rewrite forallb_app, Hl, Hr; reflexivity).
    rewrite (find_if_not_all _ Hlr).
    destruct (_ <? _)%nat eqn:Hc; [|reflexivity].
    apply Nat.ltb_lt in Hc. lia.
  - destruct (trimmed_ends x Hx Hne) as (c & x' & y & c' & Hhd & Htl & Hc & Hc').
    assert (find_if_not isspace (l ++ x ++ r) = length l) as ->.
    { rewrite find_if_not_app by exact Hl. rewrite Hhd. cbn [app find_if_not].
      rewrite Hc. lia. }
    assert (find_if_not isspace (rev (l ++ x ++ r)) = length r) as ->.
    { rewrite !rev_app_distr, <- app_assoc.
      rewrite find_if_not_app by (rewrite forallb_isspace_rev; exact Hr).
      rewrite Htl at 1. rewrite rev_app_distr. cbn [rev app find_if_not].
      rewrite Hc', length_rev. lia. }
    assert (length x <> 0%nat) by (rewrite Hhd; cbn; lia).
    rewrite !length_app.
    destruct (_ <? _)%nat eqn:Hcmp; [|apply Nat.ltb_ge in Hcmp; lia].
    rewrite drop_app_length.
    replace (length l + (length x + length r) - length r - length l)%nat
      with (length x) by lia.
    now rewrite take_app_length.
Qed.

Lemma span_front (s : list Z) :
  exists l rest, s = l ++ rest /\ forallb isspace l = true /\
                 match rest with [] => True | c :: _ => isspace c = false end.
Proof.
  induction s as [|c s (l & rest & Hs & Hl & Hrest)].
  - exists [], []. auto.
  - destruct (isspace c) eqn:Hc.
    + exists (c :: l), rest. cbn [app forallb]. rewrite Hc, Hl, Hs. auto.
    + exists [], (c :: s). auto.
Qed.

Lemma trim_decompose (str : list Z) :
  exists l x r, str = l ++ x ++ r /\ forallb isspace l = true /\
                forallb isspace r = true /\ trimmed x = true.
Proof.
  destruct (span_front str) as (l & rest & Hs & Hl & Hrest).
  destruct (span_front (rev rest)) as (r' & x' & Hr & Hr' & Hx').
  assert (rest = rev x' ++ rev r') as Hrest'
    by (rewrite <- rev_app_distr, <- Hr, rev_involutive; reflexivity).
  exists l, (rev x'), (rev r'). split; [now rewrite Hs, Hrest'|].
  split; [exact Hl|]. split; [now rewrite forallb_isspace_rev|].
  destruct x' as [|c' x'']; [reflexivity|].
  cbn [rev] in *.
  assert (exists c y, rev x'' ++ [c'] = c :: y) as (c & y & Hy)
    by (destruct (rev x''); cbn [app]; eauto).
  rewrite Hrest', Hy in Hrest. cbn [app] in Hrest.
  unfold trimmed. rewrite Hy at 1. rewrite last_snoc, Hx', Hrest. reflexivity.
Qed.

(** X28. [trim] takes away white space at the two ends and nothing else:
    the string is the result between two runs of white space, the result
    has no white space at either end, it is empty exactly when the
    string is white space only, and trimming again changes nothing. *)
Theorem trim_strips_white_space (str : list Z) :
  (exists l r, forallb isspace l = true /\ forallb isspace r = true /\
               str = l ++ trim str ++ r) /\
  trimmed (trim str) = true /\
  (trim str = [] <-> forallb isspace str = true) /\
  trim (trim str) = trim str.
Proof.
  destruct (trim_decompose str) as (l & x & r & Hs & Hl & Hr & Hx).
  assert (trim str = x) as Ht by (rewrite Hs; now apply trim_between).
  rewrite Ht. split; [exists l, r; auto|]. split; [exact Hx|]. split.
  - split.
    + intros ->. rewrite Hs. cbn [app]. now rewrite forallb_app, Hl, Hr.
    + rewrite Hs, !forallb_app. intros H.
      apply andb_prop in H as [_ H]. apply andb_prop in H as [H _].
      destruct x as [|c x']; [reflexivity|].
      unfold trimmed in Hx. cbn [forallb] in H.
      apply andb_prop in H as [Hc _]. rewrite Hc in Hx. discriminate.
  - pose proof (trim_between [] x [] eq_refl eq_refl Hx) as H.
    cbn [app] in H. now rewrite app_nil_r in H.
Qed.

Lemma find_at (ch : Z) (a b : list Z) :
  lacks ch a = true -> find ch (a ++ ch :: b) = Some (length a).
Proof.
  induction a as [|c a IH]; cbn [lacks forallb app find length].
  - now rewrite Z.eqb_refl.
  - intros H. apply andb_prop in H as [Hc Ha].
    apply negb_true_iff in Hc. rewrite Hc, (IH Ha). reflexivity.
Qed.

Lemma lacks_white_space (ch : Z) (w : list Z) :
  isspace ch = false -> forallb isspace w = true -> lacks ch w = true.
Proof.
  intros Hch. induction w as [|c w IH]; [reflexivity|].
  cbn [forallb lacks]. intros H. apply andb_prop in H as [Hc Hw].
  fold (lacks ch w). rewrite (IH Hw), andb_true_r.
  apply negb_true_iff, Z.eqb_neq. intros ->. congruence.
Qed.

Lemma lacks_app (ch : Z) (a b : list Z) :
  lacks ch (a ++ b) = lacks ch a && lacks ch b.
Proof. apply forallb_app. Qed.

Lemma trimmed_wrap (c c' : Z) (body : list Z) :
  isspace c = false -> isspace c' = false ->
  trimmed (c :: body ++ [c']) = true.
Proof.
  intros Hc Hc'. unfold trimmed.
  change (c :: body ++ [c']) with ((c :: body) ++ [c']).
  now rewrite last_snoc, Hc, Hc'.
Qed.

Lemma trimmed_app (x y : list Z) :
  x <> [] -> y <> [] -> trimmed x = true -> trimmed y = true ->
  forall mid, trimmed (x ++ mid ++ y) = true.
Proof.
  intros Hx Hy Htx Hty mid.
  destruct (trimmed_ends x Htx Hx) as (c & x' & _ & _ & Hhd & _ & Hc & _).
  destruct (trimmed_ends y Hty Hy) as (_ & _ & y' & c' & _ & Htl & _ & Hc').
  rewrite Hhd, Htl. cbn [app].
  replace (x' ++ mid ++ y' ++ [c']) with ((x' ++ mid ++ y') ++ [c'])
    by now rewrite <- !app_assoc.
  now apply trimmed_wrap.
Qed.

(** A section header, with white space wherever [trim] takes it away. *)
Lemma load_line_section (st : list Z * gmap (list Z) (list Z))
    (sec w1 w2 w3 w4 : list Z) :
  forallb isspace w1 = true -> forallb isspace w2 = true ->
  forallb isspace w3 = true -> forallb isspace w4 = true ->
  section_name sec = true ->
  load_line st (w1 ++ [91] ++ w2 ++ sec ++ w3 ++ [93] ++ w4) = (sec, snd st).
Proof.
  intros H1 H2 H3 H4 Hsec.
  assert (sec <> [] /\ trimmed sec = true /\ lacks 93 sec = true)
    as (Hne & Htr & Hl).
  { unfold section_name in Hsec. destruct sec; [discriminate|].
    apply andb_prop in Hsec as [? ?]. repeat split; auto; discriminate. }
  set (body := w2 ++ sec ++ w3).
  assert (w1 ++ [91] ++ w2 ++ sec ++ w3 ++ [93] ++ w4 =
          w1 ++ (91 :: body ++ [93]) ++ w4) as ->.
  { unfold body. cbn [app]. now rewrite <- !app_assoc. }
  unfold load_line.
  rewrite (trim_between w1 (91 :: body ++ [93]) w4 H1 H4)
    by (now apply trimmed_wrap).
  cbv iota. change ((91 =? 35) || (91 =? 59)) with false.
  change (91 =? 91) with true. cbv iota.
  assert (lacks 93 body = true) as Hb.
  { unfold body. rewrite !lacks_app, Hl.
    now rewrite !lacks_white_space. }
  cbn [find]. change (91 =? 93) with false. cbv iota.
  rewrite (find_at 93 body [] Hb). cbn [option_map].
  cbn [skipn]. replace (S (length body) - 1)%nat with (length body) by lia.
  rewrite skipn_O, take_app_length. unfold body.
  now rewrite (trim_between w2 sec w3).
Qed.

Lemma load_line_other (st : list Z * gmap (list Z) (list Z))
    (raw : list Z) (c : Z) (rest : list Z) :
  trim raw = c :: rest -> c <> 35 -> c <> 59 -> c <> 91 ->
  load_line st raw =
  match find 61 (c :: rest) with
  | None => st
  | Some eq_pos =>
      (fst st,
       <[match fst st with
         | [] => trim (firstn eq_pos (c :: rest))
         | _ => fst st ++ [46] ++ trim (firstn eq_pos (c :: rest))
         end := trim (skipn (eq_pos + 1) (c :: rest))]> (snd st))
  end.
Proof.
  intros Ht H1 H2 H3. unfold load_line. rewrite Ht. cbv iota.
  apply Z.eqb_neq in H1, H2, H3. rewrite H1, H2, H3. reflexivity.
Qed.

(** An assignment, with white space wherever [trim] takes it away. *)
Lemma load_line_assign (st : list Z * gmap (list Z) (list Z))
    (key value w1 w2 w3 w4 : list Z) :
  forallb isspace w1 = true -> forallb isspace w2 = true ->
  forallb isspace w3 = true -> forallb isspace w4 = true ->
  key_name key = true -> trimmed value = true ->
  load_line st (w1 ++ key ++ w2 ++ [61] ++ w3 ++ value ++ w4) =
  (fst st,
   <[match fst st with [] => key | _ => fst st ++ [46] ++ key end := value]>
     (snd st)).
Proof.
  intros H1 H2 H3 H4 Hkey Hval.
  assert (exists c key', key = c :: key' /\ c <> 35 /\ c <> 59 /\ c <> 91 /\
                         trimmed key = true /\ lacks 61 key = true)
    as (c & key' & Hk & Hc1 & Hc2 & Hc3 & Htr & Hl).
  { unfold key_name in Hkey. destruct key as [|c key']; [discriminate|].
    apply andb_prop in Hkey as [Hkey ?]. apply andb_prop in Hkey as [Hc ?].
    apply negb_true_iff, orb_false_elim in Hc as [Hc Hc3].
    apply orb_false_elim in Hc as [Hc1 Hc2].
    exists c, key'. repeat split; auto; now apply Z.eqb_neq. }
  assert (key <> []) as Hne by (rewrite Hk; discriminate).
  (* the trimmed line: the value, when empty, goes with its white space *)
  assert (exists tail_, trim (w1 ++ key ++ w2 ++ [61] ++ w3 ++ value ++ w4) =
                        key ++ w2 ++ 61 :: tail_ /\ trim tail_ = value)
    as (tail_ & Hline & Htail).
  { destruct (decide (value = [])) as [->|Hv].
    - exists []. split; [|reflexivity]. cbn [app].
      replace (w1 ++ key ++ w2 ++ 61 :: w3 ++ w4)
        with (w1 ++ (key ++ w2 ++ [61]) ++ (w3 ++ w4))
        by (now rewrite <- !app_assoc).
      rewrite trim_between; [now rewrite <- ?app_assoc|exact H1| |].
      + now rewrite forallb_app, H3, H4.
      + apply (trimmed_app key [61] Hne); [discriminate|exact Htr|reflexivity].
    - exists (w3 ++ value). split.
      + replace (w1 ++ key ++ w2 ++ [61] ++ w3 ++ value ++ w4)
          with (w1 ++ (key ++ (w2 ++ [61] ++ w3) ++ value) ++ w4)
          by (now rewrite <- !app_assoc).
        rewrite trim_between; [now rewrite <- ?app_assoc|exact H1|exact H4|].
        now apply trimmed_app.
      + pose proof (trim_between w3 value [] H3 eq_refl Hval) as H.
        now rewrite app_nil_r in H. }
  rewrite (load_line_other st _ c (key' ++ w2 ++ 61 :: tail_))
    by (try assumption; rewrite Hline, Hk; reflexivity).
  change (c :: key' ++ w2 ++ 61 :: tail_) with
    ((c :: key') ++ w2 ++ 61 :: tail_).
  rewrite <- Hk.
  assert (lacks 61 (key ++ w2) = true) as Hkw
    by (rewrite lacks_app, Hl; now rewrite lacks_white_space).
  replace (key ++ w2 ++ 61 :: tail_) with ((key ++ w2) ++ 61 :: tail_)
    by (now rewrite <- app_assoc).
  rewrite (find_at 61 (key ++ w2) tail_ Hkw).
  rewrite take_app_length.
  replace (length (key ++ w2) + 1)%nat with (S (length (key ++ w2))) by lia.
  change (61 :: tail_) with ([61] ++ tail_).
  rewrite (app_assoc (key ++ w2) [61] tail_).
  replace (S (length (key ++ w2))) with (length ((key ++ w2) ++ [61]))
    by (rewrite (length_app _ [61]); cbn [length]; lia).
  rewrite drop_app_length, Htail.
  pose proof (trim_between [] key w2 eq_refl H2 Htr) as Hkt.
  cbn [app] in Hkt. rewrite Hkt. reflexivity.
Qed.

Lemma load_lines_assigns (pre : list (list Z)) (m : gmap (list Z) (list Z))
    (sec key value w1 w2 w3 w4 w5 w6 w7 w8 : list Z) :
  forallb isspace (w1 ++ w2 ++ w3 ++ w4 ++ w5 ++ w6 ++ w7 ++ w8) = true ->
  section_name sec = true -> key_name key = true -> trimmed value = true ->
  load_lines (pre ++ [w1 ++ [91] ++ w2 ++ sec ++ w3 ++ [93] ++ w4;
                      w5 ++ key ++ w6 ++ [61] ++ w7 ++ value ++ w8]) m
    !! (sec ++ [46] ++ key) = Some value.
Proof.
  intros Hw Hsec Hkey Hval.
  rewrite !forallb_app in Hw.
  repeat match type of Hw with
         | _ && _ = true => let H := fresh "Hw" in apply andb_prop in Hw as [H Hw]
         end.
  unfold load_lines. rewrite fold_left_app. cbn [fold_left].
  rewrite load_line_section by assumption.
  rewrite load_line_assign by assumption.
  cbn [fst snd].
  destruct sec as [|c sec']; [discriminate|].
  now rewrite lookup_insert_eq.
Qed.

Lemma tolower_is (c lower : Z) :
  97 <= lower <= 122 -> (tolower c = lower <-> c = lower \/ c = lower - 32).
Proof.
  intros Hl. unfold tolower.
  destruct ((65 <=? c) && (c <=? 90)) eqn:Hc.
  - apply andb_prop in Hc as [H1 H2]. apply Z.leb_le in H1, H2. lia.
  - apply andb_false_iff in Hc as [H|H]; apply Z.leb_gt in H; lia.
Qed.

Lemma to_lower_is_dr (v : list Z) :
  string_eqb (to_lower v) str_dr = true <->
  In v [[100; 114]; [100; 82]; [68; 114]; [68; 82]].
Proof.
  pose proof (fun c => tolower_is c 100 ltac:(lia)) as Hd.
  pose proof (fun c => tolower_is c 114 ltac:(lia)) as Hr.
  change (100 - 32) with 68 in Hd. change (114 - 32) with 82 in Hr.
  split.
  - destruct v as [|a [|b [|c v]]]; cbn [to_lower map string_eqb str_dr];
      try discriminate.
    + rewrite andb_false_r. discriminate.
    + rewrite andb_true_r. intros H. apply andb_prop in H as [Ha Hb].
      apply Z.eqb_eq in Ha, Hb. apply Hd in Ha. apply Hr in Hb.
      cbn [In]. destruct Ha as [-> | ->], Hb as [-> | ->]; auto.
    + rewrite !andb_false_r. discriminate.
  - cbn [In]. intros [<-|[<-|[<-|[<-|[]]]]]; reflexivity.
Qed.

(** X29. A key assigned under a section header is what [get] returns for
    that section and key, with the white space around the section name,
    the key and the value taken away, whatever lines were read before
    and whatever the map held. *)
Theorem load_then_get (pre : list (list Z)) (m : gmap (list Z) (list Z))
    (sec key value default_val w1 w2 w3 w4 w5 w6 w7 w8 : list Z) :
  forallb isspace (w1 ++ w2 ++ w3 ++ w4 ++ w5 ++ w6 ++ w7 ++ w8) = true ->
  section_name sec = true -> key_name key = true -> trimmed value = true ->
  get (load_lines (pre ++ [w1 ++ [91] ++ w2 ++ sec ++ w3 ++ [93] ++ w4;
                           w5 ++ key ++ w6 ++ [61] ++ w7 ++ value ++ w8]) m)
      sec key default_val = value.
Proof.
  intros Hw Hsec Hkey Hval. unfold get.
  now rewrite (load_lines_assigns pre m sec key value w1 w2 w3 w4 w5 w6 w7 w8).
Qed.

(** X30. The forward mode is DR exactly when the map holds, under
    "global.mode", the string "dr" in any letter case; a missing key, the
    empty value and every other value give NAT.  Read from a file whose
    last two lines are the header of the section global and an
    assignment to mode, it is DR exactly when the value between the
    white space is one of these four. *)
Theorem forward_mode_any_case (pre : list (list Z)) (m : gmap (list Z) (list Z))
    (value w1 w2 w3 : list Z) :
  forallb isspace (w1 ++ w2 ++ w3) = true -> trimmed value = true ->
  (get_forward_mode m = DR <->
   exists v, m !! (str_global ++ [46] ++ str_mode) = Some v /\
             In v [[100; 114]; [100; 82]; [68; 114]; [68; 82]]) /\
  (get_forward_mode
     (load_lines (pre ++ [[91] ++ str_global ++ [93];
                          str_mode ++ w1 ++ [61] ++ w2 ++ value ++ w3]) m) = DR <->
   In value [[100; 114]; [100; 82]; [68; 114]; [68; 82]]).
Proof.
  intros Hw Hval.
  assert (forall m', get_forward_mode m' = DR <->
            exists v, m' !! (str_global ++ [46] ++ str_mode) = Some v /\
                      In v [[100; 114]; [100; 82]; [68; 114]; [68; 82]]) as Hmode.
  { intros m'. unfold get_forward_mode, get.
    destruct (m' !! (str_global ++ [46] ++ str_mode)) as [v|].
    - destruct (string_eqb (to_lower v) str_dr) eqn:Hv.
      + apply to_lower_is_dr in Hv. split; [eauto|reflexivity].
      + split; [discriminate|]. intros (v' & Hv' & Hin).
        injection Hv' as <-. apply to_lower_is_dr in Hin. congruence.
    - cbn. split; [discriminate|]. intros (v & Hv & _). discriminate. }
  split; [apply Hmode|].
  rewrite Hmode.
  pose proof (load_lines_assigns pre m str_global str_mode value
                [] [] [] [] [] w1 w2 w3 Hw eq_refl eq_refl Hval) as Hl.
  cbn [app] in Hl |- *. rewrite Hl. split.
  - intros (v & Hv & Hin). now injection Hv as <-.
  - eauto.
Qed.

End ConfigOperations.

Lemma load_then_get_witness :
  Config.get
    (Config.load_lines
       [[32] ++ [91] ++ [] ++ [118; 105; 112] ++ [32] ++ [93] ++ [];
        [] ++ [105; 112] ++ [32] ++ [61] ++ [32] ++ [49; 48; 46; 48; 46; 48; 46; 49] ++ [13]]
       ∅)
    [118; 105; 112] [105; 112] [] = [49; 48; 46; 48; 46; 48; 46; 49].
Proof.
  refine (load_then_get [] ∅ [118; 105; 112] [105; 112]
            [49; 48; 46; 48; 46; 48; 46; 49] []
            [32] [] [32] [] [] [32] [32] [13] _ _ _ _);
    vm_compute; reflexivity.
Defined.

Lemma forward_mode_any_case_witness :
  Config.get_forward_mode
    (Config.load_lines
       [[91] ++ Config.str_global ++ [93];
        Config.str_mode ++ [32] ++ [61] ++ [32] ++ [68; 82] ++ []] ∅) = Config.DR.
Proof.
  apply (proj2 (forward_mode_any_case [] ∅ [68; 82] [32] [32] []
                  ltac:(vm_compute; reflexivity) ltac:(vm_compute; reflexivity))).
  cbn [In]. auto.
Defined.
